(** * Fruchterman-Reingold layout engine of Graph_Visualizer_WASM

    A shallow embedding of the algorithmic core of [src/GraphVisualizer.tsx]:
    [generateRandomGraph], [fruchtermanReingoldStep] and the cooling rule of
    the animation loop, followed by the properties of the layout engine.

    The TypeScript code computes on JavaScript numbers.  The embedding is
    written once over an interface [Number] of the operations the code uses
    and is instantiated twice: with the binary64 floats of the kernel
    ([float64], the arithmetic the program really runs, used to evaluate the
    code on concrete inputs) and with the real numbers ([real], the exact
    arithmetic in which the layout formulas are stated, used for the algebraic
    and order properties).  Properties that do not depend on arithmetic at all
    are proved for every instance. *)

From Stdlib Require Import ZArith List Ascii Reals Lra Lia Floats.
From stdpp Require Import base decidable option numbers list gmap strings pretty.

Local Open Scope Z_scope.

(** ** Numbers *)

(** The operations on JavaScript numbers that the source uses.  Integer
    quantities of the source (vertex ids, array indices, [numVertices],
    [numEdges]) are integers [Z]; [of_Z] is the number with that value and
    [Math_floor] goes back. *)
Class Number (num : Type) := {
  of_Z : Z -> num;
  lit_0_01 : num;                       (* the literal 0.01 *)
  lit_0_95 : num;                       (* the literal 0.95 *)
  lit_0_5 : num;                        (* the literal 0.5 *)
  add : num -> num -> num;
  sub : num -> num -> num;
  mul : num -> num -> num;
  div : num -> num -> num;
  Math_sqrt : num -> num;
  Math_min : num -> num -> num;
  Math_max : num -> num -> num;
  Math_floor : num -> Z;
  gt : num -> num -> bool;              (* a > b *)
  lt : num -> num -> bool               (* a < b *)
}.

(** *** binary64 *)

Module Float64.

(** The double nearest to an integer (ties to even, overflow to infinity). *)
Definition of_Z (z : Z) : float :=
  SF2Prim (binary_normalize prec emax z 0 false).

(** [Math.floor] of a finite double, as an integer.  A double is
    [(-1)^s * m * 2^e]; shifting by a negative [e] rounds towards minus
    infinity.  Infinities and NaN have no integer floor; the generator only
    floors products of a finite draw and an integer. *)
Definition floor (f : float) : Z :=
  match Prim2SF f with
  | S754_finite s m e => Z.shiftl (if s then Z.neg m else Z.pos m) e
  | _ => 0
  end.

Definition is_neg_zero (f : float) : bool :=
  match classify f with NZero => true | _ => false end.

Definition is_pos_zero (f : float) : bool :=
  match classify f with PZero => true | _ => false end.

(** [Math.max(a, b)]: NaN if either is NaN, and [-0] is below [+0]. *)
Definition max (a b : float) : float :=
  if is_nan a then a
  else if is_nan b then b
  else if PrimFloat.ltb a b then b
  else if PrimFloat.ltb b a then a
  else if is_neg_zero a then b else a.

(** [Math.min(a, b)]: NaN if either is NaN, and [-0] is below [+0]. *)
Definition min (a b : float) : float :=
  if is_nan a then a
  else if is_nan b then b
  else if PrimFloat.ltb a b then a
  else if PrimFloat.ltb b a then b
  else if is_pos_zero a then b else a.

End Float64.

(* 0.01 and 0.95 denote the nearest doubles, as in JavaScript. *)
#[local] Set Warnings "-inexact-float".

#[export] Instance float64 : Number float := {|
  of_Z := Float64.of_Z;
  lit_0_01 := 0.01%float;
  lit_0_95 := 0.95%float;
  lit_0_5 := 0.5%float;
  add := PrimFloat.add;
  sub := PrimFloat.sub;
  mul := PrimFloat.mul;
  div := PrimFloat.div;
  Math_sqrt := PrimFloat.sqrt;
  Math_min := Float64.min;
  Math_max := Float64.max;
  Math_floor := Float64.floor;
  gt := fun a b => PrimFloat.ltb b a;
  lt := PrimFloat.ltb
|}.

(** *** Exact reals *)

#[export] Instance Rlt_decision (a b : R) : Decision (a < b)%R := Rlt_dec a b.

#[export] Instance real : Number R := {|
  of_Z := IZR;
  lit_0_01 := (1 / 100)%R;
  lit_0_95 := (95 / 100)%R;
  lit_0_5 := (1 / 2)%R;
  add := Rplus;
  sub := Rminus;
  mul := Rmult;
  div := Rdiv;
  Math_sqrt := R_sqrt.sqrt;
  Math_min := Rmin;
  Math_max := Rmax;
  Math_floor := Int_part;
  gt := fun a b => bool_decide (b < a)%R;
  lt := fun a b => bool_decide (a < b)%R
|}.

(** ** Completions *)

(** A call returns normally, throws, or is still running when the fuel given
    to its unbounded loops is used up. *)
Inductive js_error : Set := TypeError.

Inductive outcome (A : Type) : Type :=
  | Normal (a : A)
  | Throw (e : js_error)
  | Unfinished.
Arguments Normal {A} a.
Arguments Throw {A} e.
Arguments Unfinished {A}.

#[export] Instance outcome_ret : MRet outcome := @Normal.
#[export] Instance outcome_bind : MBind outcome := fun A B f m =>
  match m with
  | Normal a => f a
  | Throw e => Throw e
  | Unfinished => Unfinished
  end.

(** ** Data model *)

Module Vertex.
Record t (num : Type) : Type :=
  mk { id : Z; x : num; y : num; dx : num; dy : num }.
Arguments mk {num} _ _ _ _ _.
Arguments id {num} _.
Arguments x {num} _.
Arguments y {num} _.
Arguments dx {num} _.
Arguments dy {num} _.
End Vertex.

Module Edge.
Record t : Set := mk { source : Z; target : Z }.
End Edge.

Abbreviation Vertex := Vertex.t.
Abbreviation Edge := Edge.t.

Record Graph (num : Type) : Type := mkGraph {
  vertices : list (Vertex num);
  edges : list Edge
}.
Arguments mkGraph {num} _ _.
Arguments vertices {num} _.
Arguments edges {num} _.

(** [a[i]] for an integer [i]: [undefined] outside the array. *)
Definition array_get {A : Type} (a : list A) (i : Z) : option A :=
  if bool_decide (0 <= i) then a !! Z.to_nat i else None.

(** Reading a property of [a[i]]: a [TypeError] when [a[i]] is [undefined]. *)
Definition deref {A : Type} (a : list A) (i : Z) : outcome A :=
  match array_get a i with
  | Some v => Normal v
  | None => Throw TypeError
  end.

(** In-place update of the object [a[i]], which is known to exist. *)
Definition array_update {A : Type} (f : A -> A) (a : list A) (i : Z) : list A :=
  alter f (Z.to_nat i) a.

(** ** Graph generation *)

(** [Math.random()] is an effect: the [i]-th call of a run returns [rng i].
    The generator threads the number [pos] of calls made so far. *)
Definition random_source (num : Type) : Type := nat -> num.

Section Generator.
Context {num : Type} `{Number num}.

Definition zero : num := of_Z 0.

(** The vertex loop, [for (let i = 0; i < numVertices; i++) vertices.push(..)]:
    [todo] iterations remain, the next id is [i].  The object literal reads
    [x] before [y]. *)
Fixpoint push_vertices (rng : random_source num) (todo : nat) (i : Z)
    (pos : nat) (vertices : list (Vertex num)) : list (Vertex num) * nat :=
  match todo with
  | O => (vertices, pos)
  | S todo' =>
      let v := Vertex.mk i (mul (rng pos) (of_Z 800))
                           (mul (rng (S pos)) (of_Z 600)) zero zero in
      push_vertices rng todo' (i + 1) (S (S pos)) (vertices ++ [v])
  end.

(** [Math.floor(Math.random() * numVertices)], the [pos]-th draw. *)
Definition random_index (rng : random_source num) (numVertices : Z)
    (pos : nat) : Z :=
  Math_floor (mul (rng pos) (of_Z numVertices)).

(** The two [while] loops of the generator need not end.  They run on [fuel]:
    every iteration of the outer loop takes one unit and leaves the rest to
    the inner loop and to the iterations that follow; a run that uses up its
    fuel is [Unfinished]. *)

(** [while (b === a) b = Math.floor(Math.random() * numVertices);] *)
Fixpoint resample (fuel : nat) (rng : random_source num) (numVertices : Z)
    (a b : Z) (pos : nat) : outcome (Z * nat) :=
  if bool_decide (b = a) then
    match fuel with
    | O => Unfinished
    | S fuel' =>
        resample fuel' rng numVertices a (random_index rng numVertices pos)
                 (S pos)
    end
  else Normal (b, pos).

(** The template literal [`${a},${b}`] of two integers. *)
Definition pair_key (a b : Z) : string := pretty a +:+ "," +:+ pretty b.

(** [a < b ? `${a},${b}` : `${b},${a}`] *)
Definition edge_key (a b : Z) : string :=
  if bool_decide (a < b) then pair_key a b else pair_key b a.

(** The edge loop, [while (edges.length < numEdges) { .. }]. *)
Fixpoint sample_edges (fuel : nat) (rng : random_source num)
    (numVertices numEdges : Z) (edgeSet : gset string) (edges : list Edge)
    (pos : nat) : outcome (list Edge) :=
  if bool_decide (Z.of_nat (length edges) < numEdges) then
    match fuel with
    | O => Unfinished
    | S fuel' =>
        let a := random_index rng numVertices pos in
        let b := random_index rng numVertices (S pos) in
        match resample fuel' rng numVertices a b (S (S pos)) with
        | Normal (b, pos') =>
            let key := edge_key a b in
            if bool_decide (key ∈ edgeSet) then
              sample_edges fuel' rng numVertices numEdges edgeSet edges pos'
            else
              sample_edges fuel' rng numVertices numEdges
                ({[key]} ∪ edgeSet) (edges ++ [Edge.mk a b]) pos'
        | Throw e => Throw e
        | Unfinished => Unfinished
        end
    end
  else Normal edges.

Definition generateRandomGraph (fuel : nat) (rng : random_source num)
    (numVertices numEdges : Z) : outcome (Graph num) :=
  let '(vertices, pos) :=
    push_vertices rng (Z.to_nat numVertices) 0 O [] in
  edges ← sample_edges fuel rng numVertices numEdges ∅ [] pos;
  mret (mkGraph vertices edges).

End Generator.

(** ** One layout step *)

Section Engine.
Context {num : Type} `{Number num}.

Definition set_force (v : Vertex num) (dx dy : num) : Vertex num :=
  Vertex.mk (Vertex.id v) (Vertex.x v) (Vertex.y v) dx dy.

Definition set_position (v : Vertex num) (x y : num) : Vertex num :=
  Vertex.mk (Vertex.id v) x y (Vertex.dx v) (Vertex.dy v).

(** [Math.sqrt(dx * dx + dy * dy)] *)
Definition norm (dx dy : num) : num :=
  Math_sqrt (add (mul dx dx) (mul dy dy)).

(** Body of the inner repulsion loop: what the vertex [u] adds to the
    accumulator of [v]. *)
Definition repel (k : num) (v u : Vertex num) : Vertex num :=
  if bool_decide (Vertex.id u ≠ Vertex.id v) then
    let dx := sub (Vertex.x v) (Vertex.x u) in
    let dy := sub (Vertex.y v) (Vertex.y u) in
    let dist := add (norm dx dy) lit_0_01 in
    let force := div (mul k k) dist in
    set_force v (add (Vertex.dx v) (mul (div dx dist) force))
                (add (Vertex.dy v) (mul (div dy dist) force))
  else v.

(** [v.dx = 0; v.dy = 0;] for the object [v] at index [i]. *)
Definition reset_at (i : nat) (vertices : list (Vertex num))
    : list (Vertex num) :=
  alter (fun v => set_force v zero zero) i vertices.

(** One pass of the inner loop: [u] is the object at index [j] and the
    object [v] at index [i] is updated in place. *)
Definition repel_at (k : num) (i j : nat) (vertices : list (Vertex num))
    : list (Vertex num) :=
  match vertices !! j with
  | Some u => alter (fun v => repel k v u) i vertices
  | None => vertices
  end.

(** One pass of the outer loop, for the object at index [i]:
    [for (let u of vertices) { .. }] after the reset. *)
Definition repulse_at (k : num) (vertices : list (Vertex num)) (i : nat)
    : list (Vertex num) :=
  foldl (fun vertices j => repel_at k i j vertices) (reset_at i vertices)
        (seq 0 (length vertices)).

(** The repulsion phase, [for (let v of vertices) { .. }], on the array that
    it updates in place. *)
Definition repulsion (k : num) (vertices : list (Vertex num))
    : list (Vertex num) :=
  foldl (repulse_at k) vertices (seq 0 (length vertices)).

(** The force of an edge between the vertex objects [v] and [u]. *)
Definition edge_force (k : num) (v u : Vertex num) : num * num :=
  let dx := sub (Vertex.x v) (Vertex.x u) in
  let dy := sub (Vertex.y v) (Vertex.y u) in
  let dist := add (norm dx dy) lit_0_01 in
  let force := div (mul dist dist) k in
  (mul (div dx dist) force, mul (div dy dist) force).

Definition pull (f : num * num) (v : Vertex num) : Vertex num :=
  set_force v (sub (Vertex.dx v) (fst f)) (sub (Vertex.dy v) (snd f)).

Definition push (f : num * num) (u : Vertex num) : Vertex num :=
  set_force u (add (Vertex.dx u) (fst f)) (add (Vertex.dy u) (snd f)).

(** Body of the attraction loop.  [v] and [u] are objects of the array, looked
    up by position; the four assignments update them in place, [v] first, so
    the second update reads the array the first one has written. *)
Definition attract (k : num) (vertices : list (Vertex num)) (e : Edge)
    : outcome (list (Vertex num)) :=
  v ← deref vertices (Edge.source e);
  u ← deref vertices (Edge.target e);
  let f := edge_force k v u in
  mret (array_update (push f)
          (array_update (pull f) vertices (Edge.source e)) (Edge.target e)).

(** The attraction phase, [for (let e of edges) { .. }]. *)
Fixpoint attraction (k : num) (vertices : list (Vertex num))
    (edges : list Edge) : outcome (list (Vertex num)) :=
  match edges with
  | [] => mret vertices
  | e :: edges' =>
      vertices' ← attract k vertices e;
      attraction k vertices' edges'
  end.

(** The displacement applied to a vertex with accumulator [(dx, dy)] of
    magnitude [disp]: [if (disp > temperature) { dx = ..; dy = ..; }]. *)
Definition capped (temperature dx dy disp : num) : num * num :=
  if gt disp temperature then
    (mul (div dx disp) temperature, mul (div dy disp) temperature)
  else (dx, dy).

(** [Math.min(hi, Math.max(0, a))] *)
Definition clamp (hi a : num) : num := Math_min hi (Math_max zero a).

(** Body of the last loop: the moved vertex and the new [maxMove]. *)
Definition displace (width height temperature : num) (v : Vertex num)
    (maxMove : num) : Vertex num * num :=
  let disp := norm (Vertex.dx v) (Vertex.dy v) in
  let d := capped temperature (Vertex.dx v) (Vertex.dy v) disp in
  (set_position v (clamp width (add (Vertex.x v) (fst d)))
                  (clamp height (add (Vertex.y v) (snd d))),
   if gt disp maxMove then disp else maxMove).

(** The last loop, threading [maxMove]. *)
Fixpoint limit_and_move (width height temperature : num)
    (vertices : list (Vertex num)) (maxMove : num)
    : list (Vertex num) * num :=
  match vertices with
  | [] => ([], maxMove)
  | v :: vertices' =>
      let '(v', maxMove') := displace width height temperature v maxMove in
      let '(moved, result) :=
        limit_and_move width height temperature vertices' maxMove' in
      (v' :: moved, result)
  end.

(** The force accumulators as they stand after repulsion and attraction. *)
Definition forces (vertices : list (Vertex num)) (edges : list Edge)
    (k : num) : outcome (list (Vertex num)) :=
  attraction k (repulsion k vertices) edges.

(** [fruchtermanReingoldStep]: the array after the step and the returned
    [maxMove].  (The local [area] of the source is never read.)  When the
    attraction loop throws, the caller is left with the array as mutated so
    far; the model keeps only the error. *)
Definition fruchtermanReingoldStep (vertices : list (Vertex num))
    (edges : list Edge) (width height k temperature : num)
    : outcome (list (Vertex num) * num) :=
  accumulated ← forces vertices edges k;
  mret (limit_and_move width height temperature accumulated zero).

(** ** Cooling and the stopping test of the animation loop *)

Definition WIDTH : num := of_Z 800.
Definition HEIGHT : num := of_Z 600.
Definition NUM_VERTICES : Z := 30.
Definition NUM_EDGES : Z := 60.

(** [const k = Math.sqrt((WIDTH * HEIGHT) / NUM_VERTICES)] *)
Definition ideal_length : num :=
  Math_sqrt (div (mul WIDTH HEIGHT) (of_Z NUM_VERTICES)).

(** The initial state [useState(100)] of the temperature. *)
Definition initial_temperature : num := of_Z 100.

(** [setTemperature(t => t * 0.95)] *)
Definition cool (t : num) : num := mul t lit_0_95.

(** [move < 0.5 || temperature < 1] *)
Definition stops (move temperature : num) : bool :=
  lt move lit_0_5 || lt temperature (of_Z 1).

(** The temperature after [n] frames. *)
Definition temperature_after (n : nat) : num :=
  Nat.iter n cool initial_temperature.

End Engine.

(** ** The animation loop *)

(** The state of the component [GraphVisualizer], one field for each
    [useState]. *)
Module Sim.
Record t (num : Type) : Type := mk {
  vertices : list (Vertex num);
  edges : list Edge;
  running : bool;
  iteration : Z;
  temperature : num;
  maxMove : num
}.
Arguments mk {num} _ _ _ _ _ _.
Arguments vertices {num} _.
Arguments edges {num} _.
Arguments running {num} _.
Arguments iteration {num} _.
Arguments temperature {num} _.
Arguments maxMove {num} _.
End Sim.

Section Animation.
Context {num : Type} `{Number num}.

(** The initial values of the six [useState]. *)
Definition mount : Sim.t num :=
  Sim.mk [] [] true 0 (of_Z 100) zero.

(** [handleReset], which is also the body of the effect that initialises the
    graph: a new graph, iteration 0, temperature 100, running.  [maxMove] is
    not reset. *)
Definition handleReset (fuel : nat) (rng : random_source num)
    (s : Sim.t num) : outcome (Sim.t num) :=
  g ← generateRandomGraph fuel rng NUM_VERTICES NUM_EDGES;
  mret (Sim.mk (vertices g) (edges g) true 0 (of_Z 100) (Sim.maxMove s)).

(** The Pause/Resume button, [setRunning(r => !r)]. *)
Definition toggle (s : Sim.t num) : Sim.t num :=
  Sim.mk (Sim.vertices s) (Sim.edges s) (negb (Sim.running s))
         (Sim.iteration s) (Sim.temperature s) (Sim.maxMove s).

(** One animation frame, run in the closure of the render it was requested
    from: the effect requests no frame when [running] is false, the callback
    [step] returns at once on an empty vertex array, and otherwise it lays
    out a copy of the vertices and sets the five states.  The stopping test
    reads the temperature of the closure, that is, the one the layout step
    has just used. *)
Definition frame (s : Sim.t num) : outcome (Sim.t num) :=
  if negb (Sim.running s) then mret s
  else if bool_decide (length (Sim.vertices s) = O) then mret s
  else
    '(verts, move) ←
      fruchtermanReingoldStep (Sim.vertices s) (Sim.edges s) WIDTH HEIGHT
        ideal_length (Sim.temperature s);
    mret (Sim.mk verts (Sim.edges s)
            (if stops move (Sim.temperature s) then false else Sim.running s)
            (Sim.iteration s + 1) (cool (Sim.temperature s)) move).

(** [n] frames in a row. *)
Fixpoint frames (n : nat) (s : Sim.t num) : outcome (Sim.t num) :=
  match n with
  | O => mret s
  | S n' => s' ← frame s; frames n' s'
  end.

End Animation.

(** * Vocabulary of the properties *)

(** The key of a pair of integers determines the pair: the decimal notation of
    an integer has no comma, so the key splits at its first comma. *)
Fixpoint comma_free (s : string) : Prop :=
  match s with
  | EmptyString => True
  | String c s' => c <> ","%char /\ comma_free s'
  end.


(** ** Generated graphs *)

Section GeneratorVocabulary.
Context {num : Type} `{Number num}.

(** [Math.random()] returns a number in [[0, 1)], so that
    [Math.floor(Math.random() * n)] is one of [0 .. n-1] when [n > 0], is [0]
    when [n = 0] and is one of [n .. 0] when [n < 0].  A random source is
    assumed to behave so for the [numVertices] of the call. *)
Definition draw_lo (n : Z) : Z := Z.min 0 n.
Definition draw_hi (n : Z) : Z := Z.max 0 (n - 1).

Definition unit_draws (rng : random_source num) (n : Z) : Prop :=
  forall pos : nat, draw_lo n <= random_index rng n pos <= draw_hi n.

End GeneratorVocabulary.

Definition key_of (e : Edge) : string :=
  edge_key (Edge.source e) (Edge.target e).

Definition endpoints_within (lo hi : Z) (e : Edge) : Prop :=
  (lo <= Edge.source e <= hi) /\ (lo <= Edge.target e <= hi).

Definition no_self_loop (e : Edge) : Prop := Edge.source e <> Edge.target e.

(** Two edges denote the same unordered pair of ids. *)
Definition same_pair (e1 e2 : Edge) : Prop :=
  (Edge.source e1 = Edge.source e2 /\ Edge.target e1 = Edge.target e2) \/
  (Edge.source e1 = Edge.target e2 /\ Edge.target e1 = Edge.source e2).

(** No two entries of an edge list denote the same unordered pair. *)
Definition pairwise_distinct (edges : list Edge) : Prop :=
  forall (i j : nat) (e1 e2 : Edge),
    edges !! i = Some e1 -> edges !! j = Some e2 -> same_pair e1 e2 -> i = j.

(** What the edge loop maintains: the set holds exactly the keys of the edges
    pushed so far, these keys differ pairwise, and every edge joins two
    different ids of the range the draws come from. *)
Record sampling_invariant (lo hi : Z) (edgeSet : gset string)
    (edges : list Edge) : Prop := {
  inv_set : edgeSet = list_to_set (key_of <$> edges);
  inv_keys : NoDup (key_of <$> edges);
  inv_edges : Forall (fun e => endpoints_within lo hi e /\ no_self_loop e) edges
}.

(** The pair of ids of an edge, smaller id first. *)
Definition canonical (e : Edge) : Z * Z :=
  (Z.min (Edge.source e) (Edge.target e), Z.max (Edge.source e) (Edge.target e)).

(** All pairs [(i, j)] with [lo <= i < j < lo + m]. *)
Fixpoint pairs_below (lo : Z) (m : nat) : list (Z * Z) :=
  match m with
  | O => []
  | S m' =>
      pairs_below lo m' ++
      ((fun i => (i, lo + Z.of_nat m')) <$> seqZ lo (Z.of_nat m'))
  end.

(** The requests outside the precondition of the generator,
    [numVertices >= 0] and [0 <= numEdges <= numVertices (numVertices - 1) / 2]. *)
Definition infeasible (numVertices numEdges : Z) : Prop :=
  numVertices * (numVertices - 1) / 2 < numEdges
  \/ numVertices < 0 \/ numEdges < 0.

Definition signals_error {A : Type} (o : outcome A) : Prop :=
  exists e : js_error, o = Throw e.

(** Concrete random sources for evaluating the generator on doubles. *)
Definition constant_source (r : float) : random_source float := fun _ => r.

Definition cyclic_source : random_source float :=
  fun pos => nth (pos mod 4) [0.125; 0.5; 0.875; 0.375]%float 0.375%float.

(** ** Graphs given to the layout step *)

Section EngineVocabulary.
Context {num : Type} `{Number num}.

(** Two vertex objects that agree on [id], [x] and [y], whatever their [dx]
    and [dy]. *)
Definition same_persistent (v w : Vertex num) : Prop :=
  Vertex.id v = Vertex.id w /\ Vertex.x v = Vertex.x w
  /\ Vertex.y v = Vertex.y w.

(** [vertices[i].id = i] for every index [i] of the array. *)
Definition indexed (vertices : list (Vertex num)) : Prop :=
  forall (i : Z) (v : Vertex num),
    array_get vertices i = Some v -> Vertex.id v = i.

(** Every endpoint of every edge is an index of the vertex array. *)
Definition edges_in_range (vertices : list (Vertex num))
    (edges : list Edge) : Prop :=
  Forall (fun e => (0 <= Edge.source e < Z.of_nat (length vertices))
                   /\ (0 <= Edge.target e < Z.of_nat (length vertices)))
         edges.

Definition well_indexed (g : Graph num) : Prop :=
  indexed (vertices g) /\ edges_in_range (vertices g) (edges g).

(** What the repulsion phase computes for one vertex [v] of the array
    [vertices]: its accumulator is reset, then every vertex of the array
    repels it. *)
Definition repulse (k : num) (vertices : list (Vertex num))
    (v : Vertex num) : Vertex num :=
  fold_left (repel k) vertices (set_force v zero zero).

(** The magnitude of the force accumulated on a vertex. *)
Definition force_magnitude (v : Vertex num) : num :=
  norm (Vertex.dx v) (Vertex.dy v).

(** The displacement that the last loop applies to a vertex. *)
Definition applied (temperature : num) (v : Vertex num) : num * num :=
  capped temperature (Vertex.dx v) (Vertex.dy v) (force_magnitude v).

(** The vertex as the last loop leaves it. *)
Definition moved (width height temperature : num) (v : Vertex num)
    : Vertex num :=
  (displace width height temperature v zero).1.

End EngineVocabulary.

(** ** Concrete inputs on doubles *)

(** Two vertices at (0,0) and (100,0), as found at the start of a step: the
    accumulators hold what the previous step left there. *)
Definition two_vertices (dx0 dy0 dx1 dy1 : float) : list (Vertex float) :=
  [Vertex.mk 0 0 0 dx0 dy0; Vertex.mk 1 100 0 dx1 dy1]%float.

(** ** The two-vertex scenario, in exact arithmetic *)

(** Two vertices at (0,0) and (100,0) joined by one edge; [k = 50] and
    [temperature = 100]. *)
Definition scenario : list (Vertex R) :=
  [Vertex.mk 0 0 0 0 0; Vertex.mk 1 100 0 0 0]%R.

Definition scenario_edges : list Edge := [Edge.mk 0 1].

(** The force accumulated on the first vertex of the scenario: attraction
    [2 * 100.01] less repulsion [50^2 * 100 / 100.01^2], about 175.025. *)
Definition scenario_force : R :=
  (2 * (10001 / 100) - 250000 / (10001 / 100 * (10001 / 100)))%R.

Section Distance.
Context {num : Type} `{Number num}.


End Distance.

(** The position of a vertex lies on the canvas [[0, width] x [0, height]]. *)
Definition on_canvas (width height : R) (v : Vertex R) : Prop :=
  (0 <= Vertex.x v <= width)%R /\ (0 <= Vertex.y v <= height)%R.

(** ** Concrete inputs in exact arithmetic *)

Definition triangle : list (Vertex R) :=
  [Vertex.mk 0 0 0 0 0; Vertex.mk 1 1 0 0 0; Vertex.mk 2 0 1 0 0]%R.

(** ** Order on doubles *)

(** A double other than NaN. *)
Definition number (a : float) : Prop := is_nan a = false.

(** [a <= b] on doubles; it holds of no NaN. *)
Definition float_le (a b : float) : Prop := PrimFloat.leb a b = true.

(** On doubles a coordinate lies within its bounds or is NaN. *)
Definition on_canvas_or_nan (width height : float) (v : Vertex float) : Prop :=
  (is_nan (Vertex.x v) = true
   \/ (float_le 0 (Vertex.x v) /\ float_le (Vertex.x v) width))
  /\ (is_nan (Vertex.y v) = true
      \/ (float_le 0 (Vertex.y v) /\ float_le (Vertex.y v) height)).

(** ** Vocabulary of the further properties *)

Section FurtherVocabulary.
Context {num : Type} `{Number num}.

(** The vertex that the [j]-th pass of the vertex loop pushes: the draws
    [2 j] and [2 j + 1] of the run give its position. *)
Definition placed (rng : random_source num) (j : nat) : Vertex num :=
  Vertex.mk (Z.of_nat j) (mul (rng (2 * j)%nat) (of_Z 800))
            (mul (rng (S (2 * j))) (of_Z 600)) zero zero.

(** Two vertex objects with the same [id], [dx] and [dy]. *)
Definition same_forces (v w : Vertex num) : Prop :=
  Vertex.id v = Vertex.id w /\ Vertex.dx v = Vertex.dx w
  /\ Vertex.dy v = Vertex.dy w.

(** The states of the animation that a reset leads to and that the frames
    keep: the graph is well indexed and has a vertex. *)
Definition drawable (s : Sim.t num) : Prop :=
  well_indexed (mkGraph (Sim.vertices s) (Sim.edges s))
  /\ Sim.vertices s <> [].

End FurtherVocabulary.

(** The sum of [f] over a list, in exact arithmetic. *)
Definition sum_over {A : Type} (f : A -> R) (l : list A) : R :=
  foldr (fun a s => (f a + s)%R) 0%R l.

(** The sum of the [dx], and of the [dy], of an array. *)
Definition total_dx (vs : list (Vertex R)) : R := sum_over Vertex.dx vs.
Definition total_dy (vs : list (Vertex R)) : R := sum_over Vertex.dy vs.

(** What one pass of the inner repulsion loop adds to the accumulator of [v]:
    nothing for a [u] of the same id. *)
Definition repulsive_force (k : R) (v u : Vertex R) : R * R :=
  if bool_decide (Vertex.id u <> Vertex.id v) then
    let dx := (Vertex.x v - Vertex.x u)%R in
    let dy := (Vertex.y v - Vertex.y u)%R in
    let dist := (norm dx dy + 1 / 100)%R in
    let force := (k * k / dist)%R in
    ((dx / dist * force)%R, (dy / dist * force)%R)
  else (0%R, 0%R).

(** A random source in exact arithmetic with every draw one half. *)
Definition half_source : random_source R := fun _ => (1 / 2)%R.

(** A random source on doubles that runs through the multiples of 1/1024. *)
Definition stepping_source : random_source float :=
  fun pos => PrimFloat.div (Float64.of_Z ((Z.of_nat pos * 421 + 7) mod 1024))
                           1024%float.

(** The index drawn among 30 vertices from the multiple [v / 1024]. *)
Definition stepping_index (v : Z) : Z :=
  Math_floor (mul (PrimFloat.div (Float64.of_Z v) 1024%float) (of_Z 30)).

(** A state of the component on doubles: two vertices joined by an edge. *)
Definition two_vertex_state (running : bool) (iteration : Z)
    (temperature : float) : Sim.t float :=
  Sim.mk (two_vertices 0 0 0 0) scenario_edges running iteration
         temperature 0%float.

(** The same state in exact arithmetic. *)
Definition scenario_state (running : bool) (iteration : Z) (temperature : R)
    : Sim.t R :=
  Sim.mk scenario scenario_edges running iteration temperature 0%R.

(** The vertex lies at the point [(x0, y0)]. *)
Definition at_point {num : Type} (x0 y0 : num) (v : Vertex num) : Prop :=
  Vertex.x v = x0 /\ Vertex.y v = y0.

(** Two vertices on the point (10, 20), with what a previous step left in
    their accumulators. *)
Definition stacked : list (Vertex R) :=
  [Vertex.mk 0 10 20 3 4; Vertex.mk 1 10 20 (-1) 2]%R.

(** ** Doubles: their order, the clamp and exact values *)

(** The place of a double in the order of [<]: the sign class, then the
    exponent and the mantissa (both reversed below zero).  The two zeros
    share a key. *)
Definition float_key (f : spec_float) : Z * Z * Z :=
  match f with
  | S754_infinity true => (-2, 0, 0)
  | S754_finite true m e => (-1, - e, Z.neg m)
  | S754_zero _ | S754_nan => (0, 0, 0)
  | S754_finite false m e => (1, e, Z.pos m)
  | S754_infinity false => (2, 0, 0)
  end.

Definition lex_compare (p q : Z * Z * Z) : comparison :=
  match p.1.1 ?= q.1.1 with
  | Eq => match p.1.2 ?= q.1.2 with
          | Eq => p.2 ?= q.2
          | c => c
          end
  | c => c
  end.

(** [r] is the coordinate [a] clamped to [[0, hi]]: kept when inside, put on
    the bound it has passed (not reflected, not wrapped), and NaN when [a] is
    NaN. *)
Definition clamped (hi a r : float) : Prop :=
  (is_nan a = true -> is_nan r = true)
  /\ (PrimFloat.leb a 0 = true -> r = 0%float)
  /\ (PrimFloat.ltb 0 a = true -> PrimFloat.ltb a hi = true -> r = a)
  /\ (PrimFloat.leb hi a = true -> r = hi).

(** The exact value of a finite double, as the integer [f * 2^1074]. *)
Definition scaled (f : float) : option Z :=
  match Prim2SF f with
  | S754_zero _ => Some 0
  | S754_finite s m e =>
      Some ((if s then Z.neg m else Z.pos m) * 2 ^ (e + 1074))
  | _ => None
  end.

(** [d1^2 + d2^2 - t^2], exactly, in units of [2^-2148]. *)
Definition square_excess (d1 d2 t : float) : option Z :=
  a ← scaled d1; b ← scaled d2; c ← scaled t;
  Some (a * a + b * b - c * c).

(** [P i t] holds of the temperature [t] after [i] coolings, for [count]
    coolings in a row from index [n]. *)
Fixpoint all_along (P : nat -> float -> bool) (count n : nat) (t : float)
    : bool :=
  match count with
  | O => true
  | S count' => P n t && all_along P count' (S n) (cool t)
  end.

(** On doubles the cooling from 100 comes to a halt after this many
    applications. *)
Definition stall : nat := Z.to_nat 14556.

(** What the temperature after [i] coolings satisfies on doubles. *)
Definition cooling_check (i : nat) (t : float) : bool :=
  PrimFloat.ltb 0 t
  && (if (i <? 90)%nat then PrimFloat.leb 1 t else PrimFloat.ltb t 1)
  && (if (i <? stall)%nat then PrimFloat.ltb (cool t) t else true).

(** Concrete inputs on doubles: two vertices at (0,0) and (1,2), and a single
    vertex. *)
Definition slanted : list (Vertex float) :=
  [Vertex.mk 0 0 0 0 0; Vertex.mk 1 1 2 0 0]%float.

Definition lone : list (Vertex float) := [Vertex.mk 0 100 100 0 0]%float.

(** * Properties *)

(** ** Completions *)

Lemma bind_Normal {A B : Type} (m : outcome A) (f : A -> outcome B) (b : B) :
  m ≫= f = Normal b -> exists a, m = Normal a /\ f a = Normal b.
Proof. destruct m as [a| |]; simpl; intros Hm; try discriminate; eauto. Qed.

Lemma bind_Throw {A B : Type} (m : outcome A) (f : A -> outcome B)
    (e : js_error) :
  m ≫= f = Throw e ->
  m = Throw e \/ exists a, m = Normal a /\ f a = Throw e.
Proof.
  destruct m as [a|e'|]; intros Hm.
  - right. by exists a.
  - left. by injection Hm as ->.
  - discriminate Hm.
Qed.

(** ** Keys of the edge set *)

Lemma comma_free_app (s t : string) :
  comma_free s -> comma_free t -> comma_free (s +:+ t).
Proof. induction s as [|c s IH]; simpl; [done|]. intros [? ?] ?; auto. Qed.

Lemma split_at_comma (s1 s2 t1 t2 : string) :
  comma_free s1 -> comma_free s2 ->
  s1 +:+ "," +:+ t1 = s2 +:+ "," +:+ t2 -> s1 = s2 /\ t1 = t2.
Proof.
  revert s2. induction s1 as [|c s1 IH]; intros [|d s2] H1 H2 Heq;
    simpl in *; simplify_eq; try tauto.
  destruct (IH s2) as [-> ->]; tauto.
Qed.

Lemma pretty_N_char_no_comma (x : N) : pretty_N_char x <> ","%char.
Proof. unfold pretty_N_char. repeat case_match; discriminate. Qed.

Lemma pretty_N_go_comma_free (x : N) (s : string) :
  comma_free s -> comma_free (pretty_N_go x s).
Proof.
  revert s. induction (N.lt_wf_0 x) as [x _ IH]; intros s Hs.
  destruct (decide (x = 0%N)) as [->|Hx].
  - by rewrite pretty_N_go_0.
  - rewrite pretty_N_go_step by lia.
    apply IH; [apply N.div_lt; lia|].
    split; [apply pretty_N_char_no_comma | done].
Qed.

Lemma pretty_N_comma_free (x : N) : comma_free (pretty x).
Proof.
  unfold pretty, pretty_N. case_decide; [by compute|].
  by apply pretty_N_go_comma_free.
Qed.

Lemma pretty_Z_comma_free (z : Z) : comma_free (pretty z).
Proof.
  destruct z as [|p|p]; unfold pretty, pretty_Z.
  - by compute.
  - apply pretty_N_comma_free.
  - apply (comma_free_app "-"); [by compute | apply pretty_N_comma_free].
Qed.

Lemma pair_key_inj (a b c d : Z) :
  pair_key a b = pair_key c d -> a = c /\ b = d.
Proof.
  unfold pair_key. intros Heq.
  apply split_at_comma in Heq as [Ha Hb]; auto using pretty_Z_comma_free.
  split; by apply (inj pretty).
Qed.

(** Equal keys denote the same unordered pair, and conversely. *)
Lemma edge_key_inj (a b c d : Z) :
  edge_key a b = edge_key c d -> (a = c /\ b = d) \/ (a = d /\ b = c).
Proof.
  unfold edge_key. repeat case_bool_decide; intros Heq;
    apply pair_key_inj in Heq; lia.
Qed.

Lemma edge_key_sym (a b : Z) : edge_key a b = edge_key b a.
Proof.
  unfold edge_key. repeat case_bool_decide; try done; try lia.
  by replace b with a by lia.
Qed.

(** ** The generator *)

Lemma key_of_same_pair (e1 e2 : Edge) :
  key_of e1 = key_of e2 <-> same_pair e1 e2.
Proof.
  unfold key_of, same_pair. split.
  - apply edge_key_inj.
  - intros [[-> ->]|[-> ->]]; [done | apply edge_key_sym].
Qed.

Lemma distinct_keys_pairwise_distinct (edges : list Edge) :
  NoDup (key_of <$> edges) -> pairwise_distinct edges.
Proof.
  intros Hnd i j e1 e2 H1 H2 Hsame.
  apply key_of_same_pair in Hsame.
  eapply NoDup_lookup; [exact Hnd | |].
  - rewrite list_lookup_fmap, H1. reflexivity.
  - rewrite list_lookup_fmap, H2. simpl. by rewrite Hsame.
Qed.

Lemma key_of_canonical (e1 e2 : Edge) :
  canonical e1 = canonical e2 -> key_of e1 = key_of e2.
Proof.
  intros Hc. apply key_of_same_pair. unfold canonical, same_pair in *.
  injection Hc as Hmin Hmax. lia.
Qed.

Lemma length_pairs_below (lo : Z) (m : nat) :
  2 * Z.of_nat (length (pairs_below lo m)) = Z.of_nat m * (Z.of_nat m - 1).
Proof.
  induction m as [|m IH]; [done|].
  simpl pairs_below. rewrite length_app, length_fmap, length_seqZ. nia.
Qed.

Lemma elem_of_pairs_below (lo : Z) (m : nat) (i j : Z) :
  lo <= i -> i < j -> j < lo + Z.of_nat m -> (i, j) ∈ pairs_below lo m.
Proof.
  induction m as [|m IH]; intros Hlo Hij Hj; [lia|].
  simpl. apply elem_of_app.
  destruct (decide (j = lo + Z.of_nat m)) as [->|Hne].
  - right. apply list_elem_of_fmap. exists i. split; [done|].
    apply elem_of_seqZ. lia.
  - left. apply IH; lia.
Qed.

(** At most [m (m - 1) / 2] edges with pairwise different keys join ids taken
    from [m] consecutive integers. *)
Lemma sampling_invariant_bound (lo hi : Z) (edgeSet : gset string)
    (edges : list Edge) :
  sampling_invariant lo hi edgeSet edges ->
  2 * Z.of_nat (length edges) <= (hi - lo + 1) * (hi - lo).
Proof.
  intros [_ Hkeys Hedges].
  destruct (decide (hi < lo)) as [Hlt|Hge].
  { destruct edges as [|e ?]; [simpl; nia|].
    apply Forall_cons in Hedges as [[[? ?] _] _]. lia. }
  set (m := Z.to_nat (hi - lo + 1)).
  assert (length (canonical <$> edges) ≤ length (pairs_below lo m))%nat as Hle.
  { apply submseteq_length, NoDup_submseteq.
    - apply (NoDup_fmap_2_strong canonical); [|by apply NoDup_fmap_1 in Hkeys].
      intros e1 e2 H1 H2 Hc. apply key_of_canonical in Hc.
      apply list_elem_of_lookup in H1 as [i Hi], H2 as [j Hj].
      assert (i = j) as ->.
      { eapply NoDup_lookup; [exact Hkeys | |].
        - by rewrite list_lookup_fmap, Hi.
        - rewrite list_lookup_fmap, Hj. simpl. by rewrite Hc. }
      congruence.
    - intros [i j] Hin. apply list_elem_of_fmap in Hin as (e & Heq & Hin).
      rewrite Forall_forall in Hedges.
      destruct (Hedges e Hin) as [[? ?] Hloop].
      unfold canonical, no_self_loop in *. injection Heq as -> ->.
      apply elem_of_pairs_below; lia. }
  rewrite length_fmap in Hle.
  pose proof (length_pairs_below lo m) as Hlen.
  replace (Z.of_nat m) with (hi - lo + 1) in Hlen by lia.
  nia.
Qed.

Section GeneratorProperties.
Context {num : Type} `{Number num}.

Lemma push_vertices_ids (rng : random_source num) (todo : nat) (i : Z)
    (pos : nat) (acc : list (Vertex num)) :
  Vertex.id <$> (push_vertices rng todo i pos acc).1
  = (Vertex.id <$> acc) ++ seqZ i (Z.of_nat todo).
Proof.
  revert i pos acc. induction todo as [|todo IH]; intros i pos acc.
  - simpl. by rewrite app_nil_r.
  - cbn [push_vertices]. rewrite IH, fmap_app, <- app_assoc. f_equal.
    rewrite (seqZ_cons i) by lia. simpl. do 2 f_equal; lia.
Qed.

Lemma push_vertices_zero_forces (rng : random_source num) (todo : nat)
    (i : Z) (pos : nat) (acc : list (Vertex num)) :
  Forall (fun v => Vertex.dx v = zero /\ Vertex.dy v = zero) acc ->
  Forall (fun v => Vertex.dx v = zero /\ Vertex.dy v = zero)
         (push_vertices rng todo i pos acc).1.
Proof.
  revert i pos acc. induction todo as [|todo IH]; intros i pos acc Hacc.
  - done.
  - cbn [push_vertices]. apply IH, Forall_app. split; [done|].
    by apply Forall_singleton.
Qed.

(** The inner loop ends with a [b] other than [a], which is the first [b] or a
    later draw. *)
Lemma resample_Normal (fuel : nat) (rng : random_source num) (n a b : Z)
    (pos : nat) (b' : Z) (pos' : nat) :
  resample fuel rng n a b pos = Normal (b', pos') ->
  b' <> a /\ (b' = b \/ exists i, b' = random_index rng n i).
Proof.
  revert b pos. induction fuel as [|fuel IH]; intros b pos; simpl;
    case_bool_decide; intros Hrun; try discriminate.
  - injection Hrun as <- <-. auto.
  - apply IH in Hrun as [? [->|?]]; eauto.
  - injection Hrun as <- <-. auto.
Qed.

Lemma resample_no_Throw (fuel : nat) (rng : random_source num) (n a b : Z)
    (pos : nat) (e : js_error) :
  resample fuel rng n a b pos <> Throw e.
Proof.
  revert b pos. induction fuel as [|fuel IH]; intros b pos; simpl;
    case_bool_decide; try discriminate. apply IH.
Qed.

Lemma sample_edges_no_Throw (fuel : nat) (rng : random_source num)
    (n numEdges : Z) (edgeSet : gset string) (edges : list Edge) (pos : nat)
    (e : js_error) :
  sample_edges fuel rng n numEdges edgeSet edges pos <> Throw e.
Proof.
  revert edgeSet edges pos.
  induction fuel as [|fuel IH]; intros edgeSet edges pos; simpl;
    case_bool_decide; try discriminate.
  destruct (resample _ _ _ _ _ _) as [[b pos']|e'|] eqn:Hb; try discriminate.
  - case_bool_decide; apply IH.
  - by apply resample_no_Throw in Hb.
Qed.

(** More fuel does not change a run that has returned. *)
Lemma resample_fuel (fuel fuel' : nat) (rng : random_source num) (n a b : Z)
    (pos : nat) (r : Z * nat) :
  (fuel <= fuel')%nat ->
  resample fuel rng n a b pos = Normal r ->
  resample fuel' rng n a b pos = Normal r.
Proof.
  revert fuel' b pos.
  induction fuel as [|fuel IH]; intros [|fuel'] b pos Hle; simpl;
    case_bool_decide; try done; try lia.
  apply IH. lia.
Qed.

Lemma sample_edges_fuel (fuel fuel' : nat) (rng : random_source num)
    (n numEdges : Z) (edgeSet : gset string) (edges : list Edge) (pos : nat)
    (result : list Edge) :
  (fuel <= fuel')%nat ->
  sample_edges fuel rng n numEdges edgeSet edges pos = Normal result ->
  sample_edges fuel' rng n numEdges edgeSet edges pos = Normal result.
Proof.
  revert fuel' edgeSet edges pos.
  induction fuel as [|fuel IH]; intros [|fuel'] edgeSet edges pos Hle; simpl;
    case_bool_decide; try done; try lia.
  destruct (resample fuel _ _ _ _ _) as [[b pos']|e'|] eqn:Hb; try done.
  rewrite (resample_fuel fuel fuel' _ _ _ _ _ _ ltac:(lia) Hb).
  case_bool_decide; apply IH; lia.
Qed.

Lemma sampling_invariant_start (lo hi : Z) : sampling_invariant lo hi ∅ [].
Proof. split; [done | constructor | constructor]. Qed.

Lemma sampling_invariant_push (lo hi : Z) (edgeSet : gset string)
    (edges : list Edge) (a b : Z) :
  sampling_invariant lo hi edgeSet edges ->
  lo <= a <= hi -> lo <= b <= hi -> b <> a ->
  edge_key a b ∉ edgeSet ->
  sampling_invariant lo hi ({[edge_key a b]} ∪ edgeSet)
                     (edges ++ [Edge.mk a b]).
Proof.
  intros [Hset Hkeys Hedges] Ha Hb Hne Hfresh. split.
  - rewrite fmap_app, list_to_set_app_L, <- Hset. simpl.
    rewrite union_empty_r_L. apply (comm_L _).
  - rewrite fmap_app. apply NoDup_app. split; [done|]. split.
    + intros key Hin Hnew. apply Hfresh.
      apply list_elem_of_fmap in Hnew as (e & -> & ->%list_elem_of_singleton).
      rewrite Hset. by apply elem_of_list_to_set.
    + apply NoDup_singleton.
  - apply Forall_app. split; [done|]. apply Forall_singleton.
    unfold endpoints_within, no_self_loop. simpl. auto.
Qed.

(** The edge loop keeps its invariant and leaves with [numEdges] edges (or
    with the edges it started from, if these were enough). *)
Lemma sample_edges_Normal (fuel : nat) (rng : random_source num)
    (n numEdges : Z) (edgeSet : gset string) (edges : list Edge) (pos : nat)
    (result : list Edge) :
  unit_draws rng n ->
  sampling_invariant (draw_lo n) (draw_hi n) edgeSet edges ->
  sample_edges fuel rng n numEdges edgeSet edges pos = Normal result ->
  (exists edgeSet', sampling_invariant (draw_lo n) (draw_hi n) edgeSet' result)
  /\ Z.of_nat (length result) = Z.max (Z.of_nat (length edges)) numEdges.
Proof.
  intros Hdraws. revert edgeSet edges pos.
  induction fuel as [|fuel IH]; intros edgeSet edges pos Hinv; simpl;
    case_bool_decide as Hlen; intros Hrun; try discriminate.
  - injection Hrun as <-. split; [eauto | lia].
  - destruct (resample _ _ _ _ _ _) as [[b pos']|e'|] eqn:Hb;
      try discriminate.
    apply resample_Normal in Hb as [Hne Hb].
    assert (draw_lo n <= b <= draw_hi n) as Hrange.
    { destruct Hb as [->|[i ->]]; apply Hdraws. }
    case_bool_decide as Hkey.
    + by apply IH in Hrun.
    + apply IH in Hrun as [Hinv' Hcount].
      * split; [done|]. rewrite length_app in Hcount. simpl in Hcount. lia.
      * apply sampling_invariant_push; auto.
  - injection Hrun as <-. split; [eauto | lia].
Qed.

(** With no edge asked for, the edge loop is not entered. *)
Lemma sample_edges_none (fuel : nat) (rng : random_source num)
    (n numEdges : Z) (pos : nat) :
  numEdges <= 0 -> sample_edges fuel rng n numEdges ∅ [] pos = Normal [].
Proof.
  intros Hle. destruct fuel; simpl; case_bool_decide; simpl in *; done || lia.
Qed.

Lemma generateRandomGraph_unfold (fuel : nat) (rng : random_source num)
    (n numEdges : Z) :
  generateRandomGraph fuel rng n numEdges =
  (edges ←
     sample_edges fuel rng n numEdges ∅ []
       (push_vertices rng (Z.to_nat n) 0 0 []).2;
   mret (mkGraph (push_vertices rng (Z.to_nat n) 0 0 []).1 edges)).
Proof.
  unfold generateRandomGraph. by destruct (push_vertices _ _ _ _ _).
Qed.

Lemma generateRandomGraph_fuel (fuel fuel' : nat) (rng : random_source num)
    (n numEdges : Z) (g : Graph num) :
  (fuel <= fuel')%nat ->
  generateRandomGraph fuel rng n numEdges = Normal g ->
  generateRandomGraph fuel' rng n numEdges = Normal g.
Proof.
  intros Hle. rewrite !generateRandomGraph_unfold.
  intros (edges & Hedges & Hg)%bind_Normal.
  by rewrite (sample_edges_fuel fuel fuel' _ _ _ _ _ _ _ Hle Hedges).
Qed.

Lemma generated_ids (fuel : nat) (rng : random_source num) (n numEdges : Z)
    (g : Graph num) :
  generateRandomGraph fuel rng n numEdges = Normal g ->
  Vertex.id <$> vertices g = seqZ 0 n.
Proof.
  rewrite generateRandomGraph_unfold.
  intros (edges & _ & Hg)%bind_Normal. injection Hg as <-. simpl.
  rewrite push_vertices_ids. simpl.
  destruct (decide (0 <= n)).
  - by rewrite Z2Nat.id.
  - rewrite !seqZ_nil; [done | lia | lia].
Qed.

Lemma generated_edges (fuel : nat) (rng : random_source num)
    (n numEdges : Z) (g : Graph num) :
  unit_draws rng n ->
  generateRandomGraph fuel rng n numEdges = Normal g ->
  (exists edgeSet,
     sampling_invariant (draw_lo n) (draw_hi n) edgeSet (edges g))
  /\ Z.of_nat (length (edges g)) = Z.max 0 numEdges.
Proof.
  intros Hdraws. rewrite generateRandomGraph_unfold.
  intros (edges & Hedges & Hg)%bind_Normal. injection Hg as <-. simpl.
  eapply sample_edges_Normal in Hedges;
    [exact Hedges | done | apply sampling_invariant_start].
Qed.

End GeneratorProperties.

(** In exact arithmetic every source of numbers of [[0, 1)] draws indices as
    [unit_draws] says. *)
Lemma real_unit_draws (rng : random_source R) (n : Z) :
  (forall pos, (0 <= rng pos < 1)%R) -> unit_draws rng n.
Proof.
  intros Hunit pos. unfold random_index, draw_lo, draw_hi. simpl.
  specialize (Hunit pos).
  set (r := (rng pos * IZR n)%R).
  destruct (base_Int_part r) as [Hle Hgt].
  assert (IZR (Z.min 0 n) <= r /\ r < IZR (Z.max 0 (n - 1)) + 1)%R
    as [Hlo Hhi].
  { destruct (Z.lt_trichotomy n 0) as [Hn|[->|Hn]].
    - rewrite Z.min_r, Z.max_l by lia.
      assert (IZR n < 0)%R by (apply (IZR_lt n 0); lia).
      subst r. split; nra.
    - subst r. change (Z.min 0 0) with 0. change (Z.max 0 (0 - 1)) with 0.
      rewrite Rmult_0_r. split; lra.
    - rewrite Z.min_l, Z.max_r by lia.
      assert (0 < IZR n)%R by (apply (IZR_lt 0 n); lia).
      rewrite minus_IZR. subst r. split; nra. }
  split.
  - apply Z.lt_succ_r, lt_IZR. rewrite succ_IZR. lra.
  - apply Z.lt_succ_r, lt_IZR. rewrite succ_IZR. lra.
Qed.

Lemma cyclic_source_unit_draws : unit_draws cyclic_source 3.
Proof.
  intros pos. unfold random_index, cyclic_source.
  pose proof (Nat.mod_upper_bound pos 4 ltac:(done)) as Hlt.
  destruct (pos mod 4)%nat as [|[|[|[|?]]]]; try lia;
    vm_compute; split; discriminate.
Qed.

(** C3.  Every graph that [generateRandomGraph] returns for [numVertices >= 0]
    has the vertex ids [0 .. numVertices-1] in this order, joins by every edge
    two different ids of [[0, numVertices)], and has no two edges that denote
    the same unordered pair of ids. *)
Theorem generated_graph_is_simple {num : Type} `{Number num} (fuel : nat)
    (rng : random_source num) (numVertices numEdges : Z) (g : Graph num) :
  0 <= numVertices ->
  unit_draws rng numVertices ->
  generateRandomGraph fuel rng numVertices numEdges = Normal g ->
  Vertex.id <$> vertices g = seqZ 0 numVertices
  /\ Forall (fun e => (0 <= Edge.source e < numVertices)
                      /\ (0 <= Edge.target e < numVertices)
                      /\ Edge.source e <> Edge.target e) (edges g)
  /\ pairwise_distinct (edges g).
Proof.
  intros Hn Hdraws Hrun. split; [by eapply generated_ids|].
  destruct (generated_edges _ _ _ _ _ Hdraws Hrun)
    as [[edgeSet [_ Hkeys Hedges]] _].
  split; [|by apply distinct_keys_pairwise_distinct].
  eapply Forall_impl; [exact Hedges|]. intros e [[Hs Ht] Hloop].
  unfold draw_lo, draw_hi, no_self_loop in *. lia.
Qed.

Lemma generated_graph_is_simple_witness :
  exists g : Graph float,
    generateRandomGraph 20 cyclic_source 3 2 = Normal g
    /\ edges g = [Edge.mk 2 1; Edge.mk 0 1]
    /\ Vertex.id <$> vertices g = seqZ 0 3
    /\ Forall (fun e => (0 <= Edge.source e < 3)
                        /\ (0 <= Edge.target e < 3)
                        /\ Edge.source e <> Edge.target e) (edges g)
    /\ pairwise_distinct (edges g).
Proof.
  eexists. split; [vm_compute; reflexivity|]. split; [reflexivity|].
  apply (generated_graph_is_simple 20 cyclic_source 3 2).
  - lia.
  - apply cyclic_source_unit_draws.
  - vm_compute. reflexivity.
Defined.

(** The generator returns exactly [numEdges] edges (none for a negative
    [numEdges]): a graph it returns is never a partial one. *)
Lemma generated_edge_count {num : Type} `{Number num} (fuel : nat)
    (rng : random_source num) (numVertices numEdges : Z) (g : Graph num) :
  unit_draws rng numVertices ->
  generateRandomGraph fuel rng numVertices numEdges = Normal g ->
  Z.of_nat (length (edges g)) = Z.max 0 numEdges.
Proof. intros Hdraws Hrun. by eapply generated_edges. Qed.

(** More edges than there are pairs of ids: the edge loop does not end. *)
Lemma infeasible_never_returns {num : Type} `{Number num} (fuel : nat)
    (rng : random_source num) (numVertices numEdges : Z) :
  unit_draws rng numVertices ->
  numVertices * (numVertices - 1) / 2 < numEdges ->
  generateRandomGraph fuel rng numVertices numEdges = Unfinished.
Proof.
  intros Hdraws Hmany.
  destruct (generateRandomGraph _ _ _ _) as [g|e|] eqn:Hrun; [| |done].
  - exfalso.
    destruct (generated_edges _ _ _ _ _ Hdraws Hrun) as [[edgeSet Hinv] Hlen].
    apply sampling_invariant_bound in Hinv.
    assert (2 * (numVertices * (numVertices - 1) / 2)
            = numVertices * (numVertices - 1)) as Heven.
    { assert (numVertices * (numVertices - 1) mod 2 = 0) as Hmod.
      { rewrite Z.mul_mod by lia.
        pose proof (Z.mod_pos_bound numVertices 2 ltac:(lia)).
        assert (numVertices mod 2 = 0 \/ numVertices mod 2 = 1)
          as [Heven|Hodd] by lia.
        - by rewrite Heven.
        - replace ((numVertices - 1) mod 2) with 0; [by rewrite Z.mul_0_r|].
          rewrite Zminus_mod, Hodd. done. }
      pose proof (Z.div_mod (numVertices * (numVertices - 1)) 2 ltac:(lia)).
      lia. }
    unfold draw_lo, draw_hi in Hinv. nia.
  - exfalso. revert Hrun. rewrite generateRandomGraph_unfold.
    intros [Hrun|(edges & _ & Hrun)]%bind_Throw; [|done].
    by apply sample_edges_no_Throw in Hrun.
Qed.

(** C1, as stated, fails: asked for [-1] edges among three vertices the
    generator signals nothing and returns the three vertices without edges. *)
Lemma negative_edge_count_accepted :
  infeasible 3 (-1)
  /\ ~ signals_error (generateRandomGraph 0 (constant_source 0.5) 3 (-1))
  /\ generateRandomGraph 0 (constant_source 0.5) 3 (-1)
     = Normal (mkGraph [Vertex.mk 0 400 300 0 0; Vertex.mk 1 400 300 0 0;
                        Vertex.mk 2 400 300 0 0]%float []).
Proof.
  split; [right; right; lia|].
  assert (generateRandomGraph 0 (constant_source 0.5) 3 (-1)
          = Normal (mkGraph [Vertex.mk 0 400 300 0 0; Vertex.mk 1 400 300 0 0;
                             Vertex.mk 2 400 300 0 0]%float [])) as Hrun
    by (vm_compute; reflexivity).
  split; [|exact Hrun].
  intros [e He]. rewrite Hrun in He. discriminate He.
Qed.

(** C1, amended.  [generateRandomGraph] checks nothing and never signals an
    error.  Asked for no edge or for a negative number of edges it returns the
    vertices [0 .. numVertices-1] and no edge, without entering the edge loop.
    Asked for more than [numVertices (numVertices - 1) / 2] edges it enters
    the edge loop and does not return, so that no graph, partial or not, is
    produced. *)
Theorem generate_checks_nothing {num : Type} `{Number num} (fuel : nat)
    (rng : random_source num) (numVertices numEdges : Z) :
  ~ signals_error (generateRandomGraph fuel rng numVertices numEdges)
  /\ (numEdges <= 0 ->
      exists g, generateRandomGraph fuel rng numVertices numEdges = Normal g
                /\ Vertex.id <$> vertices g = seqZ 0 numVertices
                /\ edges g = [])
  /\ (unit_draws rng numVertices ->
      numVertices * (numVertices - 1) / 2 < numEdges ->
      generateRandomGraph fuel rng numVertices numEdges = Unfinished).
Proof.
  split; [|split].
  - intros [e Hrun]. revert Hrun. rewrite generateRandomGraph_unfold.
    intros [Hrun|(edges & _ & Hrun)]%bind_Throw; [|done].
    by apply sample_edges_no_Throw in Hrun.
  - intros Hle.
    assert (generateRandomGraph fuel rng numVertices numEdges
            = Normal (mkGraph
                (push_vertices rng (Z.to_nat numVertices) 0 0 []).1 []))
      as Hrun.
    { rewrite generateRandomGraph_unfold.
      by rewrite sample_edges_none. }
    eexists. split; [exact Hrun|]. split; [|done].
    by eapply generated_ids.
  - apply infeasible_never_returns.
Qed.

Lemma generate_checks_nothing_witness :
  (exists g : Graph float,
     generateRandomGraph 5 cyclic_source 3 (-1) = Normal g
     /\ Vertex.id <$> vertices g = seqZ 0 3 /\ edges g = [])
  /\ generateRandomGraph 40 cyclic_source 3 4 = Unfinished.
Proof.
  split.
  - apply (generate_checks_nothing 5 cyclic_source 3 (-1)). lia.
  - apply (generate_checks_nothing 40 cyclic_source 3 4).
    + apply cyclic_source_unit_draws.
    + vm_compute. reflexivity.
Defined.

(** ** Arrays *)

Lemma array_get_Some {A : Type} (a : list A) (i : Z) (v : A) :
  array_get a i = Some v <-> 0 <= i /\ a !! Z.to_nat i = Some v.
Proof. unfold array_get. case_bool_decide; intuition (done || lia). Qed.

Lemma array_get_in_range {A : Type} (a : list A) (i : Z) :
  0 <= i < Z.of_nat (length a) -> exists v, array_get a i = Some v.
Proof.
  intros Hi. destruct (lookup_lt_is_Some_2 a (Z.to_nat i)) as [v Hv]; [lia|].
  exists v. apply array_get_Some. split; [lia | done].
Qed.

Lemma array_get_lt {A : Type} (a : list A) (i : Z) (v : A) :
  array_get a i = Some v -> 0 <= i < Z.of_nat (length a).
Proof.
  intros [Hi Hv]%array_get_Some. apply lookup_lt_Some in Hv. lia.
Qed.

Lemma length_array_update {A : Type} (f : A -> A) (a : list A) (i : Z) :
  length (array_update f a i) = length a.
Proof. apply length_alter. Qed.

Lemma array_get_update {A : Type} (f : A -> A) (a : list A) (i j : Z) :
  0 <= i ->
  array_get (array_update f a i) j
  = if decide (i = j) then f <$> array_get a j else array_get a j.
Proof.
  intros Hi. unfold array_get, array_update.
  case_bool_decide as Hj; [|by case_decide].
  case_decide as Hij.
  - subst j. apply list_lookup_alter_eq.
  - apply list_lookup_alter_ne. lia.
Qed.

(** ** The layout step, for every arithmetic *)

Section StepStructure.
Context {num : Type} `{Number num}.

(** *** The repulsion phase overwrites the accumulators *)

Lemma repel_same_persistent (k : num) (v u u' : Vertex num) :
  same_persistent u u' -> repel k v u = repel k v u'.
Proof. intros (Hid & Hx & Hy). unfold repel. by rewrite Hid, Hx, Hy. Qed.

Lemma set_force_same_persistent (v w : Vertex num) (dx dy : num) :
  same_persistent v w -> set_force v dx dy = set_force w dx dy.
Proof. intros (Hid & Hx & Hy). unfold set_force. by rewrite Hid, Hx, Hy. Qed.

Lemma fold_repel_same_persistent (k : num) (us us' : list (Vertex num))
    (v : Vertex num) :
  Forall2 same_persistent us us' ->
  fold_left (repel k) us v = fold_left (repel k) us' v.
Proof.
  intros Hus. revert v. induction Hus as [|u u' us us' Hu _ IH]; intros v.
  - done.
  - simpl. rewrite (repel_same_persistent k v u u' Hu). apply IH.
Qed.

Lemma repulse_same_persistent (k : num) (us us' : list (Vertex num))
    (v v' : Vertex num) :
  Forall2 same_persistent us us' -> same_persistent v v' ->
  repulse k us v = repulse k us' v'.
Proof.
  intros Hus Hv. unfold repulse.
  rewrite (set_force_same_persistent v v' _ _ Hv).
  by apply fold_repel_same_persistent.
Qed.

(** *** Identities and positions through the force phases *)

Lemma fold_repel_persistent (k : num) (us : list (Vertex num))
    (v : Vertex num) :
  same_persistent (fold_left (repel k) us v) v.
Proof.
  revert v. induction us as [|u us IH]; intros v; [done|].
  simpl. destruct (IH (repel k v u)) as (Hid & Hx & Hy).
  unfold same_persistent. rewrite Hid, Hx, Hy.
  unfold repel. by case_bool_decide.
Qed.

Lemma repulse_persistent (k : num) (us : list (Vertex num))
    (v : Vertex num) :
  same_persistent (repulse k us v) v.
Proof.
  unfold repulse.
  destruct (fold_repel_persistent k us (set_force v zero zero))
    as (Hid & Hx & Hy).
  unfold same_persistent. by rewrite Hid, Hx, Hy.
Qed.

Lemma Forall2_same_persistent_get (vs ws : list (Vertex num)) (i : Z)
    (w : Vertex num) :
  Forall2 same_persistent vs ws -> array_get ws i = Some w ->
  exists v, array_get vs i = Some v /\ same_persistent v w.
Proof.
  intros Hvs [Hi Hw]%array_get_Some.
  destruct (Forall2_lookup_r _ _ _ _ _ Hvs Hw) as (v & Hv & Hsame).
  exists v. split; [by apply array_get_Some | done].
Qed.

Lemma same_persistent_sym (vs ws : list (Vertex num)) :
  Forall2 same_persistent vs ws -> Forall2 same_persistent ws vs.
Proof.
  intros Hvs. apply Forall2_flip.
  eapply Forall2_impl; [exact Hvs|]. intros v w (? & ? & ?). by repeat split.
Qed.

Lemma same_persistent_trans (vs ws us : list (Vertex num)) :
  Forall2 same_persistent vs ws -> Forall2 same_persistent ws us ->
  Forall2 same_persistent vs us.
Proof.
  apply Forall2_trans.
  intros a b c (? & ? & ?) (? & ? & ?). repeat split; congruence.
Qed.

Lemma same_persistent_refl (vs : list (Vertex num)) :
  Forall2 same_persistent vs vs.
Proof. induction vs; constructor; [by repeat split | done]. Qed.

(** *** The repulsion phase, vertex by vertex *)

Lemma alter_persistent (f : Vertex num -> Vertex num) (i : nat)
    (st vs : list (Vertex num)) :
  (forall v, same_persistent (f v) v) ->
  Forall2 same_persistent st vs -> Forall2 same_persistent (alter f i st) vs.
Proof.
  intros Hf Hst. eapply same_persistent_trans; [|exact Hst].
  apply Forall2_same_length_lookup. split; [apply length_alter|].
  intros j v' v Hv' Hv.
  destruct (decide (i = j)) as [<-|Hne].
  - rewrite list_lookup_alter_eq, Hv in Hv'. injection Hv' as <-. apply Hf.
  - rewrite list_lookup_alter_ne, Hv in Hv' by done. by injection Hv' as <-.
Qed.

Lemma repel_persistent (k : num) (v u : Vertex num) :
  same_persistent (repel k v u) v.
Proof. unfold repel. by case_bool_decide. Qed.

(** The inner loop over the indices [js]: the object at [i] is repelled by
    the vertices of the array at [js], of which only [id], [x], [y] are read. *)
Lemma inner_loop (k : num) (vs : list (Vertex num)) (i : nat) (js : list nat)
    (st : list (Vertex num)) :
  Forall2 same_persistent st vs ->
  foldl (fun st j => repel_at k i j st) st js
  = alter (fun v => fold_left (repel k) (omap (fun j => vs !! j) js) v) i st.
Proof.
  revert st. induction js as [|j js IH]; intros st Hst; simpl.
  - symmetry. apply list_alter_id. intros v. reflexivity.
  - unfold repel_at at 2.
    destruct (st !! j) as [u|] eqn:Hu.
    + destruct (Forall2_lookup_l _ _ _ _ _ Hst Hu) as (u' & Hu' & Hsame).
      rewrite Hu'. simpl.
      rewrite IH by (apply alter_persistent; [intros; apply repel_persistent | done]).
      rewrite list_alter_alter_eq. apply list_alter_ext; [|done].
      intros v _. simpl. by rewrite (repel_same_persistent k v u u' Hsame).
    + pose proof (Forall2_length _ _ _ Hst) as Hlen.
      rewrite (lookup_ge_None_2 vs j) by (apply lookup_ge_None_1 in Hu; lia).
      simpl. by apply IH.
Qed.

Lemma omap_lookup_seq (pre vs : list (Vertex num)) :
  omap (fun j => (pre ++ vs) !! j) (seq (length pre) (length vs)) = vs.
Proof.
  revert pre. induction vs as [|v vs IH]; intros pre; [done|].
  cbn [length seq]. cbn [omap list_omap]. fold (@omap list _).
  rewrite list_lookup_middle by done.
  f_equal. specialize (IH (pre ++ [v])).
  rewrite <- app_assoc, length_app in IH. simpl in IH.
  by rewrite Nat.add_1_r in IH.
Qed.

(** One pass of the outer loop, for the object at [i]. *)
Lemma repulse_at_alter (k : num) (vs st : list (Vertex num)) (i : nat) :
  Forall2 same_persistent st vs ->
  repulse_at k st i = alter (repulse k vs) i st.
Proof.
  intros Hst. unfold repulse_at, reset_at.
  rewrite (inner_loop k vs)
    by (apply alter_persistent; [by intros [] | done]).
  pose proof (omap_lookup_seq [] vs) as Hseq. simpl in Hseq.
  rewrite (Forall2_length _ _ _ Hst), Hseq.
  by rewrite list_alter_alter_eq.
Qed.

Lemma outer_loop (k : num) (vs : list (Vertex num)) (indices : list nat)
    (st : list (Vertex num)) :
  Forall2 same_persistent st vs ->
  foldl (repulse_at k) st indices
  = foldl (fun st i => alter (repulse k vs) i st) st indices.
Proof.
  revert st. induction indices as [|i indices IH]; intros st Hst; [done|].
  simpl. rewrite (repulse_at_alter k vs st i Hst). apply IH.
  apply alter_persistent; [apply repulse_persistent | done].
Qed.

Lemma alter_all {A : Type} (f : A -> A) (pre l : list A) :
  foldl (fun st i => alter f i st) (pre ++ l) (seq (length pre) (length l))
  = pre ++ map f l.
Proof.
  revert pre. induction l as [|a l IH]; intros pre; [done|].
  cbn [length seq foldl map].
  rewrite alter_app_r_alt by lia. rewrite Nat.sub_diag. cbn [alter list_alter].
  specialize (IH (pre ++ [f a])).
  rewrite <- !app_assoc, length_app in IH. simpl in IH.
  by rewrite Nat.add_1_r in IH.
Qed.

(** The phase writes only [dx] and [dy] and reads only [id], [x] and [y]:
    it computes for each vertex what [repulse] computes from the array the
    phase started from. *)
Lemma repulsion_map (k : num) (vs : list (Vertex num)) :
  repulsion k vs = map (repulse k vs) vs.
Proof.
  unfold repulsion. rewrite (outer_loop k vs) by apply same_persistent_refl.
  apply (alter_all (repulse k vs) [] vs).
Qed.

Lemma repulsion_same_persistent (k : num) (vs vs' : list (Vertex num)) :
  Forall2 same_persistent vs vs' -> repulsion k vs = repulsion k vs'.
Proof.
  intros Hvs. rewrite !repulsion_map.
  generalize Hvs. generalize vs at 1 3. generalize vs' at 1 3.
  intros us' us Hus. induction Hus as [|u u' us us' Hu _ IH]; [done|].
  simpl. f_equal; [by apply repulse_same_persistent | done].
Qed.

Lemma repulsion_persistent (k : num) (vs : list (Vertex num)) :
  Forall2 same_persistent (repulsion k vs) vs.
Proof.
  rewrite repulsion_map. generalize vs at 1. intros us.
  induction vs as [|v vs IH]; constructor; [apply repulse_persistent | done].
Qed.

Lemma same_persistent_indexed (vs ws : list (Vertex num)) :
  Forall2 same_persistent vs ws -> indexed ws -> indexed vs.
Proof.
  intros Hvs Hws i v Hv.
  destruct (Forall2_same_persistent_get ws vs i v) as (w & Hw & Hsame);
    [by apply same_persistent_sym | done |].
  destruct Hsame as (<- & _). by apply Hws.
Qed.

(** *** One edge of the attraction phase *)

(** With both endpoints inside the array the body of the attraction loop
    completes: it takes the force of the edge from the source object and gives
    the same force to the target object, in this order. *)
Lemma attract_Normal (k : num) (vs : list (Vertex num)) (e : Edge)
    (v u : Vertex num) :
  array_get vs (Edge.source e) = Some v ->
  array_get vs (Edge.target e) = Some u ->
  attract k vs e
  = Normal (array_update (push (edge_force k v u))
              (array_update (pull (edge_force k v u)) vs (Edge.source e))
              (Edge.target e)).
Proof. intros Hv Hu. unfold attract, deref. by rewrite Hv, Hu. Qed.

Lemma attract_inv (k : num) (vs vs' : list (Vertex num)) (e : Edge) :
  attract k vs e = Normal vs' ->
  exists v u,
    array_get vs (Edge.source e) = Some v
    /\ array_get vs (Edge.target e) = Some u
    /\ vs' = array_update (push (edge_force k v u))
               (array_update (pull (edge_force k v u)) vs (Edge.source e))
               (Edge.target e).
Proof.
  unfold attract, deref.
  destruct (array_get vs (Edge.source e)) as [v|]; [|discriminate].
  destruct (array_get vs (Edge.target e)) as [u|]; [|discriminate].
  intros [= <-]. eauto.
Qed.

Lemma attract_Throw (k : num) (vs : list (Vertex num)) (e : Edge) :
  array_get vs (Edge.source e) = None \/ array_get vs (Edge.target e) = None ->
  attract k vs e = Throw TypeError.
Proof.
  unfold attract, deref. intros [Hnone|Hnone].
  - by rewrite Hnone.
  - rewrite Hnone. by destruct (array_get vs (Edge.source e)).
Qed.

Lemma array_update_persistent (f : Vertex num -> Vertex num)
    (vs : list (Vertex num)) (i : Z) :
  (forall v, same_persistent (f v) v) ->
  Forall2 same_persistent (array_update f vs i) vs.
Proof.
  intros Hf. unfold array_update.
  apply Forall2_same_length_lookup. split; [apply length_alter|].
  intros j v' v Hv' Hv.
  destruct (decide (Z.to_nat i = j)) as [<-|Hne].
  - rewrite list_lookup_alter_eq, Hv in Hv'. injection Hv' as <-. apply Hf.
  - rewrite list_lookup_alter_ne, Hv in Hv' by done. by injection Hv' as <-.
Qed.

Lemma attract_persistent (k : num) (vs vs' : list (Vertex num)) (e : Edge) :
  attract k vs e = Normal vs' -> Forall2 same_persistent vs' vs.
Proof.
  intros (v & u & _ & _ & ->)%attract_inv.
  eapply same_persistent_trans; apply array_update_persistent; by intros [].
Qed.

Lemma attraction_persistent (k : num) (vs vs' : list (Vertex num))
    (es : list Edge) :
  attraction k vs es = Normal vs' -> Forall2 same_persistent vs' vs.
Proof.
  revert vs. induction es as [|e es IH]; intros vs; simpl.
  - intros [= <-]. apply same_persistent_refl.
  - intros (vs1 & H1 & Hrest)%bind_Normal.
    eapply same_persistent_trans; [by apply IH | by eapply attract_persistent].
Qed.

Lemma attraction_app (k : num) (vs : list (Vertex num)) (es1 es2 : list Edge) :
  attraction k vs (es1 ++ es2)
  = (vs' ← attraction k vs es1; attraction k vs' es2).
Proof.
  revert vs. induction es1 as [|e es1 IH]; intros vs; simpl; [done|].
  destruct (attract k vs e) as [vs1| |]; simpl; [apply IH | done | done].
Qed.

Lemma edges_in_range_same_length (vs ws : list (Vertex num))
    (es : list Edge) :
  length vs = length ws -> edges_in_range ws es -> edges_in_range vs es.
Proof. unfold edges_in_range. by intros ->. Qed.

(** With every endpoint inside the array the attraction phase completes. *)
Lemma attraction_total (k : num) (vs : list (Vertex num)) (es : list Edge) :
  edges_in_range vs es -> exists vs', attraction k vs es = Normal vs'.
Proof.
  revert vs. induction es as [|e es IH]; intros vs Hes; simpl; [eauto|].
  apply Forall_cons in Hes as [[Hs Ht] Hes].
  destruct (array_get_in_range vs _ Hs) as [v Hv].
  destruct (array_get_in_range vs _ Ht) as [u Hu].
  rewrite (attract_Normal k vs e v u Hv Hu). simpl.
  apply IH. eapply edges_in_range_same_length; [|exact Hes].
  by rewrite !length_array_update.
Qed.

Lemma length_repulsion (k : num) (vs : list (Vertex num)) :
  length (repulsion k vs) = length vs.
Proof. rewrite repulsion_map. apply length_map. Qed.

Lemma limit_and_move_fst (width height temperature : num)
    (vs : list (Vertex num)) (maxMove : num) :
  (limit_and_move width height temperature vs maxMove).1
  = moved width height temperature <$> vs.
Proof.
  revert maxMove. induction vs as [|v vs IH]; intros maxMove; [done|].
  simpl. specialize (IH (if gt (force_magnitude v) maxMove
                         then force_magnitude v else maxMove)).
  unfold force_magnitude in IH.
  destruct (limit_and_move _ _ _ vs _) as [ws m]. simpl in *. by rewrite IH.
Qed.

(** The step completes exactly when the attraction phase does. *)
Lemma step_total (vs : list (Vertex num)) (es : list Edge)
    (width height k temperature : num) :
  edges_in_range vs es ->
  exists r, fruchtermanReingoldStep vs es width height k temperature
            = Normal r.
Proof.
  intros Hes. unfold fruchtermanReingoldStep, forces.
  destruct (attraction_total k (repulsion k vs) es) as [vs' ->]; [|simpl; eauto].
  eapply edges_in_range_same_length; [apply length_repulsion | done].
Qed.

End StepStructure.

(** C9.  Two vertex arrays that agree on every [id], [x] and [y] give the same
    outcome of the step, whatever their incoming [dx] and [dy]: the same
    positions, the same returned [maxMove] (and the same accumulators left
    behind).  The repulsion phase overwrites [dx] and [dy] before anything
    reads them. *)
Theorem step_ignores_incoming_forces {num : Type} `{Number num}
    (vs ws : list (Vertex num)) (es : list Edge)
    (width height k temperature : num) :
  Forall2 same_persistent vs ws ->
  fruchtermanReingoldStep vs es width height k temperature
  = fruchtermanReingoldStep ws es width height k temperature.
Proof.
  intros Hsame. unfold fruchtermanReingoldStep, forces.
  by rewrite (repulsion_same_persistent k vs ws Hsame).
Qed.

Lemma step_ignores_incoming_forces_witness :
  Forall2 same_persistent (two_vertices 7 9 (-3) 4) (two_vertices 0 0 0 0)
  /\ fruchtermanReingoldStep (two_vertices 7 9 (-3) 4) [Edge.mk 0 1]
       WIDTH HEIGHT 50%float 100%float
     = fruchtermanReingoldStep (two_vertices 0 0 0 0) [Edge.mk 0 1]
         WIDTH HEIGHT 50%float 100%float.
Proof.
  assert (Forall2 same_persistent (two_vertices 7 9 (-3) 4)
                                  (two_vertices 0 0 0 0)) as Hsame
    by (repeat constructor).
  split; [exact Hsame|].
  apply (step_ignores_incoming_forces (two_vertices 7 9 (-3) 4)
           (two_vertices 0 0 0 0)).
  exact Hsame.
Defined.

Lemma generated_graph_well_indexed {num : Type} `{Number num} (fuel : nat)
    (rng : random_source num) (numVertices numEdges : Z) (g : Graph num) :
  0 <= numVertices ->
  unit_draws rng numVertices ->
  generateRandomGraph fuel rng numVertices numEdges = Normal g ->
  well_indexed g.
Proof.
  intros Hn Hdraws Hrun.
  pose proof (generated_ids _ _ _ _ _ Hrun) as Hids.
  assert (length (vertices g) = Z.to_nat numVertices) as Hlen.
  { by rewrite <- (length_fmap Vertex.id), Hids, length_seqZ. }
  split.
  - intros i v [Hi Hv]%array_get_Some.
    assert ((Vertex.id <$> vertices g) !! Z.to_nat i = Some (Vertex.id v))
      as Hid by (by rewrite list_lookup_fmap, Hv).
    rewrite Hids in Hid. apply lookup_seqZ in Hid as [-> _]. lia.
  - destruct (generated_edges _ _ _ _ _ Hdraws Hrun)
      as [[edgeSet [_ _ Hedges]] _].
    unfold edges_in_range. rewrite Hlen.
    eapply Forall_impl; [exact Hedges|]. intros e [[Hs Ht] Hloop].
    unfold draw_lo, draw_hi, no_self_loop in *. lia.
Qed.

(** C10, as stated, fails for a negative [numVertices]: the generator returns
    a graph without vertices whose edges have endpoints, no lookup of the
    attraction loop is then inside the array, and the step throws. *)
Lemma negative_count_breaks_lookups :
  exists g : Graph float,
    generateRandomGraph 20 cyclic_source (-3) 2 = Normal g
    /\ vertices g = []
    /\ length (edges g) = 2%nat
    /\ Forall (fun e => array_get (vertices g) (Edge.source e) = None
                        /\ array_get (vertices g) (Edge.target e) = None)
              (edges g)
    /\ ~ well_indexed g
    /\ fruchtermanReingoldStep (vertices g) (edges g) WIDTH HEIGHT
         ideal_length initial_temperature = Throw TypeError.
Proof.
  eexists. split; [vm_compute; reflexivity|]. cbn [vertices edges].
  split; [done|]. split; [done|]. split.
  { repeat constructor. }
  split; [|vm_compute; reflexivity].
  intros [_ Hrange]. cbn [vertices edges] in Hrange.
  apply Forall_cons in Hrange as [[Hs _] _]. simpl in Hs. lia.
Qed.

(** C10, amended.  The graphs that [generateRandomGraph] returns for
    [numVertices >= 0] have [vertices[i].id = i] and all edge endpoints in
    [[0, |V|)].  On every such graph each [vertices[e.source]] and
    [vertices[e.target]] of the attraction loop is inside the array and is the
    vertex whose id is that endpoint; the loop body computes the force [f] of
    the edge from these two vertices, leaves at the source that vertex with
    [f] subtracted from its accumulator, at the target that vertex with [f]
    added, and changes no other vertex; and the step completes without a
    [TypeError]. *)
Theorem endpoint_lookups_are_sound {num : Type} `{Number num} :
  (forall (fuel : nat) (rng : random_source num) (numVertices numEdges : Z)
          (g : Graph num),
      0 <= numVertices -> unit_draws rng numVertices ->
      generateRandomGraph fuel rng numVertices numEdges = Normal g ->
      well_indexed g)
  /\ (forall (g : Graph num) (k : num),
        well_indexed g ->
        (forall (done : list Edge) (e : Edge) (rest : list Edge),
            edges g = done ++ e :: rest ->
            exists (st : list (Vertex num)) (v u : Vertex num)
                   (st' : list (Vertex num)),
              attraction k (repulsion k (vertices g)) done = Normal st
              /\ array_get st (Edge.source e) = Some v
              /\ Vertex.id v = Edge.source e
              /\ array_get st (Edge.target e) = Some u
              /\ Vertex.id u = Edge.target e
              /\ attract k st e = Normal st'
              /\ array_get st' (Edge.source e)
                 = Some (if decide (Edge.target e = Edge.source e)
                         then push (edge_force k v u)
                                (pull (edge_force k v u) v)
                         else pull (edge_force k v u) v)
              /\ array_get st' (Edge.target e)
                 = Some (if decide (Edge.target e = Edge.source e)
                         then push (edge_force k v u)
                                (pull (edge_force k v u) v)
                         else push (edge_force k v u) u)
              /\ (forall i, i <> Edge.source e -> i <> Edge.target e ->
                            array_get st' i = array_get st i))
        /\ (forall width height temperature : num,
              exists r,
                fruchtermanReingoldStep (vertices g) (edges g) width height
                  k temperature = Normal r)).
Proof.
  split; [apply @generated_graph_well_indexed|].
  intros g k [Hidx Hrange]. split; [|intros; by apply step_total].
  intros done e rest Hsplit.
  unfold edges_in_range in Hrange. rewrite Hsplit in Hrange.
  apply Forall_app in Hrange as [Hdone Hrest].
  apply Forall_cons in Hrest as [[Hs Ht] _].
  destruct (attraction_total k (repulsion k (vertices g)) done) as [st Hst].
  { unfold edges_in_range. by rewrite length_repulsion. }
  assert (Forall2 same_persistent st (vertices g)) as Hsame.
  { eapply same_persistent_trans;
      [by eapply attraction_persistent | apply repulsion_persistent]. }
  assert (length st = length (vertices g)) as Hlen
    by (by eapply Forall2_length).
  rewrite <- Hlen in Hs, Ht.
  destruct (array_get_in_range st _ Hs) as [v Hv].
  destruct (array_get_in_range st _ Ht) as [u Hu].
  pose proof (same_persistent_indexed _ _ Hsame Hidx) as Hidx'.
  exists st, v, u. eexists.
  split; [done|]. split; [done|]. split; [by apply Hidx'|].
  split; [done|]. split; [by apply Hidx'|].
  split; [by apply attract_Normal|].
  split; [|split].
  - rewrite !array_get_update by lia.
    rewrite (decide_True (P := Edge.source e = Edge.source e)) by done.
    rewrite Hv. by destruct (decide (Edge.target e = Edge.source e)).
  - rewrite !array_get_update by lia.
    rewrite (decide_True (P := Edge.target e = Edge.target e)) by done.
    destruct (decide (Edge.target e = Edge.source e)) as [Heq|Hne].
    + rewrite decide_True by done. rewrite Heq in Hu |- *.
      by rewrite Hv.
    + rewrite decide_False by done. by rewrite Hu.
  - intros i Hsrc Htgt.
    rewrite !array_get_update by lia. by rewrite !decide_False by done.
Qed.

Lemma endpoint_lookups_are_sound_witness :
  exists g : Graph float,
    generateRandomGraph 20 cyclic_source 3 2 = Normal g
    /\ well_indexed g
    /\ exists r, fruchtermanReingoldStep (vertices g) (edges g) WIDTH HEIGHT
                   ideal_length initial_temperature = Normal r.
Proof.
  eexists. split; [vm_compute; reflexivity|].
  assert (well_indexed
            (mkGraph [Vertex.mk 0 100 300 0 0; Vertex.mk 1 700 225 0 0;
                      Vertex.mk 2 100 300 0 0]%float
                     [Edge.mk 2 1; Edge.mk 0 1])) as Hwell.
  { apply (proj1 endpoint_lookups_are_sound 20%nat cyclic_source 3 2).
    - lia.
    - apply cyclic_source_unit_draws.
    - vm_compute. reflexivity. }
  split; [exact Hwell|].
  apply (proj2 endpoint_lookups_are_sound _ _ Hwell).
Defined.

(** *** Evaluating the force phases *)

Section Evaluation.
Context {num : Type} `{Number num}.

Lemma repel_other (k : num) (v u : Vertex num) :
  Vertex.id u <> Vertex.id v ->
  repel k v u =
    let dx := sub (Vertex.x v) (Vertex.x u) in
    let dy := sub (Vertex.y v) (Vertex.y u) in
    let dist := add (norm dx dy) lit_0_01 in
    let force := div (mul k k) dist in
    set_force v (add (Vertex.dx v) (mul (div dx dist) force))
                (add (Vertex.dy v) (mul (div dy dist) force)).
Proof. intros Hne. unfold repel. by rewrite bool_decide_eq_true_2. Qed.

Lemma repel_self (k : num) (v u : Vertex num) :
  Vertex.id u = Vertex.id v -> repel k v u = v.
Proof.
  intros Heq. unfold repel. by rewrite bool_decide_eq_false_2 by (by intros ?).
Qed.

Lemma repel_id (k : num) (v u : Vertex num) :
  Vertex.id (repel k v u) = Vertex.id v.
Proof. unfold repel. by case_bool_decide. Qed.

(** Two vertices with different ids repel each other once. *)
Lemma repulsion_two (k : num) (v0 v1 : Vertex num) :
  Vertex.id v0 <> Vertex.id v1 ->
  repulsion k [v0; v1]
  = [repel k (set_force v0 zero zero) v1; repel k (set_force v1 zero zero) v0].
Proof.
  intros Hne. rewrite repulsion_map. unfold repulse. cbn [map fold_left].
  rewrite (repel_self k (set_force v0 zero zero) v0 eq_refl).
  rewrite (repel_self k (repel k (set_force v1 zero zero) v0) v1)
    by (by rewrite repel_id).
  done.
Qed.

Lemma limit_and_move_snd (width height temperature : num)
    (vs : list (Vertex num)) (maxMove : num) :
  (limit_and_move width height temperature vs maxMove).2
  = fold_left (fun m v => if gt (force_magnitude v) m
                          then force_magnitude v else m) vs maxMove.
Proof.
  revert maxMove. induction vs as [|v vs IH]; intros maxMove; [done|].
  simpl. specialize (IH (if gt (force_magnitude v) maxMove
                         then force_magnitude v else maxMove)).
  unfold force_magnitude in *.
  destruct (limit_and_move _ _ _ vs _) as [ws m]. simpl in *. by rewrite IH.
Qed.

(** The step in terms of the accumulated forces. *)
Lemma step_of_forces (vs acc : list (Vertex num)) (es : list Edge)
    (width height k temperature : num) :
  forces vs es k = Normal acc ->
  fruchtermanReingoldStep vs es width height k temperature
  = Normal (moved width height temperature <$> acc,
            fold_left (fun m v => if gt (force_magnitude v) m
                                  then force_magnitude v else m) acc zero).
Proof.
  intros Hacc. unfold fruchtermanReingoldStep. rewrite Hacc. simpl.
  rewrite <- (limit_and_move_fst width height temperature acc zero).
  rewrite <- (limit_and_move_snd width height temperature acc zero).
  by destruct (limit_and_move _ _ _ _ _).
Qed.

Lemma step_Normal_inv (vs moved_vs : list (Vertex num)) (es : list Edge)
    (width height k temperature m : num) :
  fruchtermanReingoldStep vs es width height k temperature
  = Normal (moved_vs, m) ->
  exists acc, forces vs es k = Normal acc
              /\ moved_vs = moved width height temperature <$> acc.
Proof.
  unfold fruchtermanReingoldStep.
  intros (acc & Hacc & Hret)%bind_Normal. exists acc. split; [done|].
  rewrite <- (limit_and_move_fst width height temperature acc zero).
  injection Hret as Hret. by rewrite Hret.
Qed.

End Evaluation.

(** ** The layout step in exact arithmetic *)

Section ExactArithmetic.
Local Open Scope R_scope.

Lemma real_gt (a b : R) : gt a b = true <-> b < a.
Proof. simpl. apply bool_decide_eq_true. Qed.

Lemma real_gt_false (a b : R) : gt a b = false <-> a <= b.
Proof. simpl. rewrite bool_decide_eq_false. lra. Qed.

Lemma real_norm_nonneg (a b : R) : 0 <= norm a b.
Proof. unfold norm. simpl. apply sqrt_pos. Qed.

Lemma real_norm_sqr (a b : R) : norm a b * norm a b = a * a + b * b.
Proof. unfold norm. simpl. apply sqrt_sqrt. nra. Qed.

Lemma real_norm_horizontal (a : R) : norm a 0 = Rabs a.
Proof.
  unfold norm. simpl.
  replace (a * a + 0 * 0) with (Rsqr a) by (unfold Rsqr; lra).
  apply sqrt_Rsqr_abs.
Qed.

(** A vector scaled by [c >= 0] has its magnitude scaled by [c]. *)
Lemma real_norm_scale (c a b : R) :
  0 <= c -> norm (c * a) (c * b) = c * norm a b.
Proof.
  intros Hc. unfold norm. simpl.
  replace (c * a * (c * a) + c * b * (c * b)) with (c * c * (a * a + b * b))
    by ring.
  rewrite sqrt_mult by nra. by rewrite sqrt_square.
Qed.

Lemma real_clamp_bounds (hi a : R) : 0 <= hi -> 0 <= clamp hi a <= hi.
Proof.
  intros Hhi. unfold clamp, zero. simpl.
  unfold Rmin, Rmax. repeat destruct (Rle_dec _ _); lra.
Qed.

(** Inside the canvas the clamp changes nothing. *)
Lemma real_clamp_inside (hi a : R) : 0 <= a <= hi -> clamp hi a = a.
Proof.
  intros Ha. unfold clamp, zero. simpl.
  unfold Rmin, Rmax. repeat destruct (Rle_dec _ _); lra.
Qed.

(** A coordinate pushed past a bound sticks to it. *)
Lemma real_clamp_sticks (hi a : R) :
  0 <= hi -> (a <= 0 -> clamp hi a = 0) /\ (hi <= a -> clamp hi a = hi).
Proof.
  intros Hhi. unfold clamp, zero. simpl.
  unfold Rmin, Rmax. split; intros Ha; repeat destruct (Rle_dec _ _); lra.
Qed.

Lemma moved_on_canvas (width height temperature : R) (v : Vertex R) :
  0 <= width -> 0 <= height ->
  on_canvas width height (moved width height temperature v).
Proof.
  intros Hw Hh. unfold on_canvas, moved, displace. simpl.
  split; by apply real_clamp_bounds.
Qed.

(** *** The temperature cap *)

Lemma applied_capped (temperature : R) (v : Vertex R) :
  temperature < force_magnitude v ->
  applied temperature v
  = (Vertex.dx v / force_magnitude v * temperature,
     Vertex.dy v / force_magnitude v * temperature).
Proof.
  intros Hgt. unfold applied, capped.
  by rewrite (proj2 (real_gt _ _) Hgt).
Qed.

Lemma applied_uncapped (temperature : R) (v : Vertex R) :
  force_magnitude v <= temperature ->
  applied temperature v = (Vertex.dx v, Vertex.dy v).
Proof.
  intros Hle. unfold applied, capped.
  by rewrite (proj2 (real_gt_false _ _) Hle).
Qed.

Lemma applied_capped_magnitude (temperature : R) (v : Vertex R) :
  0 < temperature -> temperature < force_magnitude v ->
  norm (applied temperature v).1 (applied temperature v).2 = temperature.
Proof.
  intros Hpos Hgt. rewrite applied_capped by done. cbn [fst snd].
  set (c := temperature / force_magnitude v).
  assert (0 < c) as Hc by (apply Rdiv_lt_0_compat; lra).
  replace (Vertex.dx v / force_magnitude v * temperature)
    with (c * Vertex.dx v) by (unfold c; field; lra).
  replace (Vertex.dy v / force_magnitude v * temperature)
    with (c * Vertex.dy v) by (unfold c; field; lra).
  rewrite real_norm_scale by lra. fold (force_magnitude v).
  unfold c. field. lra.
Qed.

(** C5, amended.  In every arithmetic, doubles included, the move of a vertex
    before the clamp to the canvas is its accumulated force [(dx, dy)],
    replaced by [(dx / disp * temperature, dy / disp * temperature)] exactly
    when the test [disp > temperature] holds.  In exact arithmetic and with a
    positive temperature the replaced move is the force rescaled by the
    positive factor [temperature / disp] and has magnitude exactly
    [temperature], so that the move of every vertex has a magnitude of at
    most [temperature]. *)
Theorem displacement_is_capped :
  (forall (num : Type) (arithmetic : Number num) (vs : list (Vertex num))
          (es : list Edge) (width height k temperature : num)
          (acc : list (Vertex num)),
      forces vs es k = Normal acc ->
      (exists m, fruchtermanReingoldStep vs es width height k temperature
                 = Normal (moved width height temperature <$> acc, m))
      /\ Forall (fun v =>
           let disp := force_magnitude v in
           let d := applied temperature v in
           Vertex.x (moved width height temperature v)
             = clamp width (add (Vertex.x v) d.1)
           /\ Vertex.y (moved width height temperature v)
              = clamp height (add (Vertex.y v) d.2)
           /\ (gt disp temperature = true ->
               d = (mul (div (Vertex.dx v) disp) temperature,
                    mul (div (Vertex.dy v) disp) temperature))
           /\ (gt disp temperature = false ->
               d = (Vertex.dx v, Vertex.dy v))) acc)
  /\ (forall (vs : list (Vertex R)) (es : list Edge) (k temperature : R)
             (acc : list (Vertex R)),
        0 < temperature ->
        forces vs es k = Normal acc ->
        Forall (fun v =>
          let d := applied temperature v in
          norm d.1 d.2 <= temperature
          /\ (temperature < force_magnitude v ->
              norm d.1 d.2 = temperature
              /\ 0 < temperature / force_magnitude v
              /\ d.1 = temperature / force_magnitude v * Vertex.dx v
              /\ d.2 = temperature / force_magnitude v * Vertex.dy v)
          /\ (force_magnitude v <= temperature ->
              d = (Vertex.dx v, Vertex.dy v))) acc).
Proof.
  split.
  { intros num arithmetic vs es width height k temperature acc Hacc. split.
    { eexists. by apply step_of_forces. }
    apply Forall_forall. intros v _. cbv zeta.
    split; [done|]. split; [done|].
    unfold applied, capped. split; by intros ->. }
  intros vs es k temperature acc Hpos Hacc.
  apply Forall_forall. intros v _. cbv zeta.
  assert (temperature < force_magnitude v ->
          norm (applied temperature v).1 (applied temperature v).2
          = temperature
          /\ 0 < temperature / force_magnitude v
          /\ (applied temperature v).1
             = temperature / force_magnitude v * Vertex.dx v
          /\ (applied temperature v).2
             = temperature / force_magnitude v * Vertex.dy v) as Hcap.
  { intros Hgt. split; [by apply applied_capped_magnitude|].
    split; [apply Rdiv_lt_0_compat; lra|].
    rewrite applied_capped by done. cbn [fst snd]. split; field; lra. }
  split; [|split; [exact Hcap | apply applied_uncapped]].
  destruct (Rlt_le_dec temperature (force_magnitude v)) as [Hgt|Hle].
  - destruct (Hcap Hgt) as [-> _]. lra.
  - by rewrite applied_uncapped.
Qed.

(** *** The returned [maxMove] *)

Lemma fold_max_spec (vs : list (Vertex R)) (m0 : R) :
  let m := fold_left (fun m v => if gt (force_magnitude v) m
                                 then force_magnitude v else m) vs m0 in
  m0 <= m
  /\ (forall v, v ∈ vs -> force_magnitude v <= m)
  /\ (m = m0 \/ exists v, v ∈ vs /\ m = force_magnitude v).
Proof.
  revert m0. induction vs as [|v vs IH]; intros m0; cbv zeta.
  - simpl. split; [lra|]. split; [|by left].
    intros v Hv. by apply elem_of_nil in Hv.
  - cbn [fold_left].
    destruct (IH (if gt (force_magnitude v) m0 then force_magnitude v else m0))
      as (Hle & Hall & Hsome).
    destruct (gt (force_magnitude v) m0) eqn:Hgt.
    + apply real_gt in Hgt. split; [lra|]. split.
      * intros w [->|Hw]%elem_of_cons; [lra | by apply Hall].
      * right. destruct Hsome as [->|(w & Hw & ->)].
        -- exists v. split; [apply elem_of_cons; by left | done].
        -- exists w. split; [apply elem_of_cons; by right | done].
    + apply real_gt_false in Hgt. split; [lra|]. split.
      * intros w [->|Hw]%elem_of_cons; [lra | by apply Hall].
      * destruct Hsome as [->|(w & Hw & ->)]; [by left|].
        right. exists w. split; [apply elem_of_cons; by right | done].
Qed.

(** *** The two-vertex scenario *)

Ltac fields_eq :=
  cbn [mret outcome_ret];
  repeat match goal with
         | |- @eq R _ _ => fail 1
         | |- _ = _ => f_equal
         end.

Lemma scenario_force_bounds : 175 < scenario_force < 176.
Proof.
  unfold scenario_force.
  replace (250000 / (10001 / 100 * (10001 / 100)))
    with (2500000000 / 100020001) by (field; lra).
  lra.
Qed.

Lemma scenario_repulsion :
  repulsion 50 scenario
  = [Vertex.mk 0 0 0 (- (250000 / (10001 / 100 * (10001 / 100)))) 0;
     Vertex.mk 1 100 0 (250000 / (10001 / 100 * (10001 / 100))) 0].
Proof.
  unfold scenario. rewrite repulsion_two by done.
  rewrite !repel_other by done.
  cbn [Vertex.id Vertex.x Vertex.y Vertex.dx Vertex.dy set_force].
  replace (sub 0 0) with 0 by (simpl; lra).
  rewrite !real_norm_horizontal. simpl.
  replace (Rabs (0 - 100)) with 100 by (rewrite Rabs_left; lra).
  replace (Rabs (100 - 0)) with 100 by (rewrite Rabs_right; lra).
  unfold zero. simpl. fields_eq; field.
Qed.

Lemma scenario_forces :
  forces scenario scenario_edges 50
  = Normal [Vertex.mk 0 0 0 scenario_force 0;
            Vertex.mk 1 100 0 (- scenario_force) 0].
Proof.
  unfold forces, scenario_edges. rewrite scenario_repulsion.
  cbn [attraction]. erewrite attract_Normal by reflexivity.
  cbn [mbind outcome_bind mret outcome_ret Edge.source Edge.target].
  unfold array_update. cbn [Z.to_nat Pos.to_nat Pos.iter_op].
  unfold edge_force.
  cbn [Vertex.id Vertex.x Vertex.y Vertex.dx Vertex.dy alter list_alter].
  replace (sub 0 0) with 0 by (simpl; lra).
  rewrite !real_norm_horizontal. simpl.
  replace (Rabs (0 - 100)) with 100 by (rewrite Rabs_left; lra).
  unfold pull, push, set_force, scenario_force.
  cbn [fst snd Vertex.id Vertex.x Vertex.y Vertex.dx Vertex.dy].
  fields_eq; simpl; field.
Qed.

(** Both vertices of the scenario are capped: each is moved by exactly 100
    towards the other. *)
Lemma scenario_applied :
  applied 100 <$> [Vertex.mk 0 0 0 scenario_force 0;
                   Vertex.mk 1 100 0 (- scenario_force) 0]
  = [(100, 0); (-100, 0)].
Proof.
  pose proof scenario_force_bounds as HA. cbn [fmap list_fmap].
  rewrite !applied_capped;
    unfold force_magnitude; cbn [Vertex.dx Vertex.dy];
    rewrite ?real_norm_horizontal, ?Rabs_Ropp, ?(Rabs_right scenario_force)
      by lra; try lra.
  fields_eq; field; lra.
Qed.

(** On a canvas at least 100 wide the two vertices exchange their places. *)
Lemma scenario_step (width height : R) :
  100 <= width -> 0 <= height ->
  fruchtermanReingoldStep scenario scenario_edges width height 50 100
  = Normal ([Vertex.mk 0 100 0 scenario_force 0;
             Vertex.mk 1 0 0 (- scenario_force) 0], scenario_force).
Proof.
  intros Hw Hh. pose proof scenario_force_bounds as HA.
  rewrite (step_of_forces _ _ _ _ _ _ _ scenario_forces).
  cbn [fmap list_fmap fold_left]. unfold moved, displace.
  fold (force_magnitude (Vertex.mk 0 0 0 scenario_force 0)).
  fold (force_magnitude (Vertex.mk 1 100 0 (- scenario_force) 0)).
  fold (applied 100 (Vertex.mk 0 0 0 scenario_force 0)).
  fold (applied 100 (Vertex.mk 1 100 0 (- scenario_force) 0)).
  pose proof scenario_applied as Happ. cbn [fmap list_fmap] in Happ.
  injection Happ as -> ->.
  unfold force_magnitude. cbn [Vertex.dx Vertex.dy Vertex.x Vertex.y fst snd].
  rewrite !real_norm_horizontal, Rabs_Ropp, (Rabs_right scenario_force) by lra.
  unfold zero. cbn [of_Z real].
  rewrite (proj2 (real_gt scenario_force 0)) by lra.
  rewrite (proj2 (real_gt_false scenario_force scenario_force)) by lra.
  unfold set_position. cbn [Vertex.id Vertex.dx Vertex.dy add real].
  rewrite !real_clamp_inside by lra.
  fields_eq; lra.
Qed.

Lemma displacement_is_capped_witness :
  0 < 100
  /\ forces scenario scenario_edges 50
     = Normal [Vertex.mk 0 0 0 scenario_force 0;
               Vertex.mk 1 100 0 (- scenario_force) 0]
  /\ Forall (fun v => norm (applied 100 v).1 (applied 100 v).2 <= 100)
       [Vertex.mk 0 0 0 scenario_force 0;
        Vertex.mk 1 100 0 (- scenario_force) 0].
Proof.
  assert (0 < 100) as Hpos by lra.
  split; [exact Hpos|]. split; [exact scenario_forces|].
  eapply Forall_impl.
  - exact (proj2 displacement_is_capped scenario scenario_edges 50 100 _
             Hpos scenario_forces).
  - intros v Hv. exact (proj1 Hv).
Defined.

(** C6, as stated, fails: in the two-vertex scenario the step returns about
    175.02 at temperature 100, while both vertices are moved by exactly 100;
    so it does on doubles. *)
Lemma returned_move_exceeds_temperature :
  (exists (moved_vs : list (Vertex R)) (m : R),
      fruchtermanReingoldStep scenario scenario_edges WIDTH HEIGHT 50 100
      = Normal (moved_vs, m)
      /\ 100 < m
      /\ exists acc, forces scenario scenario_edges 50 = Normal acc
                     /\ Forall (fun v => norm (applied 100 v).1
                                              (applied 100 v).2 = 100) acc)
  /\ (exists (moved_vs : list (Vertex float)) (m : float),
        fruchtermanReingoldStep (two_vertices 0 0 0 0) scenario_edges
          WIDTH HEIGHT (of_Z 50) (of_Z 100) = Normal (moved_vs, m)
        /\ gt m (of_Z 100) = true).
Proof.
  split.
  - eexists _, _. split; [apply scenario_step; unfold WIDTH, HEIGHT; simpl; lra|].
    pose proof scenario_force_bounds. split; [lra|].
    eexists. split; [exact scenario_forces|].
    pose proof scenario_applied as Happ. cbn [fmap list_fmap] in Happ.
    injection Happ as H0 H1.
    repeat constructor; rewrite ?H0, ?H1; cbn [fst snd];
      rewrite real_norm_horizontal; [rewrite Rabs_right | rewrite Rabs_left];
      lra.
  - eexists _, _. split; vm_compute; reflexivity.
Qed.




(** *** Attraction *)

(** C7.  For an edge whose endpoints are two different vertices of the array,
    the body of the attraction loop changes the accumulator of the source [v]
    by [- f] and the accumulator of the target [u] by [+ f], for the one
    force [f = edge_force k v u]: the two changes are exact negations of each
    other.  This is the array as the attraction loop leaves it, before the
    last loop caps anything. *)
Theorem attraction_is_antisymmetric (k : R) (vs : list (Vertex R))
    (e : Edge) (v u : Vertex R) :
  array_get vs (Edge.source e) = Some v ->
  array_get vs (Edge.target e) = Some u ->
  Edge.source e <> Edge.target e ->
  exists (vs' : list (Vertex R)) (v' u' : Vertex R),
    attract k vs e = Normal vs'
    /\ array_get vs' (Edge.source e) = Some v'
    /\ array_get vs' (Edge.target e) = Some u'
    /\ Vertex.dx v' - Vertex.dx v = - (edge_force k v u).1
    /\ Vertex.dy v' - Vertex.dy v = - (edge_force k v u).2
    /\ Vertex.dx u' - Vertex.dx u = (edge_force k v u).1
    /\ Vertex.dy u' - Vertex.dy u = (edge_force k v u).2
    /\ Vertex.dx u' - Vertex.dx u = - (Vertex.dx v' - Vertex.dx v)
    /\ Vertex.dy u' - Vertex.dy u = - (Vertex.dy v' - Vertex.dy v).
Proof.
  intros Hv Hu Hne.
  pose proof (array_get_lt _ _ _ Hv) as Hs.
  pose proof (array_get_lt _ _ _ Hu) as Ht.
  exists (array_update (push (edge_force k v u))
            (array_update (pull (edge_force k v u)) vs (Edge.source e))
            (Edge.target e)),
         (pull (edge_force k v u) v), (push (edge_force k v u) u).
  split; [by apply attract_Normal|].
  split.
  { rewrite !array_get_update by lia.
    rewrite decide_False by done. rewrite decide_True by done.
    by rewrite Hv. }
  split.
  { rewrite !array_get_update by lia.
    rewrite decide_True by done. rewrite decide_False by done.
    by rewrite Hu. }
  unfold pull, push, set_force. cbn [Vertex.dx Vertex.dy]. simpl.
  repeat split; lra.
Qed.

Lemma attraction_is_antisymmetric_witness :
  exists (vs' : list (Vertex R)) (v' u' : Vertex R),
    attract 50 scenario (Edge.mk 0 1) = Normal vs'
    /\ array_get vs' 0%Z = Some v'
    /\ array_get vs' 1%Z = Some u'
    /\ Vertex.dx u' - 0 = - (Vertex.dx v' - 0).
Proof.
  destruct (attraction_is_antisymmetric 50 scenario (Edge.mk 0 1)
              (Vertex.mk 0 0 0 0 0) (Vertex.mk 1 100 0 0 0)
              eq_refl eq_refl ltac:(simpl; lia))
    as (vs' & v' & u' & Hrun & Hv & Hu & _ & _ & _ & _ & Hdx & _).
  exists vs', v', u'. repeat split; assumption.
Defined.

(** A loop from a vertex to itself leaves its accumulator as it was. *)
Lemma attract_self_loop (k : R) (vs : list (Vertex R)) (e : Edge)
    (v : Vertex R) :
  array_get vs (Edge.source e) = Some v ->
  Edge.target e = Edge.source e ->
  attract k vs e = Normal vs.
Proof.
  intros Hv Heq. pose proof (array_get_lt _ _ _ Hv) as Hs.
  rewrite (attract_Normal k vs e v v) by (by rewrite ?Heq).
  f_equal. rewrite Heq. unfold array_update.
  rewrite list_alter_alter_eq. apply list_eq. intros i.
  destruct (decide (i = Z.to_nat (Edge.source e))) as [->|Hi].
  - rewrite list_lookup_alter_eq.
    apply array_get_Some in Hv as [_ ->]. simpl. f_equal.
    unfold push, pull, set_force. simpl. destruct v as [id x y dx dy].
    simpl. f_equal; lra.
  - by rewrite list_lookup_alter_ne.
Qed.

(** *** Cooling *)

Lemma temperature_after_pow (n : nat) :
  temperature_after n = 100 * (95 / 100) ^ n.
Proof.
  unfold temperature_after, initial_temperature, cool.
  induction n as [|n IH]; simpl in *; [lra|]. rewrite IH. lra.
Qed.

Lemma temperature_after_positive (n : nat) : 0 < temperature_after n.
Proof.
  rewrite temperature_after_pow.
  apply Rmult_lt_0_compat; [lra|]. apply pow_lt. lra.
Qed.

Lemma cool_decreases (t : R) : 0 < t -> cool t < t.
Proof. intros Ht. unfold cool. simpl. lra. Qed.

Lemma temperature_after_antitone (n m : nat) :
  (n <= m)%nat -> temperature_after m <= temperature_after n.
Proof.
  induction 1 as [|m _ IH]; [lra|].
  pose proof (cool_decreases _ (temperature_after_positive m)) as Hstep.
  change (temperature_after (S m)) with (cool (temperature_after m)). lra.
Qed.

Lemma decay_pow (n : nat) :
  (95 / 100) ^ n = IZR (19 ^ Z.of_nat n) / IZR (20 ^ Z.of_nat n).
Proof.
  replace (95 / 100) with (IZR 19 * / IZR 20) by lra.
  by rewrite Rpow_mult_distr, pow_inv, !pow_IZR.
Qed.

Lemma scaled_ratio_le (a b : R) : 0 < b -> b <= 100 * a -> 1 <= 100 * (a / b).
Proof.
  intros Hb Hab. apply Rmult_le_reg_r with b; [done|].
  replace (100 * (a / b) * b) with (100 * a) by (field; lra). lra.
Qed.

Lemma scaled_ratio_lt (a b : R) : 0 < b -> 100 * a < b -> 100 * (a / b) < 1.
Proof.
  intros Hb Hab. apply Rmult_lt_reg_r with b; [done|].
  replace (100 * (a / b) * b) with (100 * a) by (field; lra). lra.
Qed.

Lemma temperature_after_89 : 1 <= temperature_after 89.
Proof.
  rewrite temperature_after_pow, decay_pow. apply scaled_ratio_le.
  - apply IZR_lt. by vm_compute.
  - rewrite <- mult_IZR. apply IZR_le. by vm_compute.
Qed.

Lemma temperature_after_90 : temperature_after 90 < 1.
Proof.
  rewrite temperature_after_pow, decay_pow. apply scaled_ratio_lt.
  - apply IZR_lt. by vm_compute.
  - rewrite <- mult_IZR. apply IZR_lt. by vm_compute.
Qed.

End ExactArithmetic.

(** ** The clamp on doubles *)

Lemma SFcompare_antisym (x y : spec_float) :
  SFcompare y x = option_map CompOpp (SFcompare x y).
Proof.
  destruct x as [sx|sx| |sx mx ex], y as [sy|sy| |sy my ey]; simpl;
    try reflexivity; try (by destruct sx); try (by destruct sy);
    try (by destruct sx, sy).
  destruct sx, sy; try reflexivity; f_equal;
    rewrite (Z.compare_antisym ey ex);
    destruct (ey ?= ex); simpl; try reflexivity;
    by rewrite (Pos.compare_cont_antisym mx my Eq).
Qed.

Lemma SFcompare_refl (x : spec_float) :
  x <> S754_nan -> SFcompare x x = Some Eq.
Proof.
  destruct x as [s|s| |s m e]; simpl; try done.
  - by destruct s.
  - intros _. rewrite Z.compare_refl, Pos.compare_cont_refl. by destruct s.
Qed.

Lemma number_spec (a : float) : number a <-> Prim2SF a <> S754_nan.
Proof.
  unfold number, is_nan. rewrite negb_false_iff, FloatAxioms.eqb_spec.
  unfold SFeqb. split.
  - intros Heq Hnan. by rewrite Hnan in Heq.
  - intros Hnum. by rewrite SFcompare_refl.
Qed.

Lemma float_le_number (a b : float) : float_le a b -> number a /\ number b.
Proof.
  unfold float_le. rewrite leb_spec, !number_spec. unfold SFleb.
  destruct (Prim2SF a), (Prim2SF b); simpl; try discriminate; done.
Qed.

Lemma float_le_refl (a : float) : number a -> float_le a a.
Proof.
  unfold float_le. rewrite leb_spec, number_spec. unfold SFleb.
  intros Hnum. by rewrite SFcompare_refl.
Qed.

Lemma ltb_float_le (a b : float) : PrimFloat.ltb a b = true -> float_le a b.
Proof.
  unfold float_le. rewrite ltb_spec, leb_spec. unfold SFltb, SFleb.
  by destruct (SFcompare _ _) as [[]|].
Qed.

Lemma not_ltb_float_le (a b : float) :
  number a -> number b -> PrimFloat.ltb a b = false -> float_le b a.
Proof.
  unfold float_le. rewrite ltb_spec, leb_spec, !number_spec.
  unfold SFltb, SFleb. intros Ha Hb.
  rewrite (SFcompare_antisym (Prim2SF a) (Prim2SF b)).
  assert (exists c, SFcompare (Prim2SF a) (Prim2SF b) = Some c) as [c ->].
  { destruct (Prim2SF a), (Prim2SF b); simpl; try done; eauto. }
  by destruct c.
Qed.

Lemma float_max_zero (a : float) :
  number a -> number (Float64.max 0 a) /\ float_le 0 (Float64.max 0 a).
Proof.
  intros Ha. unfold Float64.max. change (is_nan 0) with false.
  rewrite Ha. cbv iota.
  destruct (PrimFloat.ltb 0 a) eqn:Hlt.
  - split; [done | by apply ltb_float_le].
  - change (Float64.is_neg_zero 0) with false.
    destruct (PrimFloat.ltb a 0); split; done.
Qed.

Lemma float_min_bound (hi r : float) :
  float_le 0 hi -> number r -> float_le 0 r ->
  float_le 0 (Float64.min hi r) /\ float_le (Float64.min hi r) hi.
Proof.
  intros Hhi Hr H0. destruct (float_le_number _ _ Hhi) as [_ Hnum].
  unfold Float64.min. rewrite Hnum, Hr. cbv iota.
  destruct (PrimFloat.ltb hi r) eqn:H1.
  { split; [done | by apply float_le_refl]. }
  destruct (PrimFloat.ltb r hi) eqn:H2.
  { split; [done | by apply ltb_float_le]. }
  destruct (Float64.is_pos_zero hi).
  - split; [done | by apply not_ltb_float_le].
  - split; [done | by apply float_le_refl].
Qed.

Lemma float_clamp_nan (hi a : float) :
  number hi -> is_nan a = true -> is_nan (clamp hi a) = true.
Proof.
  intros Hhi Ha. unfold clamp, zero. cbn [Math_min Math_max of_Z float64].
  change (Float64.of_Z 0) with 0%float.
  assert (Float64.max 0 a = a) as ->.
  { unfold Float64.max. change (is_nan 0) with false. by rewrite Ha. }
  unfold Float64.min. by rewrite Hhi, Ha.
Qed.

Lemma float_clamp_bounds (hi a : float) :
  float_le 0 hi -> number a ->
  float_le 0 (clamp hi a) /\ float_le (clamp hi a) hi.
Proof.
  intros Hhi Ha. unfold clamp, zero. cbn [Math_min Math_max of_Z float64].
  change (Float64.of_Z 0) with 0%float.
  destruct (float_max_zero a Ha) as [Hnum Hle].
  by apply float_min_bound.
Qed.

(** On doubles every completed step leaves each coordinate within its bounds,
    or NaN when the moved coordinate was NaN. *)
Lemma positions_on_doubles (vs moved_vs : list (Vertex float))
    (es : list Edge) (width height k temperature m : float) :
  float_le 0 width -> float_le 0 height ->
  fruchtermanReingoldStep vs es width height k temperature
  = Normal (moved_vs, m) ->
  Forall (on_canvas_or_nan width height) moved_vs.
Proof.
  intros Hw Hh (acc & _ & ->)%step_Normal_inv.
  apply Forall_fmap, Forall_forall. intros v _.
  unfold on_canvas_or_nan, moved, displace.
  cbn [fst Vertex.x Vertex.y set_position].
  destruct (float_le_number _ _ Hw) as [_ Hwn].
  destruct (float_le_number _ _ Hh) as [_ Hhn].
  split.
  - match goal with |- context [clamp width ?a] =>
      destruct (is_nan a) eqn:Ha;
        [left; by apply float_clamp_nan | right; by apply float_clamp_bounds]
    end.
  - match goal with |- context [clamp height ?a] =>
      destruct (is_nan a) eqn:Ha;
        [left; by apply float_clamp_nan | right; by apply float_clamp_bounds]
    end.
Qed.

(** ** The order of doubles *)

Lemma SFcompare_key (x y : spec_float) :
  x <> S754_nan -> y <> S754_nan ->
  SFcompare x y = Some (lex_compare (float_key x) (float_key y)).
Proof.
  intros Hx Hy.
  destruct x as [sx|sx| |sx mx ex], y as [sy|sy| |sy my ey]; try done;
    try (by destruct sx); try (by destruct sy); try (by destruct sx, sy).
  unfold SFcompare, lex_compare.
  destruct sx, sy; cbn [float_key fst snd]; try reflexivity.
  cbn [Z.compare]. change (CompOpp (1 ?= 1)%positive) with Eq. cbv iota.
  rewrite Z.compare_opp, (Z.compare_antisym ex ey).
  by destruct (ex ?= ey).
Qed.

Lemma lex_compare_Lt (p q : Z * Z * Z) :
  lex_compare p q = Lt
  <-> p.1.1 < q.1.1
      \/ (p.1.1 = q.1.1 /\ (p.1.2 < q.1.2 \/ (p.1.2 = q.1.2 /\ p.2 < q.2))).
Proof.
  unfold lex_compare.
  destruct (Z.compare_spec p.1.1 q.1.1); [|split; [lia | done]|split; [done | lia]].
  destruct (Z.compare_spec p.1.2 q.1.2); [|split; [lia | done]|split; [done | lia]].
  destruct (Z.compare_spec p.2 q.2); split; (done || lia).
Qed.

Lemma lex_compare_Eq (p q : Z * Z * Z) :
  lex_compare p q = Eq <-> p = q.
Proof.
  destruct p as [[a b] c], q as [[a' b'] c']. unfold lex_compare. simpl.
  destruct (Z.compare_spec a a'); [|split; [done | intros [=]; lia]..].
  destruct (Z.compare_spec b b'); [|split; [done | intros [=]; lia]..].
  destruct (Z.compare_spec c c'); split; try done; try (intros [=]; lia).
  intros _. by subst.
Qed.

Lemma SFcompare_Some (x y : spec_float) (c : comparison) :
  SFcompare x y = Some c -> x <> S754_nan /\ y <> S754_nan.
Proof. destruct x, y; simpl; try discriminate; done. Qed.

Lemma sf_lt_key (x y : spec_float) :
  x <> S754_nan -> y <> S754_nan ->
  (SFcompare x y = Some Lt <-> lex_compare (float_key x) (float_key y) = Lt)
  /\ (SFcompare x y = Some Eq <-> float_key x = float_key y).
Proof.
  intros Hx Hy. rewrite (SFcompare_key x y Hx Hy), <- lex_compare_Eq.
  split; split; intros Heq; congruence.
Qed.

Lemma SFcompare_lt_trans (x y z : spec_float) :
  SFcompare x y = Some Lt -> SFcompare y z = Some Lt ->
  SFcompare x z = Some Lt.
Proof.
  intros Hxy Hyz.
  destruct (SFcompare_Some _ _ _ Hxy) as [Hx Hy].
  destruct (SFcompare_Some _ _ _ Hyz) as [_ Hz].
  apply (sf_lt_key x y Hx Hy) in Hxy. apply (sf_lt_key y z Hy Hz) in Hyz.
  apply (sf_lt_key x z Hx Hz).
  rewrite lex_compare_Lt in *. lia.
Qed.

Lemma SFcompare_lt_eq_trans (x y z : spec_float) :
  SFcompare x y = Some Lt -> SFcompare y z = Some Eq ->
  SFcompare x z = Some Lt.
Proof.
  intros Hxy Hyz.
  destruct (SFcompare_Some _ _ _ Hxy) as [Hx Hy].
  destruct (SFcompare_Some _ _ _ Hyz) as [_ Hz].
  apply (sf_lt_key x y Hx Hy) in Hxy. apply (sf_lt_key y z Hy Hz) in Hyz.
  apply (sf_lt_key x z Hx Hz). by rewrite <- Hyz.
Qed.

Lemma SFcompare_eq_lt_trans (x y z : spec_float) :
  SFcompare x y = Some Eq -> SFcompare y z = Some Lt ->
  SFcompare x z = Some Lt.
Proof.
  intros Hxy Hyz.
  destruct (SFcompare_Some _ _ _ Hxy) as [Hx Hy].
  destruct (SFcompare_Some _ _ _ Hyz) as [_ Hz].
  apply (sf_lt_key x y Hx Hy) in Hxy. apply (sf_lt_key y z Hy Hz) in Hyz.
  apply (sf_lt_key x z Hx Hz). by rewrite Hxy.
Qed.

Lemma SFcompare_eq_trans (x y z : spec_float) :
  SFcompare x y = Some Eq -> SFcompare y z = Some Eq ->
  SFcompare x z = Some Eq.
Proof.
  intros Hxy Hyz.
  destruct (SFcompare_Some _ _ _ Hxy) as [Hx Hy].
  destruct (SFcompare_Some _ _ _ Hyz) as [_ Hz].
  apply (sf_lt_key x y Hx Hy) in Hxy. apply (sf_lt_key y z Hy Hz) in Hyz.
  apply (sf_lt_key x z Hx Hz). congruence.
Qed.

Lemma ltb_Lt (a b : float) :
  PrimFloat.ltb a b = true <-> SFcompare (Prim2SF a) (Prim2SF b) = Some Lt.
Proof.
  rewrite ltb_spec. unfold SFltb.
  destruct (SFcompare _ _) as [[]|]; split; (done || discriminate).
Qed.

Lemma float_le_cases (a b : float) :
  float_le a b
  <-> SFcompare (Prim2SF a) (Prim2SF b) = Some Lt
      \/ SFcompare (Prim2SF a) (Prim2SF b) = Some Eq.
Proof.
  unfold float_le. rewrite leb_spec. unfold SFleb.
  destruct (SFcompare _ _) as [[]|]; split; try done; try (by auto);
    intros [|]; discriminate.
Qed.

Lemma ltb_trans (a b c : float) :
  PrimFloat.ltb a b = true -> PrimFloat.ltb b c = true ->
  PrimFloat.ltb a c = true.
Proof. rewrite !ltb_Lt. apply SFcompare_lt_trans. Qed.

Lemma ltb_le_trans (a b c : float) :
  PrimFloat.ltb a b = true -> float_le b c -> PrimFloat.ltb a c = true.
Proof.
  rewrite !ltb_Lt, float_le_cases. intros Hab [Hbc|Hbc].
  - by eapply SFcompare_lt_trans.
  - by eapply SFcompare_lt_eq_trans.
Qed.

Lemma le_ltb_trans (a b c : float) :
  float_le a b -> PrimFloat.ltb b c = true -> PrimFloat.ltb a c = true.
Proof.
  rewrite !ltb_Lt, float_le_cases. intros [Hab|Hab] Hbc.
  - by eapply SFcompare_lt_trans.
  - by eapply SFcompare_eq_lt_trans.
Qed.

Lemma float_le_trans (a b c : float) :
  float_le a b -> float_le b c -> float_le a c.
Proof.
  rewrite !float_le_cases. intros [Hab|Hab] [Hbc|Hbc].
  - left. by eapply SFcompare_lt_trans.
  - left. by eapply SFcompare_lt_eq_trans.
  - left. by eapply SFcompare_eq_lt_trans.
  - right. by eapply SFcompare_eq_trans.
Qed.

Lemma ltb_irrefl (a : float) : PrimFloat.ltb a a = false.
Proof.
  destruct (PrimFloat.ltb a a) eqn:Haa; [|done]. apply ltb_Lt in Haa.
  destruct (SFcompare_Some _ _ _ Haa) as [Hnum _].
  rewrite SFcompare_refl in Haa by done. discriminate.
Qed.

Lemma ltb_asym (a b : float) :
  PrimFloat.ltb a b = true -> PrimFloat.ltb b a = false.
Proof.
  intros Hab. destruct (PrimFloat.ltb b a) eqn:Hba; [|done].
  by rewrite <- (ltb_irrefl a), (ltb_trans a b a Hab Hba).
Qed.

Lemma float_le_not_ltb (a b : float) :
  float_le a b -> PrimFloat.ltb b a = false.
Proof.
  intros Hab. destruct (PrimFloat.ltb b a) eqn:Hba; [|done].
  by rewrite <- (ltb_irrefl a), (le_ltb_trans a b a Hab Hba).
Qed.

Lemma ltb_number (a b : float) :
  PrimFloat.ltb a b = true -> number a /\ number b.
Proof. intros Hab. by apply float_le_number, ltb_float_le. Qed.

(** ** The clamp, case by case *)

Lemma positive_not_pos_zero (hi : float) :
  PrimFloat.ltb 0 hi = true -> Float64.is_pos_zero hi = false.
Proof.
  intros Hlt. apply ltb_Lt in Hlt. unfold Float64.is_pos_zero.
  rewrite classify_spec. unfold SF64classify, SFclassify.
  destruct (Prim2SF hi) as [s|s| |s m e]; try done.
  - by destruct s.
  - destruct s; by destruct (_ =? _).
Qed.

Lemma float_clamp_clamped (hi a : float) :
  PrimFloat.ltb 0 hi = true -> clamped hi a (clamp hi a).
Proof.
  intros Hhi. destruct (ltb_number _ _ Hhi) as [_ Hnum].
  assert (float_le 0 hi) as Hle by (by apply ltb_float_le).
  unfold clamp, zero. cbn [Math_min Math_max of_Z float64].
  change (Float64.of_Z 0) with 0%float.
  split; [|split; [|split]].
  - intros Hnan. by apply (float_clamp_nan hi a).
  - intros Ha. change (float_le a 0) in Ha.
    destruct (float_le_number _ _ Ha) as [Hna _].
    assert (Float64.max 0 a = 0%float) as ->.
    { unfold Float64.max. change (is_nan 0) with false. rewrite Hna.
      rewrite (float_le_not_ltb a 0 Ha). cbv iota.
      change (Float64.is_neg_zero 0) with false. by destruct (PrimFloat.ltb a 0). }
    unfold Float64.min. rewrite Hnum. change (is_nan 0) with false.
    by rewrite (ltb_asym 0 hi Hhi), Hhi.
  - intros H0 Ha. destruct (ltb_number _ _ H0) as [_ Hna].
    assert (Float64.max 0 a = a) as ->.
    { unfold Float64.max. change (is_nan 0) with false. by rewrite Hna, H0. }
    unfold Float64.min. by rewrite Hnum, Hna, (ltb_asym a hi Ha), Ha.
  - intros Ha. change (float_le hi a) in Ha.
    destruct (float_le_number _ _ Ha) as [_ Hna].
    assert (Float64.max 0 a = a) as ->.
    { unfold Float64.max. change (is_nan 0) with false.
      by rewrite Hna, (ltb_le_trans 0 hi a Hhi Ha). }
    unfold Float64.min. rewrite Hnum, Hna, (float_le_not_ltb hi a Ha).
    cbv iota. rewrite (positive_not_pos_zero hi Hhi).
    by destruct (PrimFloat.ltb hi a).
Qed.

(** C2, as stated, fails on doubles: a vertex without any force on it and a
    temperature of -1 give [0 / 0 * -1] for both moves, and a [k] whose square
    overflows gives [0 * infinity] in [y] at temperature 100; the clamp lets
    the NaN through, and a NaN is within no bounds. *)
Lemma position_off_canvas_on_doubles :
  PrimFloat.ltb 0 WIDTH = true /\ PrimFloat.ltb 0 HEIGHT = true
  /\ (exists (v : Vertex float) (m : float),
        fruchtermanReingoldStep lone [] WIDTH HEIGHT (of_Z 50) (-1)%float
        = Normal ([v], m)
        /\ is_nan (Vertex.x v) = true
        /\ PrimFloat.leb 0 (Vertex.x v) = false
        /\ PrimFloat.leb (Vertex.x v) WIDTH = false)
  /\ (exists (v0 v1 : Vertex float) (m : float),
        fruchtermanReingoldStep (two_vertices 0 0 0 0) [] WIDTH HEIGHT
          0x1p+600%float (of_Z 100) = Normal ([v0; v1], m)
        /\ is_nan (Vertex.y v0) = true
        /\ PrimFloat.leb 0 (Vertex.y v0) = false
        /\ PrimFloat.leb (Vertex.y v0) HEIGHT = false).
Proof.
  split; [vm_compute; reflexivity|]. split; [vm_compute; reflexivity|].
  split.
  - eexists _, _. repeat split; vm_compute; reflexivity.
  - eexists _, _, _. repeat split; vm_compute; reflexivity.
Qed.

(** C2, amended.  On doubles and on a canvas of positive width and height, a
    step whose edges all join vertices of the array completes, and after
    every completed step each coordinate of each vertex is the moved
    coordinate clamped: unchanged when it lies strictly between 0 and the
    bound, 0 when it is at most 0, the bound when it is at least the bound
    (neither reflected nor wrapped), and NaN when the moved coordinate is
    NaN.  So each coordinate lies within its bounds or is NaN. *)
Theorem positions_clamped_to_canvas (vs : list (Vertex float))
    (es : list Edge) (width height k temperature : float) :
  PrimFloat.ltb 0 width = true -> PrimFloat.ltb 0 height = true ->
  (edges_in_range vs es ->
   exists r, fruchtermanReingoldStep vs es width height k temperature
             = Normal r)
  /\ (forall (moved_vs : list (Vertex float)) (m : float),
        fruchtermanReingoldStep vs es width height k temperature
        = Normal (moved_vs, m) ->
        Forall (on_canvas_or_nan width height) moved_vs
        /\ exists acc,
             forces vs es k = Normal acc
             /\ Forall2 (fun v' v =>
                  clamped width
                    (PrimFloat.add (Vertex.x v) (applied temperature v).1)
                    (Vertex.x v')
                  /\ clamped height
                       (PrimFloat.add (Vertex.y v) (applied temperature v).2)
                       (Vertex.y v'))
                  moved_vs acc).
Proof.
  intros Hw Hh. split; [apply step_total|].
  intros moved_vs m Hrun. split.
  - eapply positions_on_doubles; [by apply ltb_float_le..|exact Hrun].
  - apply step_Normal_inv in Hrun as (acc & Hacc & ->).
    exists acc. split; [done|].
    apply Forall2_fmap_l, Forall_Forall2_diag, Forall_forall.
    intros v _. split; by apply float_clamp_clamped.
Qed.

Lemma positions_clamped_to_canvas_witness :
  PrimFloat.ltb 0 WIDTH = true /\ PrimFloat.ltb 0 HEIGHT = true
  /\ exists r, fruchtermanReingoldStep (two_vertices 0 0 0 0) scenario_edges
                 WIDTH HEIGHT (of_Z 50) (of_Z 100) = Normal r
               /\ Forall (on_canvas_or_nan WIDTH HEIGHT) r.1.
Proof.
  assert (PrimFloat.ltb 0 WIDTH = true) as Hw by (vm_compute; reflexivity).
  assert (PrimFloat.ltb 0 HEIGHT = true) as Hh by (vm_compute; reflexivity).
  split; [exact Hw|]. split; [exact Hh|].
  destruct (positions_clamped_to_canvas (two_vertices 0 0 0 0) scenario_edges
              (@WIDTH float float64) (@HEIGHT float float64) (of_Z 50)
              (of_Z 100) Hw Hh) as [Htotal Hcanvas].
  destruct Htotal as [[moved_vs m] Hrun].
  - repeat constructor; simpl; lia.
  - exists (moved_vs, m). split; [exact Hrun|].
    exact (proj1 (Hcanvas moved_vs m Hrun)).
Defined.

(** ** The cap on doubles *)

(** C5, as stated, fails on doubles.  For two vertices at (0,0) and (1,2)
    with [k = 50] and temperature 100 both forces exceed the temperature, and
    the rescaled moves have [d1^2 + d2^2 > 100^2] exactly: their magnitude is
    not the temperature, it is larger.  And a force of magnitude NaN is not
    capped at all: with a [k] whose square overflows, the second of two
    vertices goes from [x = 100] to [x = 800] at temperature 100. *)
Lemma capped_move_exceeds_temperature :
  (exists acc : list (Vertex float),
      forces slanted [] (of_Z 50) = Normal acc
      /\ Forall (fun v =>
           gt (force_magnitude v) (of_Z 100) = true
           /\ exists excess : Z,
                square_excess (applied (of_Z 100) v).1
                  (applied (of_Z 100) v).2 (of_Z 100) = Some excess
                /\ 0 < excess) acc
      /\ length acc = 2%nat)
  /\ (exists (v0 v1 : Vertex float) (m : float),
        fruchtermanReingoldStep (two_vertices 0 0 0 0) [] WIDTH HEIGHT
          0x1p+600%float (of_Z 100) = Normal ([v0; v1], m)
        /\ Vertex.x v1 = 800%float
        /\ gt (PrimFloat.sub (Vertex.x v1) 100) (of_Z 100) = true).
Proof.
  split.
  - eexists. split; [vm_compute; reflexivity|]. split; [|done].
    repeat constructor; try (vm_compute; reflexivity);
      eexists; (split; [vm_compute; reflexivity | done]).
  - eexists _, _, _. repeat split; vm_compute; reflexivity.
Qed.

(** ** The returned maximum on doubles *)

Lemma float_fold_max_spec (acc : list (Vertex float)) (m0 : float) :
  number m0 ->
  let m := fold_left (fun m v => if gt (force_magnitude v) m
                                 then force_magnitude v else m) acc m0 in
  number m
  /\ float_le m0 m
  /\ (forall v, v ∈ acc -> gt (force_magnitude v) m = false)
  /\ (m = m0 \/ exists v, v ∈ acc /\ m = force_magnitude v).
Proof.
  revert m0. induction acc as [|v acc IH]; intros m0 Hm0; cbv zeta.
  - simpl. split; [done|]. split; [by apply float_le_refl|].
    split; [|by left]. intros v Hv. by apply elem_of_nil in Hv.
  - cbn [fold_left].
    set (m1 := if gt (force_magnitude v) m0 then force_magnitude v else m0).
    assert (number m1 /\ float_le m0 m1
            /\ gt (force_magnitude v) m1 = false) as (Hm1 & Hle1 & Hv1).
    { unfold m1. cbn [gt float64].
      destruct (PrimFloat.ltb m0 (force_magnitude v)) eqn:Hlt.
      - split; [apply (ltb_number _ _ Hlt)|].
        split; [by apply ltb_float_le | apply ltb_irrefl].
      - split; [done|]. split; [by apply float_le_refl | done]. }
    destruct (IH m1 Hm1) as (Hm & Hle & Hall & Hsome).
    split; [exact Hm|]. split; [by eapply float_le_trans|]. split.
    + intros u [->|Hu]%elem_of_cons; [|by apply Hall].
      cbn [gt float64] in *.
      match goal with |- PrimFloat.ltb ?m ?d = false =>
        destruct (PrimFloat.ltb m d) eqn:Hlt; [|done] end.
      by rewrite (le_ltb_trans _ _ _ Hle Hlt) in Hv1.
    + destruct Hsome as [Heq|(u & Hu & Heq)].
      * unfold m1 in Heq.
        destruct (gt (force_magnitude v) m0); [right | by left].
        exists v. split; [apply elem_of_cons; by left | done].
      * right. exists u. split; [apply elem_of_cons; by right | done].
Qed.

(** C6, amended.  On doubles the step returns the largest magnitude of the
    forces accumulated on the vertices, measured before the temperature cap,
    a magnitude that is NaN being passed over: the result is a number, at
    least 0, exceeded by no magnitude, and is 0 or the magnitude of a vertex
    (0 for a graph without vertices).  With a temperature that is not
    negative it is at most [temperature] exactly when no vertex is capped. *)
Theorem returned_move_is_largest_magnitude (vs : list (Vertex float))
    (es : list Edge) (width height k temperature : float)
    (acc : list (Vertex float)) :
  forces vs es k = Normal acc ->
  exists m,
    fruchtermanReingoldStep vs es width height k temperature
    = Normal (moved width height temperature <$> acc, m)
    /\ number m /\ float_le 0 m
    /\ (forall v, v ∈ acc -> gt (force_magnitude v) m = false)
    /\ (forall v, v ∈ acc -> number (force_magnitude v) ->
                  float_le (force_magnitude v) m)
    /\ (m = 0%float \/ exists v, v ∈ acc /\ m = force_magnitude v)
    /\ (acc = [] -> m = 0%float)
    /\ (gt 0%float temperature = false ->
        (gt m temperature = false
         <-> Forall (fun v => gt (force_magnitude v) temperature = false)
               acc)).
Proof.
  intros Hacc. eexists. split; [by apply step_of_forces|].
  destruct (float_fold_max_spec acc zero) as (Hm & Hle & Hall & Hsome);
    [done|].
  change zero with 0%float in *.
  split; [exact Hm|]. split; [exact Hle|]. split; [exact Hall|].
  assert (forall v, v ∈ acc -> number (force_magnitude v) ->
            float_le (force_magnitude v)
              (fold_left (fun m v => if gt (force_magnitude v) m
                                     then force_magnitude v else m) acc
                 0%float)) as Hbound.
  { intros v Hv Hnum. apply not_ltb_float_le; [done | done |].
    exact (Hall v Hv). }
  split; [exact Hbound|]. split; [exact Hsome|].
  split; [by intros ->|].
  intros Htemp. split.
  - intros Hlow. apply Forall_forall. intros v Hv.
    destruct (gt (force_magnitude v) temperature) eqn:Hcap; [|done].
    cbn [gt float64] in *.
    destruct (ltb_number _ _ Hcap) as [_ Hnum].
    by rewrite (ltb_le_trans _ _ _ Hcap (Hbound v Hv Hnum)) in Hlow.
  - intros Hnone. destruct Hsome as [->|(v & Hv & ->)]; [done|].
    rewrite Forall_forall in Hnone. by apply Hnone.
Qed.

Lemma returned_move_is_largest_magnitude_witness :
  exists acc : list (Vertex float),
    forces (two_vertices 0 0 0 0) scenario_edges (of_Z 50) = Normal acc
    /\ exists m : float,
         fruchtermanReingoldStep (two_vertices 0 0 0 0) scenario_edges
           WIDTH HEIGHT (of_Z 50) (of_Z 100)
         = Normal (moved WIDTH HEIGHT (of_Z 100) <$> acc, m)
         /\ number m
         /\ forall v, v ∈ acc -> gt (force_magnitude v) m = false.
Proof.
  eexists. split; [vm_compute; reflexivity|].
  match goal with
  | |- exists m, _ = Normal (_ <$> ?acc, m) /\ _ =>
      destruct (returned_move_is_largest_magnitude (two_vertices 0 0 0 0)
                  scenario_edges WIDTH HEIGHT (of_Z 50) (of_Z 100) acc)
        as (m & Hrun & Hnum & _ & Hall & _); [vm_compute; reflexivity|]
  end.
  exists m. split; [exact Hrun|]. split; [exact Hnum | exact Hall].
Defined.

(** ** Cooling on doubles *)

Lemma all_along_spec (P : nat -> float -> bool) (count n : nat) :
  all_along P count n (temperature_after n) = true ->
  forall i : nat, (n <= i < n + count)%nat -> P i (temperature_after i) = true.
Proof.
  revert n. induction count as [|count IH]; intros n Hall i Hi; [lia|].
  cbn [all_along] in Hall. apply andb_true_iff in Hall as [Hn Hrest].
  destruct (decide (i = n)) as [->|Hne]; [done|].
  apply (IH (S n)); [exact Hrest | lia].
Qed.

Lemma cooling_checked :
  all_along cooling_check (S stall) 0 (temperature_after 0) = true.
Proof. vm_compute. reflexivity. Qed.

Lemma cooling_stalls :
  cool (temperature_after stall : float) = temperature_after stall.
Proof. vm_compute. reflexivity. Qed.

Lemma temperature_after_stall (n : nat) :
  (stall <= n)%nat -> (temperature_after n : float) = temperature_after stall.
Proof.
  induction 1 as [|n _ IH]; [done|].
  change (temperature_after (S n) : float)
    with (cool (temperature_after n : float)).
  rewrite IH. apply cooling_stalls.
Qed.

Lemma cooling_check_always (n : nat) :
  cooling_check (Nat.min n stall) (temperature_after n) = true.
Proof.
  destruct (decide (n <= stall)%nat) as [Hle|Hgt].
  - rewrite Nat.min_l by done.
    apply (all_along_spec cooling_check (S stall) 0 cooling_checked). lia.
  - rewrite Nat.min_r by lia. rewrite temperature_after_stall by lia.
    apply (all_along_spec cooling_check (S stall) 0 cooling_checked). lia.
Qed.

(** C8, as stated, fails on doubles: a positive temperature need not decrease.
    The smallest positive double is its own product with 0.95, and the
    cooling from 100 reaches, after 14556 applications, a positive
    temperature that the next application leaves as it is. *)
Lemma cooling_stalls_on_doubles :
  (PrimFloat.ltb 0 0x1p-1074%float = true
   /\ cool 0x1p-1074%float = 0x1p-1074%float
   /\ lt (cool 0x1p-1074%float) 0x1p-1074%float = false)
  /\ (PrimFloat.ltb 0 (temperature_after stall) = true
      /\ (temperature_after (S stall) : float) = temperature_after stall
      /\ lt (temperature_after (S stall) : float) (temperature_after stall)
         = false).
Proof.
  split; (split; [|split]); vm_compute; reflexivity.
Qed.

(** C8, amended.  On doubles, started at 100, the temperature stays positive;
    each of the first 14556 applications of the cooling strictly decreases
    it, and from then on it keeps one value; it is at least 1 after each of
    the first 89 applications and below 1 after the 90th and ever after,
    whatever the graph: from then on the stopping test of the animation loop
    holds for every [move]. *)
Theorem cooling_reaches_floor :
  (forall n : nat, PrimFloat.ltb 0 (temperature_after n) = true)
  /\ (forall n : nat, (n < stall)%nat ->
        lt (temperature_after (S n) : float) (temperature_after n) = true)
  /\ (forall n : nat, (stall <= n)%nat ->
        temperature_after (S n) = (temperature_after n : float))
  /\ (forall n : nat, (n < 90)%nat ->
        float_le 1 (temperature_after n)
        /\ lt (temperature_after n : float) (of_Z 1) = false)
  /\ (forall n : nat, (90 <= n)%nat ->
        lt (temperature_after n : float) (of_Z 1) = true)
  /\ (forall (n : nat) (move : float),
        (90 <= n)%nat -> stops move (temperature_after n) = true).
Proof.
  assert (forall n : nat, (90 <= n)%nat ->
            lt (temperature_after n : float) (of_Z 1) = true) as Hlow.
  { intros n Hn. pose proof (cooling_check_always n) as Hcheck.
    unfold cooling_check in Hcheck.
    apply andb_true_iff in Hcheck as [Hcheck _].
    apply andb_true_iff in Hcheck as [_ Hcheck].
    assert ((Nat.min n stall <? 90)%nat = false) as Hge.
    { apply Nat.ltb_ge. unfold stall. lia. }
    by rewrite Hge in Hcheck. }
  split; [|split; [|split; [|split; [|split; [exact Hlow|]]]]].
  - intros n. pose proof (cooling_check_always n) as Hcheck.
    unfold cooling_check in Hcheck.
    apply andb_true_iff in Hcheck as [Hcheck _].
    by apply andb_true_iff in Hcheck as [Hcheck _].
  - intros n Hn. pose proof (cooling_check_always n) as Hcheck.
    rewrite Nat.min_l in Hcheck by lia. unfold cooling_check in Hcheck.
    apply andb_true_iff in Hcheck as [_ Hcheck].
    assert ((n <? stall)%nat = true) as Hlt by (by apply Nat.ltb_lt).
    by rewrite Hlt in Hcheck.
  - intros n Hn.
    rewrite (temperature_after_stall (S n)), (temperature_after_stall n)
      by lia.
    reflexivity.
  - intros n Hn. pose proof (cooling_check_always n) as Hcheck.
    rewrite Nat.min_l in Hcheck by (unfold stall; lia).
    unfold cooling_check in Hcheck.
    apply andb_true_iff in Hcheck as [Hcheck _].
    apply andb_true_iff in Hcheck as [_ Hcheck].
    assert ((n <? 90)%nat = true) as Hlt by (by apply Nat.ltb_lt).
    rewrite Hlt in Hcheck. split; [exact Hcheck|].
    apply (float_le_not_ltb _ _ Hcheck).
  - intros n move Hn. unfold stops. rewrite (Hlow n Hn). apply orb_true_r.
Qed.

(** * Further properties of the code *)

(** ** The generator *)

(** X1.  The key of the edge set identifies the unordered pair: two pairs of
    integers get the same key exactly when they are the same pair, in the
    same or in the opposite order. *)
Theorem edge_key_identifies_pair (a b c d : Z) :
  edge_key a b = edge_key c d <-> (a = c /\ b = d) \/ (a = d /\ b = c).
Proof.
  split; [apply edge_key_inj|].
  intros [[-> ->]|[-> ->]]; [done | apply edge_key_sym].
Qed.

Section GeneratorFurther.
Context {num : Type} `{Number num}.

Lemma push_vertices_closed_form (rng : random_source num) (todo : nat)
    (i : Z) (pos : nat) (acc : list (Vertex num)) :
  (push_vertices rng todo i pos acc).1
  = acc ++ ((fun j => Vertex.mk (i + Z.of_nat j)
                        (mul (rng (pos + 2 * j)%nat) (of_Z 800))
                        (mul (rng (S (pos + 2 * j))) (of_Z 600)) zero zero)
            <$> seq 0 todo).
Proof.
  revert i pos acc. induction todo as [|todo IH]; intros i pos acc.
  - simpl. by rewrite app_nil_r.
  - cbn [push_vertices]. rewrite IH, <- app_assoc. f_equal.
    cbn [seq fmap list_fmap app]. rewrite <- fmap_S_seq, <- list_fmap_compose.
    f_equal.
    + repeat (first [lia | progress f_equal]).
    + apply list_fmap_ext. intros _ j _. simpl.
      repeat (first [lia | progress f_equal]).
Qed.

Lemma push_vertices_draws (rng : random_source num) (todo : nat) (i : Z)
    (pos : nat) (acc : list (Vertex num)) :
  (push_vertices rng todo i pos acc).2 = (pos + 2 * todo)%nat.
Proof.
  revert i pos acc. induction todo as [|todo IH]; intros i pos acc.
  - simpl. lia.
  - cbn [push_vertices]. rewrite IH. lia.
Qed.

(** The edge loop ends with exactly [numEdges] edges, or with the edges it
    started from if these were enough, whatever the draws. *)
Lemma sample_edges_count (fuel : nat) (rng : random_source num)
    (n numEdges : Z) (edgeSet : gset string) (edges : list Edge) (pos : nat)
    (result : list Edge) :
  sample_edges fuel rng n numEdges edgeSet edges pos = Normal result ->
  Z.of_nat (length result) = Z.max (Z.of_nat (length edges)) numEdges.
Proof.
  revert edgeSet edges pos.
  induction fuel as [|fuel IH]; intros edgeSet edges pos; simpl;
    case_bool_decide as Hlen; intros Hrun; try discriminate.
  - injection Hrun as <-. lia.
  - destruct (resample _ _ _ _ _ _) as [[b pos']|e'|] eqn:Hb;
      try discriminate.
    case_bool_decide as Hkey; apply IH in Hrun; [lia|].
    rewrite length_app in Hrun. simpl in Hrun. lia.
  - injection Hrun as <-. lia.
Qed.

End GeneratorFurther.

(** X2.  The vertices of a returned graph are, in this order, what the vertex
    loop pushes: the [j]-th has id [j], the position
    [(draw (2 j) * 800, draw (2 j + 1) * 600)] and zero [dx] and [dy]; there
    are [numVertices] of them, none when [numVertices] is negative. *)
Theorem generated_vertices_placed {num : Type} `{Number num} (fuel : nat)
    (rng : random_source num) (numVertices numEdges : Z) (g : Graph num) :
  generateRandomGraph fuel rng numVertices numEdges = Normal g ->
  vertices g = placed rng <$> seq 0 (Z.to_nat numVertices)
  /\ length (vertices g) = Z.to_nat numVertices.
Proof.
  rewrite generateRandomGraph_unfold.
  intros (edges & _ & Hg)%bind_Normal. injection Hg as <-. simpl.
  rewrite push_vertices_closed_form. simpl.
  split; [|by rewrite length_fmap, length_seq].
  apply list_fmap_ext. intros _ j _. unfold placed.
  repeat (first [lia | progress f_equal]).
Qed.

Lemma generated_vertices_placed_witness :
  exists g : Graph float,
    generateRandomGraph 20 cyclic_source 3 2 = Normal g
    /\ vertices g = placed cyclic_source <$> seq 0 (Z.to_nat 3)
    /\ length (vertices g) = Z.to_nat 3.
Proof.
  eexists. split; [vm_compute; reflexivity|].
  apply (generated_vertices_placed 20 cyclic_source 3 2).
  vm_compute. reflexivity.
Defined.

(** X3.  A returned graph has exactly [numEdges] edges, none when [numEdges]
    is negative, whatever the random source draws: the generator returns no
    graph with fewer or more edges than asked for. *)
Theorem generated_edges_counted {num : Type} `{Number num} (fuel : nat)
    (rng : random_source num) (numVertices numEdges : Z) (g : Graph num) :
  generateRandomGraph fuel rng numVertices numEdges = Normal g ->
  length (edges g) = Z.to_nat numEdges.
Proof.
  rewrite generateRandomGraph_unfold.
  intros (edges & Hedges & Hg)%bind_Normal. injection Hg as <-. simpl.
  apply sample_edges_count in Hedges. simpl in Hedges. lia.
Qed.

Lemma generated_edges_counted_witness :
  exists g : Graph float,
    generateRandomGraph 20 cyclic_source 3 2 = Normal g
    /\ length (edges g) = Z.to_nat 2.
Proof.
  eexists. split; [vm_compute; reflexivity|].
  apply (generated_edges_counted 20 cyclic_source 3 2).
  vm_compute. reflexivity.
Defined.

(** X4.  In exact arithmetic, with every draw in [[0, 1)], each vertex of a
    returned graph is placed inside the 800 x 600 area, [0 <= x < 800] and
    [0 <= y < 600], with zero [dx] and [dy]. *)
Theorem generated_positions_in_area (fuel : nat) (rng : random_source R)
    (numVertices numEdges : Z) (g : Graph R) :
  (forall pos, (0 <= rng pos < 1)%R) ->
  generateRandomGraph fuel rng numVertices numEdges = Normal g ->
  Forall (fun v => (0 <= Vertex.x v < 800)%R /\ (0 <= Vertex.y v < 600)%R
                   /\ Vertex.dx v = 0%R /\ Vertex.dy v = 0%R) (vertices g).
Proof.
  intros Hunit. rewrite generateRandomGraph_unfold.
  intros (edges & _ & Hg)%bind_Normal. injection Hg as <-. simpl.
  rewrite push_vertices_closed_form. simpl.
  apply Forall_fmap, Forall_forall. intros j _. simpl.
  pose proof (Hunit (2 * j)%nat) as Hx.
  pose proof (Hunit (S (2 * j))) as Hy.
  simpl in Hx, Hy. repeat split; lra.
Qed.

Lemma generated_positions_in_area_witness :
  (forall pos, (0 <= half_source pos < 1)%R)
  /\ exists g : Graph R,
       generateRandomGraph 0 half_source 2 0 = Normal g
       /\ length (vertices g) = 2%nat
       /\ Forall (fun v => (0 <= Vertex.x v < 800)%R
                           /\ (0 <= Vertex.y v < 600)%R
                           /\ Vertex.dx v = 0%R /\ Vertex.dy v = 0%R)
                 (vertices g).
Proof.
  assert (forall pos, (0 <= half_source pos < 1)%R) as Hunit
    by (intros pos; unfold half_source; lra).
  split; [exact Hunit|].
  assert (generateRandomGraph 0 half_source 2 0
          = Normal (mkGraph (push_vertices half_source 2 0 0 []).1 []))
    as Hrun.
  { rewrite generateRandomGraph_unfold. by rewrite sample_edges_none. }
  eexists. split; [exact Hrun|]. split; [reflexivity|].
  exact (generated_positions_in_area 0 half_source 2 0 _ Hunit Hrun).
Defined.

(** X5.  A negative [numVertices] is not refused: a graph returned for it and
    for at least one edge has no vertex but [numEdges] edges, and the layout
    step throws a [TypeError] on it. *)
Theorem negative_vertex_count_breaks_step {num : Type} `{Number num}
    (fuel : nat) (rng : random_source num) (numVertices numEdges : Z)
    (g : Graph num) :
  numVertices < 0 -> 1 <= numEdges ->
  generateRandomGraph fuel rng numVertices numEdges = Normal g ->
  vertices g = []
  /\ length (edges g) = Z.to_nat numEdges
  /\ forall width height k temperature : num,
       fruchtermanReingoldStep (vertices g) (edges g) width height k
         temperature = Throw TypeError.
Proof.
  intros Hn He Hrun. revert Hrun. rewrite generateRandomGraph_unfold.
  intros (edges & Hedges & Hg)%bind_Normal. injection Hg as <-. simpl.
  apply sample_edges_count in Hedges. simpl in Hedges.
  rewrite push_vertices_closed_form.
  replace (Z.to_nat numVertices) with O by lia. simpl.
  split; [done|]. split; [lia|].
  intros width height k temperature.
  destruct edges as [|e edges]; [simpl in Hedges; lia|].
  unfold fruchtermanReingoldStep, forces.
  change (repulsion k []) with (@nil (Vertex num)).
  cbn [attraction]. rewrite attract_Throw; [done|].
  left. unfold array_get. by case_bool_decide.
Qed.

Lemma negative_vertex_count_breaks_step_witness :
  exists g : Graph float,
    generateRandomGraph 20 cyclic_source (-3) 2 = Normal g
    /\ vertices g = []
    /\ length (edges g) = Z.to_nat 2
    /\ forall width height k temperature : float,
         fruchtermanReingoldStep (vertices g) (edges g) width height k
           temperature = Throw TypeError.
Proof.
  eexists. split; [vm_compute; reflexivity|].
  apply (negative_vertex_count_breaks_step 20 cyclic_source (-3) 2).
  - lia.
  - lia.
  - vm_compute. reflexivity.
Defined.

(** ** The layout step *)

Section StepFurther.
Context {num : Type} `{Number num}.

Lemma attraction_Normal_in_range (k : num) (vs vs' : list (Vertex num))
    (es : list Edge) :
  attraction k vs es = Normal vs' -> edges_in_range vs es.
Proof.
  revert vs. induction es as [|e es IH]; intros vs; simpl.
  - intros _. constructor.
  - intros (vs1 & H1 & Hrest)%bind_Normal.
    pose proof (attract_persistent _ _ _ _ H1) as Hsame.
    apply attract_inv in H1 as (v & u & Hv & Hu & _).
    apply Forall_cons. split.
    + split; by eapply array_get_lt.
    + eapply edges_in_range_same_length; [|by apply IH].
      symmetry. by eapply Forall2_length.
Qed.

Lemma attraction_finishes (k : num) (vs : list (Vertex num))
    (es : list Edge) :
  attraction k vs es <> Unfinished.
Proof.
  revert vs. induction es as [|e es IH]; intros vs; simpl; [done|].
  unfold attract at 1, deref.
  destruct (array_get vs (Edge.source e)); simpl; [|done].
  destruct (array_get vs (Edge.target e)); simpl; [apply IH | done].
Qed.

Lemma same_persistent_ids (vs ws : list (Vertex num)) :
  Forall2 same_persistent vs ws -> Vertex.id <$> vs = Vertex.id <$> ws.
Proof.
  induction 1 as [|v w vs ws (Hid & _) _ IH]; [done|].
  rewrite !fmap_cons. by f_equal.
Qed.

Lemma forces_persistent (vs acc : list (Vertex num)) (es : list Edge)
    (k : num) :
  forces vs es k = Normal acc -> Forall2 same_persistent acc vs.
Proof.
  intros Hacc. eapply same_persistent_trans;
    [by eapply attraction_persistent | apply repulsion_persistent].
Qed.

Lemma step_Normal_ids (vs moved_vs : list (Vertex num)) (es : list Edge)
    (width height k temperature m : num) :
  fruchtermanReingoldStep vs es width height k temperature
  = Normal (moved_vs, m) ->
  Vertex.id <$> moved_vs = Vertex.id <$> vs.
Proof.
  intros (acc & Hacc & ->)%step_Normal_inv.
  rewrite <- (same_persistent_ids _ _ (forces_persistent _ _ _ _ Hacc)).
  rewrite <- list_fmap_compose. by apply list_fmap_ext.
Qed.

Lemma ids_indexed (vs ws : list (Vertex num)) :
  Vertex.id <$> vs = Vertex.id <$> ws -> indexed ws -> indexed vs.
Proof.
  intros Hids Hws i v [Hi Hv]%array_get_Some.
  assert ((Vertex.id <$> ws) !! Z.to_nat i = Some (Vertex.id v)) as Hw
    by (by rewrite <- Hids, list_lookup_fmap, Hv).
  rewrite list_lookup_fmap in Hw.
  destruct (ws !! Z.to_nat i) as [w|] eqn:Hlook; [|done].
  injection Hw as <-. apply Hws. by apply array_get_Some.
Qed.

End StepFurther.

(** X6.  The layout step throws exactly when some edge has an endpoint that is
    no index of the vertex array, and then it throws a [TypeError]; otherwise
    it returns.  It has no other outcome. *)
Theorem step_throws_iff_endpoint_missing {num : Type} `{Number num}
    (vs : list (Vertex num)) (es : list Edge)
    (width height k temperature : num) :
  (fruchtermanReingoldStep vs es width height k temperature = Throw TypeError
   <-> ~ edges_in_range vs es)
  /\ ((exists r, fruchtermanReingoldStep vs es width height k temperature
                 = Normal r)
      <-> edges_in_range vs es)
  /\ fruchtermanReingoldStep vs es width height k temperature <> Unfinished.
Proof.
  assert (fruchtermanReingoldStep vs es width height k temperature
          <> Unfinished) as Hfin.
  { unfold fruchtermanReingoldStep, forces.
    pose proof (attraction_finishes k (repulsion k vs) es) as Hatt.
    by destruct (attraction k (repulsion k vs) es). }
  assert ((exists r, fruchtermanReingoldStep vs es width height k temperature
                     = Normal r) <-> edges_in_range vs es) as Hret.
  { split; [|apply step_total].
    intros [r Hrun]. unfold fruchtermanReingoldStep, forces in Hrun.
    apply bind_Normal in Hrun as (acc & Hacc & _).
    apply attraction_Normal_in_range in Hacc.
    eapply edges_in_range_same_length; [|exact Hacc].
    symmetry. apply length_repulsion. }
  split; [|split; [exact Hret | exact Hfin]].
  split.
  - intros Hthrow Hrange. apply Hret in Hrange as [r Hrun]. congruence.
  - intros Hrange.
    destruct (fruchtermanReingoldStep vs es width height k temperature)
      as [r|[]|] eqn:Hrun; [|done|done].
    exfalso. apply Hrange, Hret. by exists r.
Qed.

(** X7.  A completed step returns the same vertices in the same order: no
    vertex is added, dropped or renumbered.  The force loops change no
    position, and the step leaves in [dx] and [dy] of each vertex its
    accumulated force as it was before the temperature cap. *)
Theorem step_keeps_vertices {num : Type} `{Number num}
    (vs moved_vs : list (Vertex num)) (es : list Edge)
    (width height k temperature m : num) :
  fruchtermanReingoldStep vs es width height k temperature
  = Normal (moved_vs, m) ->
  Vertex.id <$> moved_vs = Vertex.id <$> vs
  /\ exists acc, forces vs es k = Normal acc
                 /\ Forall2 same_persistent acc vs
                 /\ Forall2 same_forces moved_vs acc.
Proof.
  intros (acc & Hacc & ->)%step_Normal_inv.
  assert (Forall2 same_persistent acc vs) as Hsame.
  { eapply same_persistent_trans;
      [by eapply attraction_persistent | apply repulsion_persistent]. }
  split.
  - rewrite <- (same_persistent_ids _ _ Hsame), <- list_fmap_compose.
    by apply list_fmap_ext.
  - exists acc. split; [done|]. split; [done|].
    apply Forall2_fmap_l, Forall_Forall2_diag, Forall_forall.
    intros v _. done.
Qed.

Lemma step_keeps_vertices_witness :
  exists (moved_vs : list (Vertex float)) (m : float),
    fruchtermanReingoldStep (two_vertices 7 9 (-3) 4) scenario_edges
      WIDTH HEIGHT (of_Z 50) (of_Z 100) = Normal (moved_vs, m)
    /\ Vertex.id <$> moved_vs = [0; 1].
Proof.
  eexists _, _. split; [vm_compute; reflexivity|].
  exact (proj1 (step_keeps_vertices (two_vertices 7 9 (-3) 4) _
                  scenario_edges WIDTH HEIGHT (of_Z 50) (of_Z 100) _
                  ltac:(vm_compute; reflexivity))).
Defined.

(** X8.  The repulsion loop updates the array it iterates over, yet what it
    leaves on a vertex is what the vertices of the array it started from
    give: the accumulator reset to zero, then one term for every vertex of
    another id, in array order. *)
Theorem repulsion_reads_initial_array {num : Type} `{Number num} (k : num)
    (vs : list (Vertex num)) (i : nat) (v : Vertex num) :
  vs !! i = Some v ->
  repulsion k vs !! i
  = Some (fold_left (repel k) vs (set_force v zero zero)).
Proof.
  intros Hv. rewrite repulsion_map.
  change (map (repulse k vs) vs) with (repulse k vs <$> vs).
  by rewrite list_lookup_fmap, Hv.
Qed.

Lemma repulsion_reads_initial_array_witness :
  repulsion (of_Z 50) (two_vertices 7 9 (-3) 4) !! 1%nat
  = Some (fold_left (repel (of_Z 50)) (two_vertices 7 9 (-3) 4)
            (set_force (Vertex.mk 1 100 0 (-3) 4)%float zero zero)).
Proof.
  apply (repulsion_reads_initial_array (of_Z 50) (two_vertices 7 9 (-3) 4)
           1%nat).
  reflexivity.
Defined.

(** ** The layout step in exact arithmetic *)

Section ExactFurther.
Local Open Scope R_scope.

(** *** Sums *)

Lemma sum_over_add {A : Type} (f g : A -> R) (l : list A) :
  sum_over (fun a => f a + g a) l = sum_over f l + sum_over g l.
Proof. induction l as [|a l IH]; simpl; [lra|]. rewrite IH. lra. Qed.

Lemma sum_over_ext {A : Type} (f g : A -> R) (l : list A) :
  (forall a, a ∈ l -> f a = g a) -> sum_over f l = sum_over g l.
Proof.
  induction l as [|a l IH]; intros Hfg; simpl; [done|].
  rewrite IH, (Hfg a); [done | apply elem_of_cons; by left|].
  intros b Hb. apply Hfg, elem_of_cons. by right.
Qed.

Lemma sum_over_zero {A : Type} (l : list A) : sum_over (fun _ => 0) l = 0.
Proof. induction l as [|a l IH]; simpl; lra. Qed.

Lemma sum_over_fmap {A B : Type} (f : B -> R) (g : A -> B) (l : list A) :
  sum_over f (g <$> l) = sum_over (fun a => f (g a)) l.
Proof. induction l as [|a l IH]; simpl; [done|]. by rewrite <- IH. Qed.

Lemma sum_over_cons {A : Type} (f : A -> R) (a : A) (l : list A) :
  sum_over f (a :: l) = f a + sum_over f l.
Proof. reflexivity. Qed.

(** A sum over all ordered pairs of an antisymmetric function is zero. *)
Lemma sum_over_pairs_antisym {A : Type} (f : A -> A -> R) (l : list A) :
  (forall a b, f a b = - f b a) ->
  sum_over (fun a => sum_over (f a) l) l = 0.
Proof.
  intros Hanti. induction l as [|c l IH]; [done|].
  rewrite (sum_over_cons (fun a => sum_over (f a) (c :: l)) c l).
  rewrite (sum_over_ext (fun a => sum_over (f a) (c :: l))
             (fun a => f a c + sum_over (f a) l) l)
    by (intros; apply sum_over_cons).
  rewrite sum_over_add, IH, sum_over_cons.
  assert (sum_over (f c) l + sum_over (fun a => f a c) l = 0) as Hcross.
  { rewrite <- sum_over_add, <- (sum_over_zero l).
    apply sum_over_ext. intros a _. rewrite (Hanti a c). lra. }
  pose proof (Hanti c c). lra.
Qed.

Lemma sum_over_alter {A : Type} (f : A -> R) (g : A -> A) (l : list A)
    (i : nat) (a : A) :
  l !! i = Some a ->
  sum_over f (alter g i l) = sum_over f l + (f (g a) - f a).
Proof.
  revert i. induction l as [|b l IH]; intros [|i] Ha; try discriminate.
  - injection Ha as ->. change (alter g 0%nat (a :: l)) with (g a :: l).
    rewrite !sum_over_cons. lra.
  - change (alter g (S i) (b :: l)) with (b :: alter g i l).
    rewrite !sum_over_cons, (IH i Ha). lra.
Qed.

(** *** Repulsion *)

Lemma real_norm_flip (a b : R) : norm (- a) (- b) = norm a b.
Proof. unfold norm. simpl. f_equal. ring. Qed.

Lemma repulsive_force_antisym (k : R) (v u : Vertex R) :
  (repulsive_force k v u).1 = - (repulsive_force k u v).1
  /\ (repulsive_force k v u).2 = - (repulsive_force k u v).2.
Proof.
  unfold repulsive_force.
  replace (norm (Vertex.x u - Vertex.x v) (Vertex.y u - Vertex.y v))
    with (norm (Vertex.x v - Vertex.x u) (Vertex.y v - Vertex.y u))
    by (rewrite <- real_norm_flip; f_equal; lra).
  pose proof (real_norm_nonneg (Vertex.x v - Vertex.x u)
                               (Vertex.y v - Vertex.y u)) as Hpos.
  repeat case_bool_decide; simpl; try congruence; split; try lra;
    field; lra.
Qed.

Lemma repel_repulsive_force (k : R) (v u : Vertex R) :
  repel k v u
  = set_force v (Vertex.dx v + (repulsive_force k v u).1)
                (Vertex.dy v + (repulsive_force k v u).2).
Proof.
  unfold repel, repulsive_force. case_bool_decide; simpl; [done|].
  destruct v as [id x y dx dy]. unfold set_force. simpl. f_equal; lra.
Qed.

Lemma repulsive_force_same_persistent (k : R) (v v' u : Vertex R) :
  same_persistent v' v -> repulsive_force k v' u = repulsive_force k v u.
Proof. intros (Hid & Hx & Hy). unfold repulsive_force. by rewrite Hid, Hx, Hy. Qed.

Lemma fold_repel_sum (k : R) (us : list (Vertex R)) (v : Vertex R) :
  Vertex.dx (fold_left (repel k) us v)
  = Vertex.dx v + sum_over (fun u => (repulsive_force k v u).1) us
  /\ Vertex.dy (fold_left (repel k) us v)
     = Vertex.dy v + sum_over (fun u => (repulsive_force k v u).2) us.
Proof.
  revert v. induction us as [|u us IH]; intros v; simpl; [lra|].
  destruct (IH (repel k v u)) as [-> ->].
  assert (same_persistent (repel k v u) v) as Hsame
    by (unfold repel; by case_bool_decide).
  rewrite (sum_over_ext (fun u0 => (repulsive_force k (repel k v u) u0).1)
             (fun u0 => (repulsive_force k v u0).1))
    by (intros; by rewrite (repulsive_force_same_persistent _ _ _ _ Hsame)).
  rewrite (sum_over_ext (fun u0 => (repulsive_force k (repel k v u) u0).2)
             (fun u0 => (repulsive_force k v u0).2))
    by (intros; by rewrite (repulsive_force_same_persistent _ _ _ _ Hsame)).
  rewrite repel_repulsive_force. simpl. lra.
Qed.

(** The repulsion forces of an array cancel. *)
Lemma repulsion_total (k : R) (vs : list (Vertex R)) :
  total_dx (repulsion k vs) = 0 /\ total_dy (repulsion k vs) = 0.
Proof.
  unfold total_dx, total_dy. rewrite repulsion_map.
  change (map (repulse k vs) vs) with (repulse k vs <$> vs).
  rewrite !sum_over_fmap. split.
  - rewrite (sum_over_ext _
               (fun v => sum_over (fun u => (repulsive_force k v u).1) vs)).
    + apply (sum_over_pairs_antisym
               (fun v u => (repulsive_force k v u).1)).
      intros a b. apply repulsive_force_antisym.
    + intros v _. unfold repulse.
      rewrite (proj1 (fold_repel_sum k vs _)).
      rewrite (sum_over_ext _ (fun u => (repulsive_force k v u).1)).
      * unfold zero. simpl. lra.
      * intros u _. by rewrite (repulsive_force_same_persistent k v).
  - rewrite (sum_over_ext _
               (fun v => sum_over (fun u => (repulsive_force k v u).2) vs)).
    + apply (sum_over_pairs_antisym
               (fun v u => (repulsive_force k v u).2)).
      intros a b. apply repulsive_force_antisym.
    + intros v _. unfold repulse.
      rewrite (proj2 (fold_repel_sum k vs _)).
      rewrite (sum_over_ext _ (fun u => (repulsive_force k v u).2)).
      * unfold zero. simpl. lra.
      * intros u _. by rewrite (repulsive_force_same_persistent k v).
Qed.

(** *** Attraction *)

(** What an edge takes from one endpoint it gives to the other. *)
Lemma attract_total (k : R) (vs vs' : list (Vertex R)) (e : Edge) :
  attract k vs e = Normal vs' ->
  total_dx vs' = total_dx vs /\ total_dy vs' = total_dy vs.
Proof.
  intros (v & u & Hv & Hu & ->)%attract_inv.
  apply array_get_Some in Hv as [Hs Hv].
  set (f := edge_force k v u).
  assert (exists u', alter (pull f) (Z.to_nat (Edge.source e)) vs
                     !! Z.to_nat (Edge.target e) = Some u') as [u' Hu'].
  { apply lookup_lt_is_Some_2. rewrite length_alter.
    apply array_get_lt in Hu. lia. }
  unfold total_dx, total_dy, array_update.
  rewrite !(sum_over_alter _ _ _ _ u' Hu'), !(sum_over_alter _ _ _ _ v Hv).
  unfold push, pull. simpl. split; lra.
Qed.

Lemma attraction_total_force (k : R) (vs vs' : list (Vertex R))
    (es : list Edge) :
  attraction k vs es = Normal vs' ->
  total_dx vs' = total_dx vs /\ total_dy vs' = total_dy vs.
Proof.
  revert vs. induction es as [|e es IH]; intros vs; simpl.
  - by intros [= <-].
  - intros (vs1 & H1 & Hrest)%bind_Normal.
    destruct (attract_total _ _ _ _ H1) as [<- <-]. by apply IH.
Qed.

(** X9.  The forces that the two force loops accumulate cancel: over all
    vertices the [dx] sum to zero, and so do the [dy].  Every repulsion term
    of a pair is met by the opposite term of the reversed pair, and every edge
    gives to one endpoint what it takes from the other. *)
Theorem net_force_is_zero (vs acc : list (Vertex R)) (es : list Edge)
    (k : R) :
  0 < k ->
  forces vs es k = Normal acc ->
  total_dx acc = 0 /\ total_dy acc = 0.
Proof.
  intros _ Hacc. unfold forces in Hacc.
  destruct (attraction_total_force _ _ _ _ Hacc) as [-> ->].
  apply repulsion_total.
Qed.

Lemma net_force_is_zero_witness :
  0 < 50
  /\ total_dx [Vertex.mk 0 0 0 scenario_force 0;
               Vertex.mk 1 100 0 (- scenario_force) 0] = 0
  /\ total_dy [Vertex.mk 0 0 0 scenario_force 0;
               Vertex.mk 1 100 0 (- scenario_force) 0] = 0.
Proof.
  assert (0 < 50) as Hk by lra. split; [exact Hk|].
  exact (net_force_is_zero scenario _ scenario_edges 50 Hk scenario_forces).
Defined.

(** *** How far a step moves a vertex *)

Lemma real_norm_mono (a b c d : R) :
  Rabs a <= Rabs c -> Rabs b <= Rabs d -> norm a b <= norm c d.
Proof.
  intros Ha Hb. unfold norm. simpl. apply sqrt_le_1_alt.
  assert (forall r, r * r = Rabs r * Rabs r) as Hsq
    by (intros r; unfold Rabs; destruct (Rcase_abs r); lra).
  rewrite (Hsq a), (Hsq b), (Hsq c), (Hsq d).
  pose proof (Rabs_pos a). pose proof (Rabs_pos b). nra.
Qed.

(** The clamp brings no point further from a point of the canvas. *)
Lemma real_clamp_nonexpansive (hi p a : R) :
  0 <= p <= hi -> Rabs (clamp hi a - p) <= Rabs (a - p).
Proof.
  intros Hp. unfold clamp, zero. simpl.
  unfold Rmin, Rmax, Rabs.
  repeat destruct (Rle_dec _ _); repeat destruct (Rcase_abs _); lra.
Qed.

Lemma applied_at_most_force (temperature : R) (v : Vertex R) :
  0 <= temperature ->
  norm (applied temperature v).1 (applied temperature v).2
  <= force_magnitude v
  /\ norm (applied temperature v).1 (applied temperature v).2
     <= temperature.
Proof.
  intros Hpos.
  destruct (Rlt_le_dec temperature (force_magnitude v)) as [Hgt|Hle].
  - destruct (Req_dec temperature 0) as [->|Hne].
    + rewrite applied_capped by done. cbn [fst snd].
      rewrite !Rmult_0_r. rewrite real_norm_horizontal, Rabs_R0. lra.
    + rewrite applied_capped_magnitude by lra. lra.
  - rewrite applied_uncapped by done. cbn [fst snd].
    fold (force_magnitude v). lra.
Qed.

(** X10.  The returned [maxMove] bounds how far the step has moved any vertex
    that was on the canvas, and so does the temperature: the distance between
    the old and the new position is at most either.  (A step that returns 0
    has moved no such vertex.) *)
Theorem returned_move_bounds_movement (vs moved_vs : list (Vertex R))
    (es : list Edge) (width height k temperature m : R) :
  0 <= temperature ->
  fruchtermanReingoldStep vs es width height k temperature
  = Normal (moved_vs, m) ->
  0 <= m
  /\ Forall2 (fun v' v =>
       on_canvas width height v ->
       norm (Vertex.x v' - Vertex.x v) (Vertex.y v' - Vertex.y v) <= m
       /\ norm (Vertex.x v' - Vertex.x v) (Vertex.y v' - Vertex.y v)
          <= temperature) moved_vs vs.
Proof.
  intros Hpos Hrun.
  pose proof Hrun as (acc & Hacc & ->)%step_Normal_inv.
  rewrite (step_of_forces _ _ _ _ _ _ _ Hacc) in Hrun.
  injection Hrun as <-.
  destruct (fold_max_spec acc zero) as (Hzero & Hall & _).
  split; [exact Hzero|].
  assert (Forall2 same_persistent acc vs) as Hsame.
  { eapply same_persistent_trans;
      [by eapply attraction_persistent | apply repulsion_persistent]. }
  apply Forall2_fmap_l.
  apply Forall2_same_length_lookup. split; [by eapply Forall2_length|].
  intros i a v Ha Hv.
  destruct (Forall2_lookup_lr _ _ _ _ _ _ Hsame Ha Hv) as (_ & Hx & Hy).
  intros [Hcx Hcy].
  assert (a ∈ acc) as Hin by (by eapply list_elem_of_lookup_2).
  specialize (Hall a Hin).
  destruct (applied_at_most_force temperature a Hpos) as [Hforce Htemp].
  assert (norm (Vertex.x (moved width height temperature a) - Vertex.x v)
               (Vertex.y (moved width height temperature a) - Vertex.y v)
          <= norm (applied temperature a).1 (applied temperature a).2)
    as Hmove.
  { apply real_norm_mono.
    - pose proof (real_clamp_nonexpansive width (Vertex.x v)
                    (Vertex.x a + (applied temperature a).1) Hcx) as Hc.
      unfold moved, displace. cbn [fst Vertex.x set_position].
      fold (force_magnitude a). fold (applied temperature a).
      simpl add. rewrite Hx in Hc |- *.
      replace (Vertex.x v + (applied temperature a).1 - Vertex.x v)
        with ((applied temperature a).1) in Hc by lra. exact Hc.
    - pose proof (real_clamp_nonexpansive height (Vertex.y v)
                    (Vertex.y a + (applied temperature a).2) Hcy) as Hc.
      unfold moved, displace. cbn [fst Vertex.y set_position].
      fold (force_magnitude a). fold (applied temperature a).
      simpl add. rewrite Hy in Hc |- *.
      replace (Vertex.y v + (applied temperature a).2 - Vertex.y v)
        with ((applied temperature a).2) in Hc by lra. exact Hc. }
  split.
  - eapply Rle_trans; [exact Hmove|].
    eapply Rle_trans; [exact Hforce | exact Hall].
  - eapply Rle_trans; [exact Hmove | exact Htemp].
Qed.

Lemma returned_move_bounds_movement_witness :
  0 <= 100
  /\ Forall2 (fun v' v =>
       on_canvas 800 600 v ->
       norm (Vertex.x v' - Vertex.x v) (Vertex.y v' - Vertex.y v)
       <= scenario_force)
       [Vertex.mk 0 100 0 scenario_force 0;
        Vertex.mk 1 0 0 (- scenario_force) 0] scenario.
Proof.
  assert (0 <= 100) as Hpos by lra. split; [exact Hpos|].
  assert (fruchtermanReingoldStep scenario scenario_edges 800 600 50 100
          = Normal ([Vertex.mk 0 100 0 scenario_force 0;
                     Vertex.mk 1 0 0 (- scenario_force) 0], scenario_force))
    as Hrun by (apply scenario_step; lra).
  eapply Forall2_impl.
  - exact (proj2 (returned_move_bounds_movement scenario _ scenario_edges
                    800 600 50 100 _ Hpos Hrun)).
  - intros v' v Hboth Hcanvas. exact (proj1 (Hboth Hcanvas)).
Defined.

End ExactFurther.

Section SelfLoops.
Local Open Scope R_scope.

(** X11.  In exact arithmetic and for a positive [k], an edge from a vertex
    of the array to itself has no effect: the step with the edge in the edge
    list has the outcome of the step without it. *)
Theorem self_loop_is_ignored (vs : list (Vertex R)) (es1 es2 : list Edge)
    (e : Edge) (width height k temperature : R) :
  0 < k ->
  (0 <= Edge.source e < Z.of_nat (length vs))%Z ->
  Edge.target e = Edge.source e ->
  fruchtermanReingoldStep vs (es1 ++ e :: es2) width height k temperature
  = fruchtermanReingoldStep vs (es1 ++ es2) width height k temperature.
Proof.
  intros _ Hs Heq. unfold fruchtermanReingoldStep, forces.
  rewrite !attraction_app.
  destruct (attraction k (repulsion k vs) es1) as [st| |] eqn:Hst;
    [|done|done].
  cbn [mbind outcome_bind attraction].
  assert (length st = length vs) as Hlen.
  { rewrite (Forall2_length _ _ _ (attraction_persistent _ _ _ _ Hst)).
    apply length_repulsion. }
  destruct (array_get_in_range st (Edge.source e)) as [v Hv]; [lia|].
  by rewrite (attract_self_loop k st e v Hv Heq).
Qed.

Lemma self_loop_is_ignored_witness :
  fruchtermanReingoldStep scenario ([Edge.mk 0 1] ++ Edge.mk 1 1 :: [])
    800 600 50 100
  = fruchtermanReingoldStep scenario ([Edge.mk 0 1] ++ []) 800 600 50 100.
Proof.
  apply (self_loop_is_ignored scenario [Edge.mk 0 1] [] (Edge.mk 1 1)).
  - lra.
  - simpl. lia.
  - reflexivity.
Defined.

End SelfLoops.

(** ** The animation loop *)

Section AnimationFurther.
Context {num : Type} `{Number num}.

Lemma frame_paused (s : Sim.t num) :
  Sim.running s = false -> frame s = Normal s.
Proof. intros Hr. unfold frame. by rewrite Hr. Qed.

Lemma frames_paused (n : nat) (s : Sim.t num) :
  Sim.running s = false -> frames n s = Normal s.
Proof.
  intros Hr. induction n as [|n IH]; [done|].
  simpl. rewrite (frame_paused s Hr). exact IH.
Qed.

(** A frame on a running state with a well-indexed graph lays the graph out
    once. *)
Lemma frame_drawable (s : Sim.t num) :
  drawable s -> Sim.running s = true ->
  exists (verts : list (Vertex num)) (move : num),
    fruchtermanReingoldStep (Sim.vertices s) (Sim.edges s) WIDTH HEIGHT
      ideal_length (Sim.temperature s) = Normal (verts, move)
    /\ frame s
       = Normal (Sim.mk verts (Sim.edges s)
                   (negb (stops move (Sim.temperature s)))
                   (Sim.iteration s + 1) (cool (Sim.temperature s)) move)
    /\ drawable (Sim.mk verts (Sim.edges s)
                   (negb (stops move (Sim.temperature s)))
                   (Sim.iteration s + 1) (cool (Sim.temperature s)) move)
    /\ Vertex.id <$> verts = Vertex.id <$> Sim.vertices s.
Proof.
  intros [[Hidx Hrange] Hne] Hr. simpl in Hidx, Hrange.
  destruct (step_total (Sim.vertices s) (Sim.edges s) WIDTH HEIGHT
              ideal_length (Sim.temperature s) Hrange) as [[verts move] Hrun].
  pose proof (step_Normal_ids _ _ _ _ _ _ _ _ Hrun) as Hids.
  exists verts, move. split; [done|]. split; [|split; [|done]].
  - unfold frame. rewrite Hr. cbn [negb].
    rewrite bool_decide_eq_false_2
      by (destruct (Sim.vertices s); [done | simpl; lia]).
    rewrite Hrun. simpl. by destruct (stops move (Sim.temperature s)).
  - assert (length verts = length (Sim.vertices s)) as Hlen.
    { by rewrite <- (length_fmap Vertex.id), Hids, length_fmap. }
    split; [split; simpl|simpl].
    + by eapply ids_indexed.
    + by eapply edges_in_range_same_length.
    + intros ->. destruct (Sim.vertices s); [done | discriminate].
Qed.

(** What [n] frames keep, and how far they count. *)
Lemma frames_drawable (n : nat) (s : Sim.t num) :
  drawable s ->
  exists s', frames n s = Normal s'
    /\ drawable s'
    /\ Sim.edges s' = Sim.edges s
    /\ Vertex.id <$> Sim.vertices s' = Vertex.id <$> Sim.vertices s
    /\ Sim.iteration s <= Sim.iteration s' <= Sim.iteration s + Z.of_nat n.
Proof.
  revert s. induction n as [|n IH]; intros s Hs.
  - exists s. split; [done|]. split; [done|]. split; [done|].
    split; [done | lia].
  - destruct (Sim.running s) eqn:Hr.
    + destruct (frame_drawable s Hs Hr)
        as (verts & move & _ & Hframe & Hdraw & Hids).
      destruct (IH _ Hdraw) as (s' & Hrun & Hs' & Hedges & Hids' & Hiter).
      exists s'. cbn [frames]. rewrite Hframe. simpl in *.
      split; [exact Hrun|]. split; [done|]. split; [done|].
      split; [congruence | lia].
    + exists s. rewrite frames_paused by done.
      split; [done|]. split; [done|]. split; [done|]. split; [done | lia].
Qed.

(** While the animation runs, frame [n] works at the temperature of [n]
    coolings; with that temperature below 1 the frame stops the animation. *)
Lemma frames_cooling (n : nat) (s : Sim.t num) :
  drawable s -> Sim.running s = true ->
  Sim.temperature s = initial_temperature ->
  exists s', frames n s = Normal s' /\ drawable s'
    /\ ((Sim.running s' = false
         /\ Sim.iteration s < Sim.iteration s' <= Sim.iteration s + Z.of_nat n)
        \/ (Sim.running s' = true
            /\ Sim.iteration s' = Sim.iteration s + Z.of_nat n
            /\ Sim.temperature s' = temperature_after n)).
Proof.
  intros Hs Hr Ht. induction n as [|n IH].
  - exists s. split; [done|]. split; [done|]. right.
    split; [done|]. split; [lia | done].
  - destruct IH as (s1 & Hrun & Hs1 & Hcase).
    assert (frames (S n) s = (s' ← frames n s; frame s')) as Hsnoc.
    { clear. revert s. induction n as [|n IH]; intros s.
      - simpl. by destruct (frame s).
      - cbn [frames]. destruct (frame s) as [s0| |]; simpl; [apply IH|done|done]. }
    rewrite Hsnoc, Hrun. cbn [mbind outcome_bind].
    destruct Hcase as [[Hstop Hiter]|(Hgo & Hiter & Htemp)].
    + exists s1. rewrite frame_paused by done.
      split; [done|]. split; [done|]. left. split; [done | lia].
    + destruct (frame_drawable s1 Hs1 Hgo)
        as (verts & move & _ & Hframe & Hdraw & _).
      eexists. split; [exact Hframe|]. split; [exact Hdraw|]. simpl.
      destruct (stops move (Sim.temperature s1)); simpl.
      * left. split; [done | lia].
      * right. split; [done|]. split; [lia|]. by rewrite Htemp.
Qed.

(** If 90 coolings bring the temperature below 1, the animation started at
    the initial temperature stops within 91 frames. *)
Lemma frames_stop (s : Sim.t num) :
  lt (temperature_after 90) (of_Z 1) = true ->
  drawable s -> Sim.running s = true ->
  Sim.temperature s = initial_temperature ->
  exists s', frames 91 s = Normal s' /\ drawable s'
    /\ Sim.running s' = false
    /\ Sim.iteration s < Sim.iteration s' <= Sim.iteration s + 91.
Proof.
  intros Hcool Hs Hr Ht.
  destruct (frames_cooling 90 s Hs Hr Ht) as (s1 & Hrun & Hs1 & Hcase).
  assert (frames 91 s = (s' ← frames 90 s; frame s')) as Hsnoc.
  { change 91%nat with (S 90). generalize 90%nat. clear. intros n. revert s.
    induction n as [|n IH]; intros s.
    - simpl. by destruct (frame s).
    - cbn [frames]. destruct (frame s) as [s0| |]; simpl; [apply IH|done|done]. }
  rewrite Hsnoc, Hrun. cbn [mbind outcome_bind].
  destruct Hcase as [[Hstop Hiter]|(Hgo & Hiter & Htemp)].
  - exists s1. rewrite frame_paused by done.
    split; [done|]. split; [done|]. split; [done | lia].
  - destruct (frame_drawable s1 Hs1 Hgo)
      as (verts & move & _ & Hframe & Hdraw & _).
    eexists. split; [exact Hframe|]. split; [exact Hdraw|]. simpl.
    assert (stops move (Sim.temperature s1) = true) as ->.
    { unfold stops. rewrite Htemp, Hcool. apply orb_true_r. }
    split; [done | lia].
Qed.

Lemma handleReset_Normal (fuel : nat) (rng : random_source num)
    (s s0 : Sim.t num) :
  handleReset fuel rng s = Normal s0 ->
  exists g, generateRandomGraph fuel rng NUM_VERTICES NUM_EDGES = Normal g
    /\ s0 = Sim.mk (vertices g) (edges g) true 0 (of_Z 100) (Sim.maxMove s).
Proof.
  unfold handleReset. intros (g & Hg & Hs0)%bind_Normal.
  exists g. split; [done|]. by injection Hs0 as <-.
Qed.

Lemma handleReset_drawable (fuel : nat) (rng : random_source num)
    (s s0 : Sim.t num) :
  unit_draws rng NUM_VERTICES ->
  handleReset fuel rng s = Normal s0 ->
  drawable s0.
Proof.
  intros Hdraws (g & Hg & ->)%handleReset_Normal. split; simpl.
  - assert (0 <= NUM_VERTICES) as Hn by (unfold NUM_VERTICES; lia).
    pose proof (generated_graph_well_indexed _ _ _ _ _ Hn Hdraws Hg)
      as Hwell. by destruct g.
  - pose proof (generated_ids _ _ _ _ _ Hg) as Hids.
    intros Hnil. rewrite Hnil in Hids. discriminate Hids.
Qed.

End AnimationFurther.

Section AnimationProperties.
Context {num : Type} `{Number num}.

Lemma seqZ_ids_indexed (vs : list (Vertex num)) :
  Vertex.id <$> vs = seqZ 0 (Z.of_nat (length vs)) -> indexed vs.
Proof.
  intros Hids i v [Hi Hv]%array_get_Some.
  assert ((Vertex.id <$> vs) !! Z.to_nat i = Some (Vertex.id v)) as Hlook
    by (by rewrite list_lookup_fmap, Hv).
  rewrite Hids in Hlook. apply lookup_seqZ in Hlook as [-> _]. lia.
Qed.

(** X12.  On a state whose graph is well indexed and not empty, any number of
    frames of the animation loop completes without an error; the frames keep
    the edge list and the vertex identifiers, and the iteration counter grows
    by at most one per frame. *)
Theorem animation_keeps_graph (n : nat) (s : Sim.t num) :
  drawable s ->
  exists s', frames n s = Normal s'
    /\ Sim.edges s' = Sim.edges s
    /\ Vertex.id <$> Sim.vertices s' = Vertex.id <$> Sim.vertices s
    /\ Sim.iteration s <= Sim.iteration s' <= Sim.iteration s + Z.of_nat n.
Proof.
  intros Hs.
  destruct (frames_drawable n s Hs) as (s' & Hrun & _ & Hedges & Hids & Hit).
  by exists s'.
Qed.

(** X13.  Pressing Resume on a stopped simulation whose temperature is below
    1 runs exactly one more layout step: the first frame steps, cools and
    stops again, and later frames change nothing. *)
Theorem resume_when_cold_steps_once (n : nat) (s : Sim.t num) :
  drawable s ->
  Sim.running s = false ->
  lt (Sim.temperature s) (of_Z 1) = true ->
  exists (verts : list (Vertex num)) (move : num),
    fruchtermanReingoldStep (Sim.vertices s) (Sim.edges s) WIDTH HEIGHT
      ideal_length (Sim.temperature s) = Normal (verts, move)
    /\ frames (S n) (toggle s)
       = Normal (Sim.mk verts (Sim.edges s) false (Sim.iteration s + 1)
                   (cool (Sim.temperature s)) move).
Proof.
  intros Hs Hr Hcold.
  assert (drawable (toggle s)) as Hs' by (by destruct s).
  assert (Sim.running (toggle s) = true) as Hr' by (simpl; by rewrite Hr).
  destruct (frame_drawable (toggle s) Hs' Hr')
    as (verts & move & Hstep & Hframe & _ & _).
  simpl in Hstep, Hframe.
  exists verts, move. split; [exact Hstep|].
  cbn [frames]. rewrite Hframe. cbn [mbind outcome_bind].
  unfold stops. rewrite Hcold, orb_true_r. cbn [negb].
  by apply frames_paused.
Qed.

(** X14.  A reset with a random source of unit draws, when it returns, leaves
    a state that the animation loop can run: 30 vertices and 60 edges, well
    indexed, running, at iteration 0 and temperature 100.  The displayed
    maximum move is the one of the state before the reset. *)
Theorem reset_starts_animation (fuel : nat) (rng : random_source num)
    (s s0 : Sim.t num) :
  unit_draws rng NUM_VERTICES ->
  handleReset fuel rng s = Normal s0 ->
  drawable s0
  /\ length (Sim.vertices s0) = 30%nat
  /\ length (Sim.edges s0) = 60%nat
  /\ Sim.running s0 = true
  /\ Sim.iteration s0 = 0
  /\ Sim.temperature s0 = initial_temperature
  /\ Sim.maxMove s0 = Sim.maxMove s.
Proof.
  intros Hdraws Hrun.
  split; [by eapply handleReset_drawable|].
  apply handleReset_Normal in Hrun as (g & Hg & ->). simpl.
  split.
  - rewrite <- (length_fmap Vertex.id), (generated_ids _ _ _ _ _ Hg).
    by rewrite length_seqZ.
  - split; [|done].
    pose proof (generated_edge_count _ _ _ _ _ Hdraws Hg) as Hcount.
    unfold NUM_EDGES in Hcount. lia.
Qed.

End AnimationProperties.

(** ** The animation on doubles and in exact arithmetic *)

Lemma two_vertex_state_drawable (running : bool) (iteration : Z)
    (temperature : float) :
  drawable (two_vertex_state running iteration temperature).
Proof.
  split; [split|]; simpl.
  - by apply seqZ_ids_indexed.
  - repeat constructor; simpl; lia.
  - done.
Qed.

Lemma scenario_state_drawable (running : bool) (iteration : Z)
    (temperature : R) :
  drawable (scenario_state running iteration temperature).
Proof.
  split; [split|]; simpl.
  - by apply seqZ_ids_indexed.
  - repeat constructor; simpl; lia.
  - done.
Qed.

Lemma stepping_index_in_range :
  forallb (fun v => bool_decide (0 <= stepping_index v <= 29)) (seqZ 0 1024)
  = true.
Proof. vm_compute. reflexivity. Qed.

Lemma stepping_source_unit_draws : unit_draws stepping_source NUM_VERTICES.
Proof.
  intros pos. unfold draw_lo, draw_hi, NUM_VERTICES.
  change (random_index stepping_source 30 pos)
    with (stepping_index ((Z.of_nat pos * 421 + 7) mod 1024)).
  assert (0 <= (Z.of_nat pos * 421 + 7) mod 1024 < 1024) as Hv
    by (apply Z.mod_pos_bound; lia).
  pose proof stepping_index_in_range as Hall.
  rewrite forallb_forall in Hall.
  specialize (Hall ((Z.of_nat pos * 421 + 7) mod 1024)).
  rewrite bool_decide_eq_true in Hall.
  assert (0 <= stepping_index ((Z.of_nat pos * 421 + 7) mod 1024) <= 29)
    as Hidx; [|lia].
  apply Hall, list_elem_of_In, elem_of_seqZ. lia.
Qed.

Lemma animation_keeps_graph_witness :
  drawable (two_vertex_state true 0 initial_temperature)
  /\ exists s', frames 5 (two_vertex_state true 0 initial_temperature)
                = Normal s'
       /\ Sim.edges s' = scenario_edges
       /\ Vertex.id <$> Sim.vertices s' = [0; 1]
       /\ 0 <= Sim.iteration s' <= 0 + Z.of_nat 5.
Proof.
  split; [apply two_vertex_state_drawable|].
  apply (animation_keeps_graph 5 (two_vertex_state true 0 initial_temperature)).
  apply two_vertex_state_drawable.
Defined.

Lemma resume_when_cold_steps_once_witness :
  drawable (two_vertex_state false 91 lit_0_5)
  /\ exists (verts : list (Vertex float)) (move : float),
       fruchtermanReingoldStep (two_vertices 0 0 0 0) scenario_edges
         WIDTH HEIGHT ideal_length lit_0_5 = Normal (verts, move)
       /\ frames 3 (toggle (two_vertex_state false 91 lit_0_5))
          = Normal (Sim.mk verts scenario_edges false 92 (cool lit_0_5) move).
Proof.
  split; [apply two_vertex_state_drawable|].
  apply (resume_when_cold_steps_once 2 (two_vertex_state false 91 lit_0_5)).
  - apply two_vertex_state_drawable.
  - reflexivity.
  - vm_compute. reflexivity.
Defined.

Lemma reset_starts_animation_witness :
  unit_draws stepping_source NUM_VERTICES
  /\ exists s0 : Sim.t float,
       handleReset 200 stepping_source mount = Normal s0
       /\ drawable s0
       /\ length (Sim.vertices s0) = 30%nat
       /\ length (Sim.edges s0) = 60%nat
       /\ Sim.running s0 = true
       /\ Sim.iteration s0 = 0
       /\ Sim.temperature s0 = initial_temperature
       /\ Sim.maxMove s0 = Sim.maxMove (mount (num := float)).
Proof.
  split; [apply stepping_source_unit_draws|].
  eexists. split; [vm_compute; reflexivity|].
  refine (reset_starts_animation 200 stepping_source mount _
            stepping_source_unit_draws _).
  vm_compute. reflexivity.
Defined.

(** X15.  On doubles, the animation started at temperature 100 on a well
    indexed, non-empty graph stops by itself: after 91 frames it is no longer
    running, and it has performed between 1 and 91 layout steps. *)
Theorem animation_stops_on_doubles (s : Sim.t float) :
  drawable s ->
  Sim.running s = true ->
  Sim.temperature s = initial_temperature ->
  exists s', frames 91 s = Normal s'
    /\ Sim.running s' = false
    /\ Sim.iteration s < Sim.iteration s' <= Sim.iteration s + 91
    /\ frames 1 s' = Normal s'.
Proof.
  intros Hs Hr Ht.
  destruct (frames_stop s) as (s' & Hrun & _ & Hstop & Hiter);
    [by vm_compute | done | done | done |].
  exists s'. split; [done|]. split; [done|]. split; [done|].
  by apply frames_paused.
Qed.

Lemma animation_stops_on_doubles_witness :
  drawable (two_vertex_state true 0 initial_temperature)
  /\ exists s', frames 91 (two_vertex_state true 0 initial_temperature)
                = Normal s'
       /\ Sim.running s' = false
       /\ 0 < Sim.iteration s' <= 0 + 91
       /\ frames 1 s' = Normal s'.
Proof.
  split; [apply two_vertex_state_drawable|].
  apply (animation_stops_on_doubles
           (two_vertex_state true 0 initial_temperature)).
  - apply two_vertex_state_drawable.
  - reflexivity.
  - reflexivity.
Defined.

(** X16.  In exact arithmetic as well, the animation started at temperature
    100 on a well indexed, non-empty graph is stopped after 91 frames, having
    performed between 1 and 91 layout steps. *)
Theorem animation_stops (s : Sim.t R) :
  drawable s ->
  Sim.running s = true ->
  Sim.temperature s = initial_temperature ->
  exists s', frames 91 s = Normal s'
    /\ Sim.running s' = false
    /\ Sim.iteration s < Sim.iteration s' <= Sim.iteration s + 91
    /\ frames 1 s' = Normal s'.
Proof.
  intros Hs Hr Ht.
  destruct (frames_stop s) as (s' & Hrun & _ & Hstop & Hiter);
    [| done | done | done |].
  - apply bool_decide_eq_true. change (of_Z 1) with 1%R.
    exact temperature_after_90.
  - exists s'. split; [done|]. split; [done|]. split; [done|].
    by apply frames_paused.
Qed.

Lemma animation_stops_witness :
  drawable (scenario_state true 0 initial_temperature)
  /\ exists s', frames 91 (scenario_state true 0 initial_temperature)
                = Normal s'
       /\ Sim.running s' = false
       /\ 0 < Sim.iteration s' <= 0 + 91
       /\ frames 1 s' = Normal s'.
Proof.
  split; [apply scenario_state_drawable|].
  apply (animation_stops (scenario_state true 0 initial_temperature)).
  - apply scenario_state_drawable.
  - reflexivity.
  - reflexivity.
Defined.

(** ** Symmetries of the attraction phase, in exact arithmetic *)

Section EdgeSymmetries.
Local Open Scope R_scope.

Ltac vertex_eq :=
  repeat match goal with
         | |- @eq R _ _ => fail 1
         | |- _ = _ => f_equal
         end.

Lemma edge_force_flip (k : R) (v u : Vertex R) :
  edge_force k u v = (- (edge_force k v u).1, - (edge_force k v u).2).
Proof.
  unfold edge_force. cbv zeta. cbn [fst snd].
  change (@sub R _) with Rminus. change (@add R _) with Rplus.
  change (@mul R _) with Rmult. change (@div R _) with Rdiv.
  replace (norm (Vertex.x u - Vertex.x v) (Vertex.y u - Vertex.y v))
    with (norm (Vertex.x v - Vertex.x u) (Vertex.y v - Vertex.y u))
    by (rewrite <- real_norm_flip; f_equal; lra).
  f_equal; unfold Rdiv; ring.
Qed.

Lemma edge_force_persistent (k : R) (v u v' u' : Vertex R) :
  same_persistent v' v -> same_persistent u' u ->
  edge_force k v' u' = edge_force k v u.
Proof.
  intros (_ & Hx & Hy) (_ & Hx' & Hy'). unfold edge_force.
  by rewrite Hx, Hy, Hx', Hy'.
Qed.

Lemma push_flip (f : R * R) (v : Vertex R) :
  push (- f.1, - f.2) v = pull f v.
Proof. destruct v, f. unfold push, pull, set_force. simpl. by vertex_eq. Qed.

Lemma pull_flip (f : R * R) (v : Vertex R) :
  pull (- f.1, - f.2) v = push f v.
Proof.
  destruct v, f. unfold push, pull, set_force. simpl. vertex_eq; lra.
Qed.

Lemma push_push (f g : R * R) (v : Vertex R) :
  push f (push g v) = push g (push f v).
Proof.
  destruct v, f, g. unfold push, set_force. simpl. vertex_eq; lra.
Qed.

Lemma alter_comm {A : Type} (f g : A -> A) (i j : nat) (l : list A) :
  (forall x, f (g x) = g (f x)) ->
  alter f i (alter g j l) = alter g j (alter f i l).
Proof.
  intros Hfg. destruct (decide (i = j)) as [->|Hne].
  - rewrite !list_alter_alter_eq. apply list_alter_ext; [|done].
    intros x _. apply Hfg.
  - by apply list_alter_alter_ne.
Qed.

(** One edge, written with additions only. *)
Lemma attract_as_pushes (k : R) (vs : list (Vertex R)) (e : Edge)
    (v u : Vertex R) :
  array_get vs (Edge.source e) = Some v ->
  array_get vs (Edge.target e) = Some u ->
  attract k vs e
  = Normal (alter (push (edge_force k v u)) (Z.to_nat (Edge.target e))
              (alter (push (edge_force k u v)) (Z.to_nat (Edge.source e))
                 vs)).
Proof.
  intros Hv Hu. rewrite (attract_Normal k vs e v u Hv Hu).
  unfold array_update. do 2 f_equal.
  apply list_alter_ext; [|done]. intros x _.
  rewrite (edge_force_flip k v u). symmetry. apply push_flip.
Qed.

Lemma attract_in_range (k : R) (vs : list (Vertex R)) (e : Edge) :
  edges_in_range vs [e] -> exists vs', attract k vs e = Normal vs'.
Proof.
  intros [[Hs Ht] _]%Forall_cons.
  destruct (array_get_in_range vs _ Hs) as [v Hv].
  destruct (array_get_in_range vs _ Ht) as [u Hu].
  rewrite (attract_Normal k vs e v u Hv Hu). eauto.
Qed.

Lemma attract_out_of_range (k : R) (vs : list (Vertex R)) (e : Edge) :
  ~ edges_in_range vs [e] -> attract k vs e = Throw TypeError.
Proof.
  intros Hout. apply attract_Throw.
  destruct (array_get vs (Edge.source e)) as [v|] eqn:Hv; [|by left].
  destruct (array_get vs (Edge.target e)) as [u|] eqn:Hu; [|by right].
  destruct Hout. apply Forall_cons. split; [|constructor].
  split; by eapply array_get_lt.
Qed.

Lemma attract_length (k : R) (vs vs' : list (Vertex R)) (e : Edge) :
  attract k vs e = Normal vs' -> length vs' = length vs.
Proof.
  intros Hrun. by apply (Forall2_length _ _ _ (attract_persistent _ _ _ _ Hrun)).
Qed.

(** Two successive edges can be taken in either order. *)
Lemma attract_swap (k : R) (vs : list (Vertex R)) (e1 e2 : Edge) :
  (vs1 ← attract k vs e1; attract k vs1 e2)
  = (vs2 ← attract k vs e2; attract k vs2 e1).
Proof.
  destruct (decide (edges_in_range vs [e1])) as [He1|He1];
    destruct (decide (edges_in_range vs [e2])) as [He2|He2].
  - destruct (attract_in_range k vs e1 He1) as [vs1 H1].
    destruct (attract_in_range k vs e2 He2) as [vs2 H2].
    rewrite H1, H2. cbn [mbind outcome_bind].
    pose proof (attract_persistent _ _ _ _ H1) as Hsame1.
    pose proof (attract_persistent _ _ _ _ H2) as Hsame2.
    pose proof H1 as (v1 & u1 & Hv1 & Hu1 & _)%attract_inv.
    pose proof H2 as (v2 & u2 & Hv2 & Hu2 & _)%attract_inv.
    rewrite (attract_as_pushes k vs e1 v1 u1 Hv1 Hu1) in H1.
    rewrite (attract_as_pushes k vs e2 v2 u2 Hv2 Hu2) in H2.
    injection H1 as <-. injection H2 as <-.
    destruct (Forall2_same_persistent_get _ _ _ _ Hsame1 Hv2)
      as (v2' & Hv2' & Hsv2).
    destruct (Forall2_same_persistent_get _ _ _ _ Hsame1 Hu2)
      as (u2' & Hu2' & Hsu2).
    destruct (Forall2_same_persistent_get _ _ _ _ Hsame2 Hv1)
      as (v1' & Hv1' & Hsv1).
    destruct (Forall2_same_persistent_get _ _ _ _ Hsame2 Hu1)
      as (u1' & Hu1' & Hsu1).
    rewrite (attract_as_pushes k _ e2 v2' u2' Hv2' Hu2').
    rewrite (attract_as_pushes k _ e1 v1' u1' Hv1' Hu1').
    rewrite (edge_force_persistent k v2 u2 v2' u2' Hsv2 Hsu2).
    rewrite (edge_force_persistent k u2 v2 u2' v2' Hsu2 Hsv2).
    rewrite (edge_force_persistent k v1 u1 v1' u1' Hsv1 Hsu1).
    rewrite (edge_force_persistent k u1 v1 u1' v1' Hsu1 Hsv1).
    f_equal.
    rewrite (alter_comm (push (edge_force k u2 v2)) (push (edge_force k v1 u1)))
      by (intros x; apply push_push).
    rewrite (alter_comm (push (edge_force k u2 v2)) (push (edge_force k u1 v1)))
      by (intros x; apply push_push).
    rewrite (alter_comm (push (edge_force k v2 u2)) (push (edge_force k v1 u1)))
      by (intros x; apply push_push).
    f_equal.
    by rewrite (alter_comm (push (edge_force k v2 u2))
                  (push (edge_force k u1 v1)))
      by (intros x; apply push_push).
  - rewrite (attract_out_of_range k vs e2 He2).
    destruct (attract_in_range k vs e1 He1) as [vs1 H1]. rewrite H1.
    cbn [mbind outcome_bind]. apply attract_out_of_range.
    intros Hin. apply He2. eapply edges_in_range_same_length; [|exact Hin].
    symmetry. by eapply attract_length.
  - rewrite (attract_out_of_range k vs e1 He1).
    destruct (attract_in_range k vs e2 He2) as [vs2 H2]. rewrite H2.
    cbn [mbind outcome_bind]. symmetry. apply attract_out_of_range.
    intros Hin. apply He1. eapply edges_in_range_same_length; [|exact Hin].
    symmetry. by eapply attract_length.
  - by rewrite (attract_out_of_range k vs e1 He1),
      (attract_out_of_range k vs e2 He2).
Qed.

Lemma attraction_two (k : R) (vs : list (Vertex R)) (e1 e2 : Edge)
    (es : list Edge) :
  attraction k vs (e1 :: e2 :: es)
  = (vs2 ← (vs1 ← attract k vs e1; attract k vs1 e2); attraction k vs2 es).
Proof. cbn [attraction]. by destruct (attract k vs e1). Qed.

Lemma attraction_Permutation (k : R) (es es' : list Edge) :
  es ≡ₚ es' ->
  forall vs : list (Vertex R), attraction k vs es = attraction k vs es'.
Proof.
  induction 1 as [|e es es' _ IH|e1 e2 es|es es' es'' _ IH1 _ IH2]; intros vs.
  - done.
  - cbn [attraction]. destruct (attract k vs e); simpl; [apply IH|done|done].
  - by rewrite !attraction_two, attract_swap.
  - by rewrite IH1.
Qed.

(** An edge taken from target to source. *)
Lemma attract_reverse (k : R) (vs : list (Vertex R)) (a b : Z) :
  attract k vs (Edge.mk a b) = attract k vs (Edge.mk b a).
Proof.
  destruct (array_get vs a) as [v|] eqn:Hv;
    [|by rewrite !attract_Throw by (simpl; auto)].
  destruct (array_get vs b) as [u|] eqn:Hu;
    [|by rewrite !attract_Throw by (simpl; auto)].
  rewrite (attract_as_pushes k vs (Edge.mk a b) v u) by done.
  rewrite (attract_as_pushes k vs (Edge.mk b a) u v) by done.
  simpl. f_equal. apply alter_comm. intros x. apply push_push.
Qed.

(** X17.  In exact arithmetic and for a positive [k], the step does not
    depend on the order of the edge list: two lists with the same edges,
    counted with their repetitions, give the same outcome. *)
Theorem edge_order_is_irrelevant (vs : list (Vertex R)) (es es' : list Edge)
    (width height k temperature : R) :
  0 < k ->
  es ≡ₚ es' ->
  fruchtermanReingoldStep vs es width height k temperature
  = fruchtermanReingoldStep vs es' width height k temperature.
Proof.
  intros _ Hperm. unfold fruchtermanReingoldStep, forces.
  by rewrite (attraction_Permutation k es es' Hperm).
Qed.

Lemma edge_order_is_irrelevant_witness :
  fruchtermanReingoldStep scenario [Edge.mk 0 1; Edge.mk 1 1] 800 600 50 100
  = fruchtermanReingoldStep scenario [Edge.mk 1 1; Edge.mk 0 1] 800 600 50 100.
Proof.
  apply (edge_order_is_irrelevant scenario [Edge.mk 0 1; Edge.mk 1 1]
           [Edge.mk 1 1; Edge.mk 0 1]).
  - lra.
  - apply perm_swap.
Defined.

(** X18.  In exact arithmetic and for a positive [k], the direction of an
    edge does not matter: exchanging the source and the target of an edge
    leaves the outcome of the step unchanged. *)
Theorem edge_direction_is_irrelevant (vs : list (Vertex R))
    (es1 es2 : list Edge) (a b : Z) (width height k temperature : R) :
  0 < k ->
  fruchtermanReingoldStep vs (es1 ++ Edge.mk a b :: es2)
    width height k temperature
  = fruchtermanReingoldStep vs (es1 ++ Edge.mk b a :: es2)
      width height k temperature.
Proof.
  intros _. unfold fruchtermanReingoldStep, forces.
  rewrite !attraction_app.
  destruct (attraction k (repulsion k vs) es1) as [st| |]; [|done|done].
  cbn [mbind outcome_bind attraction]. by rewrite (attract_reverse k st a b).
Qed.

Lemma edge_direction_is_irrelevant_witness :
  fruchtermanReingoldStep scenario ([] ++ Edge.mk 0 1 :: []) 800 600 50 100
  = fruchtermanReingoldStep scenario ([] ++ Edge.mk 1 0 :: []) 800 600 50 100.
Proof.
  apply (edge_direction_is_irrelevant scenario [] [] 0 1). lra.
Defined.

(** *** Vertices on one point *)

Lemma repel_at_point (k x0 y0 : R) (v u : Vertex R) :
  at_point x0 y0 v -> at_point x0 y0 u -> repel k v u = v.
Proof.
  intros [Hx Hy] [Hx' Hy']. unfold repel. case_bool_decide; [|done].
  cbv zeta. rewrite Hx, Hy, Hx', Hy'. destruct v. unfold set_force. simpl.
  vertex_eq; unfold Rdiv; ring.
Qed.

Lemma repulse_at_point (k x0 y0 : R) (vs : list (Vertex R)) (v : Vertex R) :
  Forall (at_point x0 y0) vs -> at_point x0 y0 v ->
  repulse k vs v = set_force v 0 0.
Proof.
  intros Hvs Hv. unfold repulse. change zero with 0.
  assert (at_point x0 y0 (set_force v 0 0)) as Hacc by done.
  revert Hacc. generalize (set_force v 0 0). clear Hv v.
  induction Hvs as [|u vs Hu _ IH]; intros acc Hacc; [done|].
  simpl. rewrite (repel_at_point k x0 y0 acc u Hacc Hu). by apply IH.
Qed.

Lemma edge_force_at_point (k x0 y0 : R) (v u : Vertex R) :
  at_point x0 y0 v -> at_point x0 y0 u -> edge_force k v u = (0, 0).
Proof.
  intros [Hx Hy] [Hx' Hy']. unfold edge_force. cbv zeta.
  rewrite Hx, Hy, Hx', Hy'. simpl. f_equal; unfold Rdiv; ring.
Qed.

Lemma push_nothing (v : Vertex R) : push (0, 0) v = v.
Proof. destruct v. unfold push, set_force. simpl. vertex_eq; lra. Qed.

Lemma pull_nothing (v : Vertex R) : pull (0, 0) v = v.
Proof. destruct v. unfold pull, set_force. simpl. vertex_eq; lra. Qed.

Lemma attraction_at_point (k x0 y0 : R) (vs : list (Vertex R))
    (es : list Edge) :
  Forall (at_point x0 y0) vs -> edges_in_range vs es ->
  attraction k vs es = Normal vs.
Proof.
  intros Hvs Hes. induction Hes as [|e es [Hs Ht] _ IH]; [done|].
  destruct (array_get_in_range vs _ Hs) as [v Hv].
  destruct (array_get_in_range vs _ Ht) as [u Hu].
  cbn [attraction]. rewrite (attract_Normal k vs e v u Hv Hu).
  rewrite (edge_force_at_point k x0 y0 v u).
  - unfold array_update.
    rewrite !list_alter_id by (apply push_nothing || apply pull_nothing).
    exact IH.
  - apply array_get_Some in Hv as [_ Hv].
    by apply (Forall_lookup_1 _ _ _ _ Hvs Hv).
  - apply array_get_Some in Hu as [_ Hu].
    by apply (Forall_lookup_1 _ _ _ _ Hvs Hu).
Qed.

(** X19.  In exact arithmetic, vertices that lie on one point of the canvas
    never separate: with a positive [k] and a temperature that is not
    negative, the step leaves every vertex where it is, with both force
    accumulators at 0, and returns 0. *)
Theorem coincident_vertices_never_separate (vs : list (Vertex R))
    (es : list Edge) (width height k temperature x0 y0 : R) :
  0 < k -> 0 <= temperature ->
  0 <= x0 <= width -> 0 <= y0 <= height ->
  Forall (at_point x0 y0) vs ->
  edges_in_range vs es ->
  fruchtermanReingoldStep vs es width height k temperature
  = Normal ((fun v => set_force v 0 0) <$> vs, 0).
Proof.
  intros _ Ht Hx Hy Hvs Hes.
  assert (repulsion k vs = (fun v => set_force v 0 0) <$> vs) as Hrep.
  { rewrite repulsion_map. apply list_fmap_ext. intros i v Hv.
    apply (repulse_at_point k x0 y0); [done|].
    by apply (Forall_lookup_1 _ _ _ _ Hvs Hv). }
  assert (Forall (at_point x0 y0) ((fun v => set_force v 0 0) <$> vs))
    as Hvs'.
  { apply Forall_fmap. eapply Forall_impl; [exact Hvs|]. by intros v []. }
  rewrite (step_of_forces vs ((fun v => set_force v 0 0) <$> vs)).
  - f_equal. f_equal.
    + rewrite <- list_fmap_compose. apply list_fmap_ext. intros i v Hv.
      apply (Forall_lookup_1 _ _ _ _ Hvs) in Hv as [Hvx Hvy].
      unfold moved, displace, capped, compose. cbn [fst snd].
      cbn [Vertex.dx Vertex.dy Vertex.x Vertex.y Vertex.id set_force].
      assert (norm 0 0 = 0) as Hnorm.
      { rewrite real_norm_horizontal. apply Rabs_R0. }
      rewrite Hnorm. rewrite (proj2 (real_gt_false 0 temperature) Ht).
      cbn [fst snd]. unfold set_position.
      cbn [Vertex.dx Vertex.dy Vertex.x Vertex.y Vertex.id].
      change (@add R _) with Rplus. rewrite Hvx, Hvy, !Rplus_0_r.
      rewrite !real_clamp_inside by done.
      unfold set_force. simpl. by rewrite Hvx, Hvy.
    + clear. induction vs as [|v vs IH]; [done|].
      rewrite fmap_cons. cbn [fold_left].
      assert (force_magnitude (set_force v 0 0) = 0) as ->.
      { unfold force_magnitude. cbn [Vertex.dx Vertex.dy set_force].
        rewrite real_norm_horizontal. apply Rabs_R0. }
      change zero with 0 in *.
      rewrite (proj2 (real_gt_false 0 0)) by lra. exact IH.
  - unfold forces. rewrite Hrep.
    apply (attraction_at_point k x0 y0); [done|].
    eapply edges_in_range_same_length; [apply length_fmap | done].
Qed.

Lemma coincident_vertices_never_separate_witness :
  fruchtermanReingoldStep stacked scenario_edges 800 600 50 100
  = Normal ((fun v => set_force v 0 0) <$> stacked, 0).
Proof.
  apply (coincident_vertices_never_separate stacked scenario_edges
           800 600 50 100 10 20); try lra.
  - repeat constructor.
  - repeat constructor; simpl; lia.
Defined.

End EdgeSymmetries.

(** ** The canvas on doubles *)

(** X20.  On doubles, the animation loop never leaves the canvas: when every
    vertex of a state has each coordinate within the 800 by 600 canvas or
    NaN, the same holds after any number of frames. *)
Theorem animation_stays_on_canvas (n : nat) (s s' : Sim.t float) :
  Forall (on_canvas_or_nan WIDTH HEIGHT) (Sim.vertices s) ->
  frames n s = Normal s' ->
  Forall (on_canvas_or_nan WIDTH HEIGHT) (Sim.vertices s').
Proof.
  revert s. induction n as [|n IH]; intros s Hs; cbn [frames].
  - by intros [= <-].
  - intros (s1 & Hframe & Hrest)%bind_Normal. apply (IH s1); [|done].
    clear Hrest IH. unfold frame in Hframe.
    destruct (negb (Sim.running s)); [by injection Hframe as <-|].
    case_bool_decide; [by injection Hframe as <-|].
    apply bind_Normal in Hframe as ([verts move] & Hstep & Hs1).
    injection Hs1 as <-. cbn [Sim.vertices].
    assert (float_le 0 WIDTH) as Hw by (vm_compute; reflexivity).
    assert (float_le 0 HEIGHT) as Hh by (vm_compute; reflexivity).
    by apply (positions_on_doubles _ _ _ _ _ _ _ _ Hw Hh Hstep).
Qed.

Lemma animation_stays_on_canvas_witness :
  Forall (on_canvas_or_nan WIDTH HEIGHT)
    (Sim.vertices (two_vertex_state true 0 initial_temperature))
  /\ exists s', frames 5 (two_vertex_state true 0 initial_temperature)
                = Normal s'
       /\ Forall (on_canvas_or_nan WIDTH HEIGHT) (Sim.vertices s').
Proof.
  assert (Forall (on_canvas_or_nan WIDTH HEIGHT)
            (Sim.vertices (two_vertex_state true 0 initial_temperature)))
    as Hstart.
  { repeat constructor; right; split; vm_compute; reflexivity. }
  split; [exact Hstart|].
  eexists. split; [vm_compute; reflexivity|].
  refine (animation_stays_on_canvas 5
            (two_vertex_state true 0 initial_temperature) _ Hstart _).
  vm_compute. reflexivity.
Defined.
